(** * Arachne: directed hypergraphs with multi-path ancestry

    A shallow embedding of [arachne/model.py]: the [Node] dataclass, the
    [DirectedHypergraph] base class and its [StringDirectedHypergraph]
    specialization, followed by the properties of the operations.

    Conventions of the embedding.
    - A Python [dict] is an insertion-ordered association list ([Dict]).
    - A method that mutates [self] is a state transformer over [Hypergraph];
      a raised exception keeps the mutations done before it, as in Python.
    - [str(uuid4())] is not computable: every operation that draws fresh
      identifiers receives them as an argument.
    - A recursive method receives the remaining interpreter recursion depth;
      exhausting it raises [RecursionError].
    - Every identifier owns its own [Node] object (no object is registered
      under two identifiers). *)

From Stdlib Require Import List String Ascii ZArith Arith Lia Bool Permutation Sorted.
Import ListNotations.
Local Open Scope string_scope.
Local Open Scope list_scope.

(** ** Python primitives *)

Inductive exn : Type :=
| KeyError
| IndexError
| TypeError
| RecursionError.

Inductive result (A : Type) : Type :=
| Ok (a : A)
| Raise (e : exn).

Arguments Ok {A} a.
Arguments Raise {A} e.

Definition node_id : Type := string.
Definition path : Type := list node_id.

Definition path_eqb (p q : path) : bool :=
  if list_eq_dec string_dec p q then true else false.

Definition mem (x : node_id) (l : path) : bool :=
  existsb (String.eqb x) l.

Definition mem_path (p : path) (l : list path) : bool :=
  existsb (path_eqb p) l.

(** [l.remove(x)] on a list that contains [x]: drops the first value-equal
    element (and is the identity when there is none). *)
Fixpoint remove_first (e : path) (l : list path) : list path :=
  match l with
  | [] => []
  | x :: r => if path_eqb e x then r else x :: remove_first e r
  end.

(** [l[-1]] *)
Fixpoint last_error {A : Type} (l : list A) : option A :=
  match l with
  | [] => None
  | [x] => Some x
  | _ :: r => last_error r
  end.

Module Dict.

Section WithValue.
Context {V : Type}.

Definition t : Type := list (node_id * V).

Fixpoint get (k : node_id) (d : t) : option V :=
  match d with
  | [] => None
  | (k', v) :: r => if String.eqb k k' then Some v else get k r
  end.

Definition member (k : node_id) (d : t) : bool :=
  match get k d with Some _ => true | None => false end.

Definition keys (d : t) : list node_id := map fst d.

(** [d[k] = v]: an existing key keeps its position, a new key goes last. *)
Fixpoint set (k : node_id) (v : V) (d : t) : t :=
  match d with
  | [] => [(k, v)]
  | (k', v') :: r =>
      if String.eqb k k' then (k', v) :: r else (k', v') :: set k v r
  end.

(** In-place update of the value stored under [k]. *)
Definition adjust (k : node_id) (f : V -> V) (d : t) : t :=
  map (fun kv => if String.eqb k (fst kv) then (fst kv, f (snd kv)) else kv) d.

(** [del d[k]] *)
Definition remove (k : node_id) (d : t) : t :=
  filter (fun kv => negb (String.eqb k (fst kv))) d.

End WithValue.

Arguments t V : clear implicits.

End Dict.

(** ** Data model *)

(** [Node]: the content is a [str] in the specialization that inspects it
    (the base class only stores it); the metadata mapping is opaque to every
    operation and kept as a list of items; [ancestry] is the list of ancestry
    entries, each a list of identifiers, nearest ancestor first. *)
Definition metadata_t : Type := list (string * string).

Record Node : Type := mkNode {
  content : string;
  metadata : metadata_t;
  ancestry : list path
}.

(** [DirectedHypergraph]: [self.nodes] and [self.edges]. *)
Record Hypergraph : Type := mkGraph {
  nodes : Dict.t Node;
  edges : list path
}.

Definition empty_graph : Hypergraph := mkGraph [] [].

(** [Node(content=c)] *)
Definition new_node (c : string) : Node := mkNode c [] [].

Definition with_ancestry (nd : Node) (a : list path) : Node :=
  mkNode (content nd) (metadata nd) a.

Definition push_ancestry (p : path) (nd : Node) : Node :=
  with_ancestry nd (ancestry nd ++ [p]).

Definition set_nodes (g : Hypergraph) (d : Dict.t Node) : Hypergraph :=
  mkGraph d (edges g).

Definition set_edges (g : Hypergraph) (es : list path) : Hypergraph :=
  mkGraph (nodes g) es.

(** ** Methods as state transformers *)

Definition M (A : Type) : Type := Hypergraph -> result A * Hypergraph.

Definition ret {A : Type} (a : A) : M A := fun g => (Ok a, g).

Definition raise {A : Type} (e : exn) : M A := fun g => (Raise e, g).

Definition bind {A B : Type} (m : M A) (f : A -> M B) : M B :=
  fun g =>
    match m g with
    | (Ok a, g') => f a g'
    | (Raise e, g') => (Raise e, g')
    end.

Notation "x <- m ;; k" := (bind m (fun x => k))
  (at level 61, m at next level, right associativity).
Notation "m ;;; k" := (bind m (fun _ => k))
  (at level 61, right associativity).

Definition read {A : Type} (f : Hypergraph -> A) : M A := fun g => (Ok (f g), g).

Definition lift {A : Type} (f : Hypergraph -> result A) : M A := fun g => (f g, g).

Definition modify (f : Hypergraph -> Hypergraph) : M unit := fun g => (Ok tt, f g).

(** [for x in l: body(x)] over a list that the body does not mutate. *)
Fixpoint for_each {A : Type} (l : list A) (body : A -> M unit) : M unit :=
  match l with
  | [] => ret tt
  | x :: r => body x ;;; for_each r body
  end.

(** [self.nodes[n]] *)
Definition lookup (n : node_id) : M Node :=
  fun g =>
    match Dict.get n (nodes g) with
    | Some nd => (Ok nd, g)
    | None => (Raise KeyError, g)
    end.

(** ** DirectedHypergraph *)

(** [add_node], with the drawn identifier [nid]. *)
Definition add_node (nid : node_id) (node : Node) : M node_id :=
  modify (fun g => set_nodes g (Dict.set nid node (nodes g))) ;;; ret nid.

(** [self.nodes[n].ancestry.append(p)] *)
Definition append_ancestry (n : node_id) (p : path) : M unit :=
  lookup n ;;;
  modify (fun g => set_nodes g (Dict.adjust n (push_ancestry p) (nodes g))).

(** [edge[i]] for a non-negative [i] *)
Definition index (edge : path) (i : nat) : M node_id :=
  match nth_error edge i with
  | Some n => ret n
  | None => raise IndexError
  end.

Definition add_edge (edge : path) : M unit :=
  modify (fun g => set_edges g (edges g ++ [edge])) ;;;
  for_each (seq 1 (List.length edge - 1 - 1))
    (fun i => n <- index edge i ;; append_ancestry n (rev (firstn i edge))) ;;;
  match last_error edge with
  | Some n => append_ancestry n (rev (removelast edge))
  | None => raise IndexError
  end.

Fixpoint add_edges (es : list path) : M unit :=
  match es with
  | [] => ret tt
  | e :: r => add_edge e ;;; add_edges r
  end.

Definition run {A : Type} (m : M A) (g : Hypergraph) : Hypergraph := snd (m g).

(** The ancestry cache of a stored node. *)
Definition ancestry_of (g : Hypergraph) (n : node_id) : option (list path) :=
  option_map ancestry (Dict.get n (nodes g)).

(** [self.nodes[n].ancestry = []] *)
Definition clear_ancestry (nd : Node) : Node := with_ancestry nd [].

(** [if n in self.nodes: self.nodes[n].ancestry = []] *)
Definition clear_if_stored (n : node_id) : M unit :=
  modify (fun g =>
            if Dict.member n (nodes g)
            then set_nodes g (Dict.adjust n clear_ancestry (nodes g))
            else g).

(** [remove_edge] never raises: a missing edge and missing nodes are skipped. *)
Definition remove_edge (edge : path) : M unit :=
  modify (fun g =>
            if mem_path edge (edges g)
            then set_edges g (remove_first edge (edges g))
            else g) ;;;
  for_each (tl edge) clear_if_stored.

Definition remove_node (n : node_id) : M unit :=
  fun g =>
    if Dict.member n (nodes g)
    then (modify (fun g => set_nodes g (Dict.remove n (nodes g))) ;;;
          edges_to_remove <- read (fun g => filter (mem n) (edges g)) ;;
          for_each edges_to_remove remove_edge) g
    else (Ok tt, g).

(** [get_roots]: the identifiers with an empty cache, in dict order. *)
Definition is_root (nd : Node) : bool :=
  match ancestry nd with [] => true | _ => false end.

Definition get_roots (g : Hypergraph) : list node_id :=
  map fst (filter (fun kv => is_root (snd kv)) (nodes g)).

(** [get_children]: [edge[0]] and [edge[1]] raise on too short an edge. *)
Fixpoint children_in (es : list path) (n : node_id) : result (list node_id) :=
  match es with
  | [] => Ok []
  | [] :: _ => Raise IndexError
  | (h :: t) :: r =>
      if String.eqb h n
      then match t with
           | [] => Raise IndexError
           | c :: _ =>
               match children_in r n with
               | Ok cs => Ok (c :: cs)
               | Raise e => Raise e
               end
           end
      else children_in r n
  end.

Definition get_children (g : Hypergraph) (n : node_id) : result (list node_id) :=
  children_in (edges g) n.

(** [get_nodes] / [get_node_contents] *)
Fixpoint get_node_contents (g : Hypergraph) (ids : path) : result (list string) :=
  match ids with
  | [] => Ok []
  | n :: r =>
      match Dict.get n (nodes g) with
      | None => Raise KeyError
      | Some nd =>
          match get_node_contents g r with
          | Ok cs => Ok (content nd :: cs)
          | Raise e => Raise e
          end
      end
  end.

(** [_check_for_cycles]: [visited] is one list object shared by the whole walk
    from a root; it is threaded through the calls and never shrinks. *)
Fixpoint _check_for_cycles (depth : nat) (g : Hypergraph) (n : node_id)
  (visited : path) : result bool * path :=
  match depth with
  | 0 => (Raise RecursionError, visited)
  | S d =>
      if mem n visited then (Ok true, visited)
      else
        let visited := visited ++ [n] in
        match get_children g n with
        | Raise e => (Raise e, visited)
        | Ok cs =>
            (fix each (cs : list node_id) (visited : path) : result bool * path :=
               match cs with
               | [] => (Ok false, visited)
               | c :: r =>
                   match _check_for_cycles d g c visited with
                   | (Ok false, visited') => each r visited'
                   | other => other
                   end
               end) cs visited
        end
  end.

Fixpoint check_roots (depth : nat) (g : Hypergraph) (roots : list node_id)
  : result bool :=
  match roots with
  | [] => Ok (Nat.eqb (List.length (get_roots g)) 0)
  | r :: rest =>
      match fst (_check_for_cycles depth g r []) with
      | Ok true => Ok true
      | Ok false => check_roots depth g rest
      | Raise e => Raise e
      end
  end.

Definition check_for_cycles (depth : nat) (g : Hypergraph) : result bool :=
  check_roots depth g (get_roots g).

(** The walk the documentation describes: a node is flagged only when it is
    met again on the current path from the root, so [on_path] is passed down
    and not shared between siblings. *)
Fixpoint revisits_on_path (depth : nat) (g : Hypergraph) (n : node_id)
  (on_path : path) : result bool :=
  match depth with
  | 0 => Raise RecursionError
  | S d =>
      if mem n on_path then Ok true
      else
        match get_children g n with
        | Raise e => Raise e
        | Ok cs =>
            (fix each (cs : list node_id) : result bool :=
               match cs with
               | [] => Ok false
               | c :: r =>
                   match revisits_on_path d g c (on_path ++ [n]) with
                   | Ok false => each r
                   | other => other
                   end
               end) cs
        end
  end.

Fixpoint path_check_roots (depth : nat) (g : Hypergraph) (roots : list node_id)
  : result bool :=
  match roots with
  | [] => Ok (Nat.eqb (List.length (get_roots g)) 0)
  | r :: rest =>
      match revisits_on_path depth g r [] with
      | Ok true => Ok true
      | Ok false => path_check_roots depth g rest
      | Raise e => Raise e
      end
  end.

Definition check_for_cycles_on_path (depth : nat) (g : Hypergraph) : result bool :=
  path_check_roots depth g (get_roots g).

(** [_get_ancestries] *)
Definition result_map {A B : Type} (f : A -> B) (r : result A) : result B :=
  match r with
  | Ok a => Ok (f a)
  | Raise e => Raise e
  end.

Fixpoint flat_map_result {A B : Type} (f : A -> result (list B)) (l : list A)
  : result (list B) :=
  match l with
  | [] => Ok []
  | x :: r =>
      match f x with
      | Raise e => Raise e
      | Ok ys =>
          match flat_map_result f r with
          | Raise e => Raise e
          | Ok zs => Ok (ys ++ zs)
          end
      end
  end.

Fixpoint _get_ancestries (depth : nat) (g : Hypergraph) (n : node_id)
  : result (list path) :=
  match depth with
  | 0 => Raise RecursionError
  | S d =>
      match Dict.get n (nodes g) with
      | None => Raise KeyError
      | Some nd =>
          match ancestry nd with
          | [] => Ok [[]]
          | entries =>
              flat_map_result
                (fun p =>
                   match last_error p with
                   | None => Raise IndexError
                   | Some a =>
                       result_map (map (fun q => p ++ q)) (_get_ancestries d g a)
                   end) entries
          end
      end
  end.

Definition get_ancestry (depth : nat) (g : Hypergraph) (n : node_id)
  : result (list path) :=
  if mem n (get_roots g) then Ok [[n]]
  else result_map (map (cons n)) (_get_ancestries depth g n).

(** ** common_ancestor *)

(** The iteration order of [list(set(a) & set(b))] is not fixed by Python:
    any enumeration without repetition of the common elements may come out. *)
Record SetOrder : Type := mkSetOrder {
  inter_list : path -> path -> path;
  inter_list_perm :
    forall a b,
      Permutation (inter_list a b) (nodup string_dec (filter (fun x => mem x b) a))
}.

Definition first_seen : SetOrder :=
  mkSetOrder (fun a b => nodup string_dec (filter (fun x => mem x b) a))
             (fun a b => Permutation_refl _).

(** The two nested loops: [most_common_ancestors] starts as [None]. *)
Definition narrow (ord : SetOrder) (most : option path) (lineage : path)
  : option path :=
  match most with
  | None => Some lineage
  | Some m => Some (inter_list ord m lineage)
  end.

Fixpoint narrow_all (ord : SetOrder) (depth : nat) (g : Hypergraph)
  (ids : path) (most : option path) : result (option path) :=
  match ids with
  | [] => Ok most
  | n :: r =>
      match get_ancestry depth g n with
      | Raise e => Raise e
      | Ok lineages => narrow_all ord depth g r (fold_left (narrow ord) lineages most)
      end
  end.

(** [sorted(l, key=...)]: the keys are computed first, then a stable sort. *)
Fixpoint ancestry_keys (g : Hypergraph) (l : path) : result (list (nat * node_id)) :=
  match l with
  | [] => Ok []
  | x :: r =>
      match Dict.get x (nodes g) with
      | None => Raise KeyError
      | Some nd =>
          match ancestry_keys g r with
          | Ok ks => Ok ((List.length (ancestry nd), x) :: ks)
          | Raise e => Raise e
          end
      end
  end.

Fixpoint insert_sorted (x : nat * node_id) (l : list (nat * node_id))
  : list (nat * node_id) :=
  match l with
  | [] => [x]
  | y :: r => if Nat.leb (fst x) (fst y) then x :: y :: r else y :: insert_sorted x r
  end.

Definition stable_sort (l : list (nat * node_id)) : list (nat * node_id) :=
  fold_right insert_sorted [] l.

Definition common_ancestor (ord : SetOrder) (depth : nat) (g : Hypergraph)
  (ids : path) : result (option node_id) :=
  match narrow_all ord depth g ids None with
  | Raise e => Raise e
  | Ok None => Raise TypeError
  | Ok (Some most) =>
      match ancestry_keys g most with
      | Raise e => Raise e
      | Ok keyed =>
          match map snd (stable_sort keyed) with
          | [] => Ok None
          | sorted =>
              match last_error (filter (fun x => negb (mem x ids)) sorted) with
              | Some x => Ok (Some x)
              | None => Raise IndexError
              end
          end
      end
  end.

(** ** StringDirectedHypergraph *)

(** [s.endswith(suffix)] *)
Fixpoint ends_with (s suffix : string) : bool :=
  String.eqb s suffix ||
  match s with
  | EmptyString => false
  | String _ r => ends_with r suffix
  end.

(** [sub in s] *)
Fixpoint contains (s sub : string) : bool :=
  String.prefix sub s ||
  match s with
  | EmptyString => false
  | String _ r => contains r sub
  end.

(** [''.join(l)] *)
Definition join (l : list string) : string := String.concat EmptyString l.

Fixpoint first_matching (g : Hypergraph) (target : string) (lineages : list path)
  : result (option path) :=
  match lineages with
  | [] => Ok None
  | l :: r =>
      match get_node_contents g (rev l) with
      | Raise e => Raise e
      | Ok cs =>
          if contains target (join cs) then Ok (Some (rev l))
          else first_matching g target r
      end
  end.

Fixpoint content_lineage_in (depth : nat) (g : Hypergraph) (target : string)
  (items : Dict.t Node) : result path :=
  match items with
  | [] => Ok []
  | (n, nd) :: r =>
      if ends_with target (content nd)
      then match get_ancestry depth g n with
           | Raise e => Raise e
           | Ok lineages =>
               match first_matching g target lineages with
               | Raise e => Raise e
               | Ok (Some l) => Ok l
               | Ok None => content_lineage_in depth g target r
               end
           end
      else content_lineage_in depth g target r
  end.

Definition content_lineage (depth : nat) (g : Hypergraph) (target : string)
  : result path :=
  content_lineage_in depth g target (nodes g).

(** [merge], with the identifier [new_id] drawn for the merged node. *)
Definition merge (new_id : node_id) (ids : path) : M node_id :=
  cs <- lift (fun g => get_node_contents g ids) ;;
  add_node new_id (new_node (join cs)) ;;;
  for_each ids remove_node ;;;
  ret new_id.

(** [s[a:b]] and [s[a:]] on Python integers: a negative bound counts from the
    end, and both are clamped to [0..len(s)]. *)
Definition clamp_index (len : nat) (i : Z) : nat :=
  if (i <? 0)%Z then Z.to_nat (Z.max 0 (i + Z.of_nat len))
  else Nat.min (Z.to_nat i) len.

Definition slice (s : string) (a b : Z) : string :=
  let lo := clamp_index (String.length s) a in
  let hi := clamp_index (String.length s) b in
  substring lo (hi - lo) s.

Definition slice_from (s : string) (a : Z) : string :=
  let lo := clamp_index (String.length s) a in
  substring lo (String.length s - lo) s.

(** [boundary.sort()] *)
Fixpoint insert_Z (x : Z) (l : list Z) : list Z :=
  match l with
  | [] => [x]
  | y :: r => if (x <=? y)%Z then x :: y :: r else y :: insert_Z x r
  end.

Definition sort_Z (l : list Z) : list Z := fold_right insert_Z [] l.

Inductive boundary_t : Type :=
| Offset (b : Z)
| Offsets (bs : list Z).

Definition offsets (b : boundary_t) : list Z :=
  match b with
  | Offset z => sort_Z [z]
  | Offsets l => sort_Z l
  end.

(** The contents of the pieces, in order. *)
Fixpoint pieces (s : string) (start : Z) (bs : list Z) : list string :=
  match bs with
  | [] => [slice_from s start]
  | b :: r => slice s start b :: pieces s b r
  end.

(** The first loop of [split] creates one node per piece; the [k]-th drawn
    identifier is [uuid k]. *)
Fixpoint add_pieces (uuid : nat -> node_id) (k : nat) (cs : list string)
  : M (list node_id) :=
  match cs with
  | [] => ret []
  | c :: r =>
      n <- add_node (uuid k) (new_node c) ;;
      rest <- add_pieces uuid (S k) r ;;
      ret (n :: rest)
  end.

(** [for ancestry in ancestries] walks the live cache of the node by position:
    an entry that [add_edge] appends to it meanwhile is visited too.  Such an
    entry is shorter than the entry being visited, so the walk ends by itself:
    with [budget] at least the sum of [2 ^ len(entry)] over the entries still
    to visit, the bound is never what stops it ([relink_budget_suffices]). *)
Fixpoint relink_parents (budget i : nat) (n first : node_id) : M unit :=
  match budget with
  | 0 => ret tt
  | S b =>
      nd <- lookup n ;;
      match nth_error (ancestry nd) i with
      | None => ret tt
      | Some p => add_edge (rev p ++ [first]) ;;; relink_parents b (S i) n first
      end
  end.

Definition relink_budget (entries : list path) : nat :=
  list_sum (map (fun p => Nat.pow 2 (List.length p)) entries).

Fixpoint link_pieces (l : list node_id) : M unit :=
  match l with
  | a :: (b :: _) as r => add_edge [a; b] ;;; link_pieces r
  | _ => ret tt
  end.

Definition split (uuid : nat -> node_id) (n : node_id) (boundary : boundary_t)
  : M (list node_id) :=
  nd <- lookup n ;;
  split_nodes <- add_pieces uuid 0 (pieces (content nd) 0%Z (offsets boundary)) ;;
  match hd_error split_nodes, last_error split_nodes with
  | Some first, Some last_piece =>
      relink_parents (relink_budget (ancestry nd)) 0 n first ;;;
      link_pieces split_nodes ;;;
      children <- lift (fun g => get_children g n) ;;
      for_each children (fun c => add_edge [last_piece; c]) ;;;
      remove_node n ;;;
      ret split_nodes
  | _, _ => raise IndexError
  end.

(** [to_dict] / [from_dict]: the inner mapping has the three fixed keys
    ['content'], ['metadata'] and ['ancestry']. *)
Record NodeDict : Type := mkNodeDict {
  d_content : string;
  d_metadata : metadata_t;
  d_ancestry : list path
}.

Record StateDict : Type := mkStateDict {
  d_nodes : Dict.t NodeDict;
  d_edges : list path
}.

Definition to_dict (g : Hypergraph) : StateDict :=
  mkStateDict
    (fold_left
       (fun acc kv =>
          Dict.set (fst kv)
            (mkNodeDict (content (snd kv)) (metadata (snd kv)) (ancestry (snd kv)))
            acc)
       (nodes g) [])
    (edges g).

Definition from_dict (state : StateDict) : M unit :=
  modify (fun g => set_nodes g []) ;;;
  modify (fun g => set_edges g (d_edges state)) ;;;
  for_each (d_nodes state)
    (fun kv =>
       modify (fun g =>
                 set_nodes g
                   (Dict.set (fst kv)
                      (mkNode (d_content (snd kv)) (d_metadata (snd kv))
                              (d_ancestry (snd kv)))
                      (nodes g)))).

(** [refactor]: the counter of drawn identifiers is threaded through. *)
Fixpoint merge_equal_children (uuid : nat -> node_id) (k : nat) (n : node_id)
  (node : Node) (children : list node_id) : M nat :=
  match children with
  | [] => ret k
  | c :: r =>
      cnd <- lookup c ;;
      if String.eqb (content cnd) (content node)
      then merge (uuid k) [n; c] ;;; merge_equal_children uuid (S k) n node r
      else merge_equal_children uuid k n node r
  end.

Fixpoint _refactor (depth : nat) (uuid : nat -> node_id) (k : nat) (n : node_id)
  : M nat :=
  match depth with
  | 0 => raise RecursionError
  | S d =>
      node <- lookup n ;;
      children <- lift (fun g => get_children g n) ;;
      k1 <- merge_equal_children uuid k n node children ;;
      k2 <- match children with
            | [c] => merge (uuid k1) [n; c] ;;; ret (S k1)
            | _ => ret k1
            end ;;
      now_children <- lift (fun g => get_children g n) ;;
      (fix each (cs : list node_id) (k : nat) : M nat :=
         match cs with
         | [] => ret k
         | c :: r => k' <- _refactor d uuid k c ;; each r k'
         end) now_children k2
  end.

Fixpoint refactor_roots (depth : nat) (uuid : nat -> node_id) (k : nat)
  (roots : list node_id) : M nat :=
  match roots with
  | [] => ret k
  | r :: rest => k' <- _refactor depth uuid k r ;; refactor_roots depth uuid k' rest
  end.

Definition refactor (depth : nat) (uuid : nat -> node_id) : M unit :=
  roots <- read get_roots ;;
  refactor_roots depth uuid 0 roots ;;;
  ret tt.

(** ** The graphs of the test-suite *)

Definition with_nodes (l : list (node_id * string)) : Hypergraph :=
  mkGraph (map (fun kc => (fst kc, new_node (snd kc))) l) [].

Definition ten_nodes : Hypergraph :=
  with_nodes [("1", "A"); ("2", "B"); ("3", "C"); ("4", "D"); ("5", "E");
              ("6", "F"); ("7", "G"); ("8", "H"); ("9", "I"); ("10", "J")].

Definition ten_edges : list path :=
  [["1"; "2"; "3"]; ["2"; "4"; "5"]; ["3"; "6"; "7"]; ["4"; "8"; "9"];
   ["5"; "10"]; ["4"; "10"]].

Definition ten_graph : Hypergraph := run (add_edges ten_edges) ten_nodes.

(** The diamond A -> {B, C} -> D. *)
Definition diamond_nodes : Hypergraph :=
  with_nodes [("A", "a"); ("B", "b"); ("C", "c"); ("D", "d")].

Definition diamond_edges : list path :=
  [["A"; "B"]; ["A"; "C"]; ["B"; "D"]; ["C"; "D"]].

Definition diamond : Hypergraph := run (add_edges diamond_edges) diamond_nodes.

(** The cycle A -> B -> C -> A. *)
Definition cycle3 : Hypergraph :=
  run (add_edges [["A"; "B"]; ["B"; "C"]; ["C"; "A"]])
      (with_nodes [("A", "a"); ("B", "b"); ("C", "c")]).

(** A single node linked to itself by [add_edge([a, a])]. *)
Definition self_loop : Hypergraph :=
  run (add_edge ["a"; "a"]) (with_nodes [("a", "ab")]).

(** What [remove_edge e] does to one item of the node mapping. *)
Definition clear_item (e : path) (kv : node_id * Node) : node_id * Node :=
  if mem (fst kv) (tl e) then (fst kv, clear_ancestry (snd kv)) else kv.

(** ** add_edge *)

(** The entries [add_edge e] appends to the cache of [n]: one per position
    [i >= 1] with [e[i] = n], in increasing order of [i]. *)
Definition entries_at (e : path) (n : node_id) (ixs : list nat) : list path :=
  flat_map (fun i =>
              match nth_error e i with
              | Some m => if String.eqb m n then [rev (firstn i e)] else []
              | None => []
              end) ixs.

Definition entries_for (e : path) (n : node_id) : list path :=
  entries_at e n (seq 1 (List.length e - 1)).

Definition extend_node (e : path) (ixs : list nat) (kv : node_id * Node)
  : node_id * Node :=
  (fst kv, with_ancestry (snd kv) (ancestry (snd kv) ++ entries_at e (fst kv) ixs)).

(** ** Identifier streams and graphs used as inputs *)

Fixpoint primes (k : nat) : string :=
  match k with
  | 0 => EmptyString
  | S k' => String "'"%char (primes k')
  end.

(** A stream of distinct identifiers ["u"], ["u'"], ["u''"], ... *)
Definition test_uuid (k : nat) : node_id := String "u"%char (primes k).

(** Parent and only child with equal contents. *)
Definition equal_pair : Hypergraph :=
  run (add_edge ["r"; "c"]) (with_nodes [("r", "a"); ("c", "a")]).

(** A root with two children, the first of which has one child. *)
Definition fork_chain : Hypergraph :=
  run (add_edges [["r"; "c1"]; ["r"; "c2"]; ["c1"; "d"]])
      (with_nodes [("r", "a"); ("c1", "b"); ("c2", "c"); ("d", "e")]).

(** ** Lineages *)

(** The full lineages recorded by the caches: a full lineage of a root is the
    root alone; a full lineage of another node is the node, then one of its
    ancestry entries [p], then what follows the last element [a] of [p] in a
    full lineage of [a]. *)
Inductive lineage (g : Hypergraph) : node_id -> path -> Prop :=
| lineage_root n nd :
    Dict.get n (nodes g) = Some nd -> ancestry nd = [] ->
    lineage g n [n]
| lineage_step n nd p a q :
    Dict.get n (nodes g) = Some nd -> In p (ancestry nd) ->
    last_error p = Some a -> lineage g a (a :: q) ->
    lineage g n (n :: p ++ q).

(** The ancestry caches are acyclic: every entry is non-empty and ends in a
    stored node of smaller rank. *)
Definition ancestry_acyclic (g : Hypergraph) (rank : node_id -> nat) : Prop :=
  forall n nd p,
    Dict.get n (nodes g) = Some nd -> In p (ancestry nd) ->
    exists a,
      last_error p = Some a /\ Dict.member a (nodes g) = true /\ rank a < rank n.

(** Every identifier mentioned by an ancestry entry is stored. *)
Definition ancestry_closed (g : Hypergraph) : Prop :=
  forall n nd p x,
    Dict.get n (nodes g) = Some nd -> In p (ancestry nd) -> In x p ->
    Dict.member x (nodes g) = true.

(** [len(self.nodes[x].ancestry)], the sort key of [common_ancestor]. *)
Definition ancestry_count (g : Hypergraph) (x : node_id) : nat :=
  match Dict.get x (nodes g) with
  | Some nd => List.length (ancestry nd)
  | None => 0
  end.

(** The value [_get_ancestries] returns at [n] when the recursion depth
    suffices, and the value of [get_ancestry] built from it. *)
Definition ancestries_at (rank : node_id -> nat) (g : Hypergraph) (n : node_id)
  : list path :=
  match _get_ancestries (S (rank n)) g n with
  | Ok r => r
  | Raise _ => []
  end.

Definition lineages_at (rank : node_id -> nat) (g : Hypergraph) (n : node_id)
  : list path :=
  map (cons n) (ancestries_at rank g n).

(** The contribution of one ancestry entry to [_get_ancestries]. *)
Definition through_entry (rank : node_id -> nat) (g : Hypergraph) (p : path)
  : list path :=
  match last_error p with
  | Some a => map (fun q => p ++ q) (ancestries_at rank g a)
  | None => []
  end.

(** [x] lies on every lineage of every queried node. *)
Definition on_every_lineage (lss : list (list path)) (x : node_id) : Prop :=
  forall l, In l (List.concat lss) -> In x l.

(** The order [sorted] establishes on the keyed identifiers. *)
Definition key_le (a b : nat * node_id) : Prop := fst a <= fst b.

(** ** Content lineage *)

(** [s] is a trailing part of [t]. *)
Definition suffix_of (s t : string) : Prop := exists a, t = (a ++ s)%string.

(** [s] is a contiguous run inside [t]. *)
Definition substring_of (s t : string) : Prop :=
  exists a b, t = (a ++ s ++ b)%string.

(** The contents along [l], read from its last element to its first, form a
    contiguous run inside [target]. *)
Definition lineage_matches (g : Hypergraph) (target : string) (l : path) : Prop :=
  exists cs, get_node_contents g (rev l) = Ok cs /\ substring_of (join cs) target.

(** The six-node graph of the test-suite. *)
Definition six_graph : Hypergraph :=
  run (add_edges [["1"; "2"; "4"]; ["1"; "3"; "4"]; ["2"; "4"; "5"]; ["3"; "4"; "6"]])
      (with_nodes [("1", "The quick "); ("2", "brown fox jumps ");
                   ("3", "red car drives "); ("4", "over the ");
                   ("5", "lazy dog."); ("6", "speedbump.")]).

(** ** Split *)

(** What no edge operation changes: the keys in order, with the content and
    the metadata stored under each. *)
Definition skeleton (g : Hypergraph) : Dict.t (string * metadata_t) :=
  map (fun kv => (fst kv, (content (snd kv), metadata (snd kv)))) (nodes g).

(** The hyperedges linking consecutive pieces. *)
Fixpoint consecutive (l : list node_id) : list path :=
  match l with
  | a :: (b :: _) as r => [a; b] :: consecutive r
  | _ => []
  end.

(** What removing the edges [es] does to one item of the node mapping. *)
Definition clear_items (es : list path) (kv : node_id * Node) : node_id * Node :=
  if existsb (fun e => mem (fst kv) (tl e)) es
  then (fst kv, clear_ancestry (snd kv))
  else kv.

(** The contents and the identifiers of the pieces [split] creates. *)
Definition piece_contents (nd : Node) (boundary : boundary_t) : list string :=
  pieces (content nd) 0%Z (offsets boundary).

Definition piece_ids (uuid : nat -> node_id) (nd : Node) (boundary : boundary_t)
  : list node_id :=
  map uuid (seq 0 (List.length (piece_contents nd boundary))).

(** The hyperedges [split] adds: one per ancestry entry of the split node,
    one per pair of consecutive pieces, one per child. *)
Definition split_edges (nd : Node) (ids children : list node_id)
  (first last_piece : node_id) : list path :=
  map (fun p => rev p ++ [first]) (ancestry nd) ++
  consecutive ids ++
  map (fun c => [last_piece; c]) children.

(** A node holding ["Hello World!"], and the same node between a parent and
    a child. *)
Definition hello : Hypergraph := with_nodes [("h", "Hello World!")].

Definition chain3 : Hypergraph :=
  run (add_edges [["p"; "x"]; ["x"; "c"]])
      (with_nodes [("p", "P"); ("x", "Hello World!"); ("c", "C")]).

(** ** The remaining queries of DirectedHypergraph *)

(** [Node.__eq__]: contents and ancestries are compared, the metadata is not. *)
Definition node_eqb (a b : Node) : bool :=
  String.eqb (content a) (content b) &&
  (if list_eq_dec (list_eq_dec string_dec) (ancestry a) (ancestry b)
   then true else false).

(** [get_node_id]: the first key, in dict order, whose node equals [node];
    [None] when there is none. *)
Fixpoint first_equal (items : Dict.t Node) (node : Node) : option node_id :=
  match items with
  | [] => None
  | (k, existing) :: r =>
      if node_eqb existing node then Some k else first_equal r node
  end.

Definition get_node_id (g : Hypergraph) (node : Node) : option node_id :=
  first_equal (nodes g) node.

(** [get_nodes] *)
Fixpoint get_nodes (g : Hypergraph) (ids : path) : result (list Node) :=
  match ids with
  | [] => Ok []
  | n :: r =>
      match Dict.get n (nodes g) with
      | None => Raise KeyError
      | Some nd =>
          match get_nodes g r with
          | Ok nds => Ok (nd :: nds)
          | Raise e => Raise e
          end
      end
  end.

(** The identifier is stored. *)
Definition stored (g : Hypergraph) (n : node_id) : Prop :=
  Dict.member n (nodes g) = true.

(** Every stored edge is non-empty, and has a second element when [n] is its
    first: what [get_children n] needs to return. *)
Definition children_defined (g : Hypergraph) (n : node_id) : Prop :=
  Forall (fun e => match e with
                   | [] => False
                   | h :: t => h = n -> t <> []
                   end) (edges g).

(** The child an edge contributes to [get_children n]: its second
    identifier when its first is [n]. *)
Definition second_of (n : node_id) (e : path) : list node_id :=
  match e with
  | h :: c :: _ => if String.eqb h n then [c] else []
  | _ => []
  end.

(** [node] differs from [existing] in content or in ancestry. *)
Definition differs (node existing : Node) : Prop :=
  content existing <> content node \/ ancestry existing <> ancestry node.

(** The edge [e] mentions one of [ids]. *)
Definition touches (ids : path) (e : path) : bool :=
  existsb (fun n => mem n e) ids.

(** Removing the nodes [ids] is well defined on [g] whatever their order:
    each is stored, or no edge mentions it. *)
Definition removable (g : Hypergraph) (ids : path) : Prop :=
  Forall (fun n => Dict.member n (nodes g) = true \/
                   Forall (fun e => mem n e = false) (edges g)) ids.




(** * Properties *)

(** ** Association lists *)

Lemma get_adjust {V : Type} (k n : node_id) (f : V -> V) (d : Dict.t V) :
  Dict.get k (Dict.adjust n f d) =
  if String.eqb n k then option_map f (Dict.get k d) else Dict.get k d.
Proof.
  induction d as [|[k' v] d IH]; simpl.
  - now destruct (String.eqb n k).
  - destruct (String.eqb n k') eqn:Hn; simpl.
    + apply String.eqb_eq in Hn; subst k'.
      destruct (String.eqb k n) eqn:Hk.
      * apply String.eqb_eq in Hk; subst k. now rewrite String.eqb_refl.
      * rewrite IH. reflexivity.
    + destruct (String.eqb k k') eqn:Hk.
      * apply String.eqb_eq in Hk; subst k'. now rewrite Hn.
      * apply IH.
Qed.

Lemma member_adjust {V : Type} (k n : node_id) (f : V -> V) (d : Dict.t V) :
  Dict.member k (Dict.adjust n f d) = Dict.member k d.
Proof.
  unfold Dict.member. rewrite get_adjust.
  destruct (String.eqb n k); [|reflexivity].
  now destruct (Dict.get k d).
Qed.

Lemma keys_adjust {V : Type} (n : node_id) (f : V -> V) (d : Dict.t V) :
  Dict.keys (Dict.adjust n f d) = Dict.keys d.
Proof.
  unfold Dict.keys, Dict.adjust. rewrite map_map. apply map_ext.
  intros [k v]; simpl. now destruct (String.eqb n k).
Qed.

Lemma get_In {V : Type} (k : node_id) (v : V) (d : Dict.t V) :
  Dict.get k d = Some v -> In (k, v) d.
Proof.
  induction d as [|[k' v'] d IH]; simpl; [discriminate|].
  destruct (String.eqb k k') eqn:Hk.
  - apply String.eqb_eq in Hk; subst. intros [= ->]. now left.
  - intros H. right. now apply IH.
Qed.

Lemma member_In_keys {V : Type} (k : node_id) (d : Dict.t V) :
  Dict.member k d = true <-> In k (Dict.keys d).
Proof.
  unfold Dict.member. induction d as [|[k' v'] d IH]; simpl.
  - split; [discriminate|tauto].
  - destruct (String.eqb k k') eqn:Hk.
    + apply String.eqb_eq in Hk; subst. split; auto.
    + apply String.eqb_neq in Hk. rewrite IH. split; [tauto|].
      intros [H|H]; [congruence|exact H].
Qed.

(** ** add_edge *)

Lemma last_error_nth {A : Type} (l : list A) :
  last_error l = nth_error l (List.length l - 1).
Proof.
  induction l as [|x [|y r] IH]; try reflexivity.
  change (last_error (x :: y :: r)) with (last_error (y :: r)).
  rewrite IH. simpl. now rewrite Nat.sub_0_r.
Qed.

Lemma removelast_firstn_pred {A : Type} (l : list A) :
  removelast l = firstn (List.length l - 1) l.
Proof.
  induction l as [|x [|y r] IH]; try reflexivity.
  change (removelast (x :: y :: r)) with (x :: removelast (y :: r)).
  rewrite IH. simpl. now rewrite Nat.sub_0_r.
Qed.

Lemma entries_at_app (e : path) (n : node_id) (l1 l2 : list nat) :
  entries_at e n (l1 ++ l2) = entries_at e n l1 ++ entries_at e n l2.
Proof. unfold entries_at. apply flat_map_app. Qed.

Lemma extend_node_nil (e : path) (d : Dict.t Node) :
  map (extend_node e []) d = d.
Proof.
  rewrite <- (map_id d) at 2. apply map_ext. intros [k [c m a]].
  unfold extend_node, with_ancestry; simpl. now rewrite app_nil_r.
Qed.

(** One [append_ancestry] in terms of [extend_node]. *)
Lemma adjust_push_extend (e : path) (i : nat) (n : node_id) (d : Dict.t Node) :
  nth_error e i = Some n ->
  Dict.adjust n (push_ancestry (rev (firstn i e))) d = map (extend_node e [i]) d.
Proof.
  intros Hn. unfold Dict.adjust. apply map_ext. intros [k nd]; simpl.
  unfold extend_node, entries_at; simpl. rewrite Hn, app_nil_r.
  destruct (String.eqb n k); simpl.
  - reflexivity.
  - destruct nd; unfold with_ancestry; simpl. now rewrite app_nil_r.
Qed.

Lemma extend_node_compose (e : path) (l1 l2 : list nat) (d : Dict.t Node) :
  map (extend_node e l2) (map (extend_node e l1) d) = map (extend_node e (l1 ++ l2)) d.
Proof.
  rewrite map_map. apply map_ext. intros [k nd].
  unfold extend_node, with_ancestry; simpl.
  now rewrite entries_at_app, app_assoc.
Qed.

Lemma member_extend (e : path) (l : list nat) (k : node_id) (d : Dict.t Node) :
  Dict.member k (map (extend_node e l) d) = Dict.member k d.
Proof.
  unfold Dict.member. induction d as [|[k' nd] d IH]; simpl; [reflexivity|].
  now destruct (String.eqb k k').
Qed.

Lemma append_ancestry_ok (e : path) (i : nat) (n : node_id) (g : Hypergraph) :
  nth_error e i = Some n ->
  Dict.member n (nodes g) = true ->
  append_ancestry n (rev (firstn i e)) g =
  (Ok tt, set_nodes g (map (extend_node e [i]) (nodes g))).
Proof.
  intros Hn Hm. unfold append_ancestry, bind, lookup, modify.
  unfold Dict.member in Hm. destruct (Dict.get n (nodes g)); [|discriminate].
  now rewrite (adjust_push_extend e i n).
Qed.

(** The loop of [add_edge] over a list of valid positions. *)
Lemma add_edge_loop (e : path) (ixs : list nat) (g : Hypergraph) :
  Forall (fun i => exists n, nth_error e i = Some n /\ Dict.member n (nodes g) = true) ixs ->
  for_each ixs
    (fun i => n <- index e i ;; append_ancestry n (rev (firstn i e))) g =
  (Ok tt, set_nodes g (map (extend_node e ixs) (nodes g))).
Proof.
  revert g. induction ixs as [|i ixs IH]; intros g Hall.
  - simpl. unfold ret, set_nodes. rewrite extend_node_nil. now destruct g.
  - inversion Hall as [|? ? (n & Hn & Hm) Hrest]; subst.
    cbn [for_each]. unfold bind at 1. unfold bind at 1. unfold index.
    rewrite Hn. unfold ret at 1.
    rewrite (append_ancestry_ok e i n g Hn Hm).
    rewrite IH.
    + unfold set_nodes; simpl. f_equal. f_equal.
      apply (extend_node_compose e [i] ixs).
    + simpl. eapply Forall_impl; [|exact Hrest].
      intros j (m & Hj & Hmem). exists m. split; [exact Hj|].
      now rewrite member_extend.
Qed.

Lemma add_edge_general (e : path) (g : Hypergraph) :
  2 <= List.length e ->
  Forall (fun n => Dict.member n (nodes g) = true) e ->
  add_edge e g =
  (Ok tt, mkGraph (map (extend_node e (seq 1 (List.length e - 1))) (nodes g))
                  (edges g ++ [e])).
Proof.
  intros Hlen Hall.
  assert (Hpos : forall i, i < List.length e ->
             exists n, nth_error e i = Some n /\ Dict.member n (nodes g) = true).
  { intros i Hi. destruct (nth_error e i) as [n|] eqn:Hn.
    - exists n. split; [reflexivity|].
      rewrite Forall_forall in Hall. apply Hall. eapply nth_error_In; eauto.
    - apply nth_error_None in Hn. lia. }
  unfold add_edge. unfold bind at 1. unfold modify at 1.
  unfold bind at 1.
  rewrite add_edge_loop.
  2:{ apply Forall_forall. intros i Hi. apply in_seq in Hi.
      simpl. apply Hpos. lia. }
  destruct (Hpos (List.length e - 1)) as (n & Hn & Hm); [lia|].
  rewrite last_error_nth, Hn, removelast_firstn_pred.
  rewrite (append_ancestry_ok e (List.length e - 1) n); [|exact Hn|].
  2:{ simpl. now rewrite member_extend. }
  unfold set_nodes, set_edges; simpl. f_equal. f_equal.
  rewrite (extend_node_compose e). f_equal. f_equal.
  replace (List.length e - 1) with (S (List.length e - 1 - 1)) at 3 by lia.
  rewrite seq_S. f_equal. f_equal. lia.
Qed.

(** C1. For a hyperedge [e] of length at least 2 over stored identifiers,
    [add_edge e] returns normally, appends [e] to the edge sequence and
    appends to the ancestry cache of every node [n], for each position
    [i] in [1..L-1] with [e[i] = n] in increasing order, exactly the entry
    [rev (e[0..i])]; keys, contents and metadata are untouched.  On the
    ten-node graph of the test-suite node 10 ends with [[5], [4]]. *)
Theorem add_edge_appends_reversed_prefixes :
  (forall (g : Hypergraph) (e : path),
      2 <= List.length e ->
      Forall (fun n => Dict.member n (nodes g) = true) e ->
      exists g',
        add_edge e g = (Ok tt, g') /\
        edges g' = edges g ++ [e] /\
        Dict.keys (nodes g') = Dict.keys (nodes g) /\
        (forall n nd,
            Dict.get n (nodes g) = Some nd ->
            Dict.get n (nodes g') =
            Some (with_ancestry nd (ancestry nd ++ entries_for e n))) /\
        (forall i n,
            1 <= i < List.length e -> nth_error e i = Some n ->
            In (rev (firstn i e)) (entries_for e n))) /\
  add_edges ten_edges ten_nodes = (Ok tt, ten_graph) /\
  ancestry_of ten_graph "10" = Some [["5"]; ["4"]].
Proof.
  split; [|split; reflexivity].
  intros g e Hlen Hall. eexists. split; [apply add_edge_general; assumption|].
  simpl. repeat split.
  - unfold Dict.keys. rewrite map_map. now apply map_ext.
  - intros n nd Hget. clear Hlen Hall.
    induction (nodes g) as [|[k v] d IH]; simpl in *; [discriminate|].
    destruct (String.eqb n k) eqn:Hk.
    + apply String.eqb_eq in Hk; subst k. now injection Hget as ->.
    + now apply IH.
  - intros i n Hi Hn. unfold entries_for, entries_at.
    apply in_flat_map. exists i. split; [apply in_seq; lia|].
    rewrite Hn, String.eqb_refl. now left.
Qed.

Lemma add_edge_appends_reversed_prefixes_witness :
  exists g',
    add_edge ["4"; "10"] ten_nodes = (Ok tt, g') /\
    edges g' = edges ten_nodes ++ [["4"; "10"]] /\
    Dict.keys (nodes g') = Dict.keys (nodes ten_nodes) /\
    (forall n nd,
        Dict.get n (nodes ten_nodes) = Some nd ->
        Dict.get n (nodes g') =
        Some (with_ancestry nd (ancestry nd ++ entries_for ["4"; "10"] n))) /\
    (forall i n,
        1 <= i < 2 -> nth_error ["4"; "10"] i = Some n ->
        In (rev (firstn i ["4"; "10"])) (entries_for ["4"; "10"] n)).
Proof.
  apply (proj1 add_edge_appends_reversed_prefixes ten_nodes ["4"; "10"]).
  - simpl. lia.
  - repeat constructor.
Defined.

(** ** remove_edge *)

Lemma path_eqb_eq (p q : path) : path_eqb p q = true <-> p = q.
Proof.
  unfold path_eqb. destruct (list_eq_dec string_dec p q); split; congruence.
Qed.

Lemma mem_In (x : node_id) (l : path) : mem x l = true <-> In x l.
Proof.
  unfold mem. rewrite existsb_exists. split.
  - intros (y & Hy & Heq). apply String.eqb_eq in Heq. now subst.
  - intros H. exists x. split; [exact H|apply String.eqb_refl].
Qed.

Lemma mem_path_In (p : path) (l : list path) : mem_path p l = true <-> In p l.
Proof.
  unfold mem_path. rewrite existsb_exists. split.
  - intros (y & Hy & Heq). apply path_eqb_eq in Heq. now subst.
  - intros H. exists p. split; [exact H|now apply path_eqb_eq].
Qed.

Lemma remove_first_absent (e : path) (l : list path) :
  ~ In e l -> remove_first e l = l.
Proof.
  induction l as [|x r IH]; simpl; [reflexivity|]. intros Hn.
  destruct (path_eqb e x) eqn:He.
  - apply path_eqb_eq in He. subst. tauto.
  - f_equal. apply IH. tauto.
Qed.

Lemma remove_first_present (e : path) (l : list path) :
  In e l ->
  exists l1 l2, l = l1 ++ e :: l2 /\ ~ In e l1 /\ remove_first e l = l1 ++ l2.
Proof.
  induction l as [|x r IH]; simpl; [tauto|]. intros Hin.
  destruct (path_eqb e x) eqn:He.
  - apply path_eqb_eq in He. subst x. exists [], r. simpl. tauto.
  - assert (Hne : e <> x).
    { intros ->. assert (path_eqb x x = true) by now apply path_eqb_eq. congruence. }
    destruct Hin as [Hin|Hin]; [congruence|].
    destruct (IH Hin) as (l1 & l2 & -> & Hn & Hr).
    exists (x :: l1), l2. simpl. rewrite Hr. repeat split.
    intros [H|H]; [congruence|tauto].
Qed.

Lemma adjust_absent {V : Type} (n : node_id) (f : V -> V) (d : Dict.t V) :
  Dict.member n d = false -> Dict.adjust n f d = d.
Proof.
  unfold Dict.member, Dict.adjust.
  induction d as [|[k v] d IH]; simpl; [reflexivity|].
  destruct (String.eqb n k); [discriminate|]. intros H. f_equal. now apply IH.
Qed.

Lemma clear_if_stored_run (n : node_id) (g : Hypergraph) :
  clear_if_stored n g =
  (Ok tt, set_nodes g (Dict.adjust n clear_ancestry (nodes g))).
Proof.
  unfold clear_if_stored, modify.
  destruct (Dict.member n (nodes g)) eqn:Hm; [reflexivity|].
  rewrite adjust_absent by exact Hm. now destruct g.
Qed.

Lemma clear_loop (l : path) (g : Hypergraph) :
  for_each l clear_if_stored g =
  (Ok tt,
   set_nodes g
     (map (fun kv => if mem (fst kv) l then (fst kv, clear_ancestry (snd kv)) else kv)
          (nodes g))).
Proof.
  revert g. induction l as [|n l IH]; intros g.
  - simpl. unfold ret, set_nodes. rewrite map_id. now destruct g.
  - cbn [for_each]. unfold bind. rewrite clear_if_stored_run, IH.
    unfold set_nodes; simpl. f_equal. f_equal.
    unfold Dict.adjust. rewrite map_map. apply map_ext. intros [k v]; simpl.
    rewrite (String.eqb_sym k n).
    destruct (String.eqb n k); simpl; [|reflexivity].
    unfold mem. now destruct (existsb (String.eqb k) l).
Qed.

Lemma remove_edge_run (e : path) (g : Hypergraph) :
  remove_edge e g =
  (Ok tt, mkGraph (map (clear_item e) (nodes g)) (remove_first e (edges g))).
Proof.
  unfold remove_edge, bind, modify. rewrite clear_loop.
  unfold set_nodes, set_edges. f_equal.
  destruct (mem_path e (edges g)) eqn:Hm; simpl; [reflexivity|].
  rewrite remove_first_absent; [reflexivity|].
  intros Hin. apply mem_path_In in Hin. congruence.
Qed.

Lemma get_clear_item (e : path) (n : node_id) (d : Dict.t Node) :
  Dict.get n (map (clear_item e) d) =
  if mem n (tl e) then option_map clear_ancestry (Dict.get n d) else Dict.get n d.
Proof.
  induction d as [|[k v] d IH]; simpl.
  - now destruct (mem n (tl e)).
  - unfold clear_item at 1; simpl.
    destruct (mem k (tl e)) eqn:Hk; simpl;
      destruct (String.eqb n k) eqn:Hn; try apply IH.
    + apply String.eqb_eq in Hn; subst. now rewrite Hk.
    + apply String.eqb_eq in Hn; subst. now rewrite Hk.
Qed.

(** C5 (amended). [remove_edge e] always returns normally; it removes the
    first value-equal occurrence of [e] from the edge sequence (none when [e]
    is absent); every stored node whose identifier occurs at a non-head
    position of [e] keeps its content and metadata and gets an empty ancestry
    cache; every other node, hence the node at position 0 when its identifier
    does not occur again later in [e], is unchanged; keys keep their order. *)
Theorem remove_edge_clears_non_head_nodes (g : Hypergraph) (e : path) :
  exists g',
    remove_edge e g = (Ok tt, g') /\
    (~ In e (edges g) -> edges g' = edges g) /\
    (In e (edges g) ->
     exists l1 l2, edges g = l1 ++ e :: l2 /\ ~ In e l1 /\ edges g' = l1 ++ l2) /\
    Dict.keys (nodes g') = Dict.keys (nodes g) /\
    (forall n nd,
        Dict.get n (nodes g) = Some nd -> In n (tl e) ->
        Dict.get n (nodes g') = Some (mkNode (content nd) (metadata nd) [])) /\
    (forall n, ~ In n (tl e) -> Dict.get n (nodes g') = Dict.get n (nodes g)).
Proof.
  eexists. split; [apply remove_edge_run|]. simpl. repeat split.
  - apply remove_first_absent.
  - apply remove_first_present.
  - unfold Dict.keys. rewrite map_map. apply map_ext. intros [k v].
    unfold clear_item; simpl. now destruct (mem k (tl e)).
  - intros n nd Hget Hin. rewrite get_clear_item, Hget.
    apply mem_In in Hin. now rewrite Hin.
  - intros n Hn. rewrite get_clear_item.
    destruct (mem n (tl e)) eqn:Hm; [|reflexivity].
    apply mem_In in Hm. tauto.
Qed.

Lemma remove_edge_clears_non_head_nodes_witness :
  exists g',
    remove_edge ["B"; "D"] diamond = (Ok tt, g') /\
    edges g' = [["A"; "B"]; ["A"; "C"]; ["C"; "D"]] /\
    ancestry_of g' "D" = Some [] /\
    Dict.get "B" (nodes g') = Dict.get "B" (nodes diamond).
Proof.
  destruct (remove_edge_clears_non_head_nodes diamond ["B"; "D"])
    as (g' & Hrun & _).
  exists g'. split; [exact Hrun|].
  vm_compute in Hrun. injection Hrun as <-. repeat split; reflexivity.
Defined.

(** C5 as stated fails when the head of the edge occurs again in it: on the
    graph made by [add_edge([a, a])], [remove_edge([a, a])] empties the cache
    of the node at position 0. *)
Lemma remove_edge_changes_recurring_head :
  hd_error ["a"; "a"] = Some "a" /\
  ancestry_of self_loop "a" = Some [["a"]] /\
  ancestry_of (run (remove_edge ["a"; "a"]) self_loop) "a" = Some [] /\
  Dict.get "a" (nodes (run (remove_edge ["a"; "a"]) self_loop)) <>
  Dict.get "a" (nodes self_loop).
Proof.
  repeat split; try reflexivity. discriminate.
Qed.

(** ** to_dict / from_dict *)

Lemma set_fresh {V : Type} (k : node_id) (v : V) (d : Dict.t V) :
  ~ In k (Dict.keys d) -> Dict.set k v d = d ++ [(k, v)].
Proof.
  induction d as [|[k' v'] d IH]; simpl; [reflexivity|]. intros Hn.
  destruct (String.eqb k k') eqn:Hk.
  - apply String.eqb_eq in Hk. subst. tauto.
  - f_equal. apply IH. tauto.
Qed.

(** Filling a dict item by item from a duplicate-free sequence of items
    appends them in order. *)
Lemma fill_fresh {V W : Type} (f : W -> V) (l : Dict.t W) (acc : Dict.t V) :
  NoDup (Dict.keys acc ++ Dict.keys l) ->
  fold_left (fun a kv => Dict.set (fst kv) (f (snd kv)) a) l acc =
  acc ++ map (fun kv => (fst kv, f (snd kv))) l.
Proof.
  revert acc. induction l as [|[k w] l IH]; intros acc Hnd; simpl.
  - now rewrite app_nil_r.
  - assert (Hk : ~ In k (Dict.keys acc)).
    { simpl in Hnd. apply NoDup_remove_2 in Hnd. intros H. apply Hnd.
      apply in_or_app. now left. }
    rewrite set_fresh by exact Hk. rewrite IH.
    + now rewrite <- app_assoc.
    + unfold Dict.keys in *. rewrite map_app, <- app_assoc. exact Hnd.
Qed.

Lemma to_dict_nodes (g : Hypergraph) :
  NoDup (Dict.keys (nodes g)) ->
  d_nodes (to_dict g) =
  map (fun kv => (fst kv, mkNodeDict (content (snd kv)) (metadata (snd kv))
                                     (ancestry (snd kv)))) (nodes g).
Proof.
  intros Hnd. unfold to_dict; simpl.
  apply (fill_fresh (fun nd => mkNodeDict (content nd) (metadata nd) (ancestry nd))).
  exact Hnd.
Qed.

Lemma from_dict_loop (l : Dict.t NodeDict) (g : Hypergraph) :
  for_each l
    (fun kv =>
       modify (fun g =>
                 set_nodes g
                   (Dict.set (fst kv)
                      (mkNode (d_content (snd kv)) (d_metadata (snd kv))
                              (d_ancestry (snd kv)))
                      (nodes g)))) g =
  (Ok tt,
   set_nodes g
     (fold_left
        (fun a kv =>
           Dict.set (fst kv)
             (mkNode (d_content (snd kv)) (d_metadata (snd kv)) (d_ancestry (snd kv)))
             a) l (nodes g))).
Proof.
  revert g. induction l as [|kv l IH]; intros g.
  - simpl. unfold ret, set_nodes. now destruct g.
  - cbn [for_each]. unfold bind, modify at 1. rewrite IH. reflexivity.
Qed.

(** C8. Loading the dictionary produced by [to_dict g] into any graph object
    returns normally and leaves that object with the very node mapping of
    [g] (same identifiers in the same order, each with identical content,
    metadata and ancestry) and the very edge sequence of [g].  A Python dict
    holds each key once, which is the hypothesis on the association list. *)
Theorem from_dict_to_dict_roundtrip (g receiver : Hypergraph) :
  NoDup (Dict.keys (nodes g)) ->
  from_dict (to_dict g) receiver = (Ok tt, g) /\
  (forall n, Dict.get n (nodes (run (from_dict (to_dict g)) receiver)) =
             Dict.get n (nodes g)) /\
  edges (run (from_dict (to_dict g)) receiver) = edges g.
Proof.
  intros Hnd.
  assert (H : from_dict (to_dict g) receiver = (Ok tt, g)).
  { unfold from_dict, bind, modify at 1 2. rewrite from_dict_loop.
    unfold set_nodes, set_edges; simpl nodes; simpl edges.
    rewrite (fill_fresh (fun d => mkNode (d_content d) (d_metadata d) (d_ancestry d))).
    - rewrite to_dict_nodes by exact Hnd. simpl. rewrite map_map. simpl.
      destruct g as [ns es]; simpl. f_equal. f_equal.
      rewrite <- (map_id ns) at 2. apply map_ext. now intros [k [c m a]].
    - rewrite to_dict_nodes by exact Hnd.
      unfold Dict.keys. rewrite map_map. simpl. exact Hnd. }
  unfold run. rewrite H. simpl. auto.
Qed.

Lemma from_dict_to_dict_roundtrip_witness :
  from_dict (to_dict diamond) empty_graph = (Ok tt, diamond) /\
  (forall n, Dict.get n (nodes (run (from_dict (to_dict diamond)) empty_graph)) =
             Dict.get n (nodes diamond)) /\
  edges (run (from_dict (to_dict diamond)) empty_graph) = edges diamond.
Proof.
  apply (from_dict_to_dict_roundtrip diamond empty_graph).
  vm_compute. repeat constructor; simpl; intuition discriminate.
Defined.

(** ** check_for_cycles *)

Lemma diamond_eq :
  diamond =
  mkGraph
    [("A", mkNode "a" [] []); ("B", mkNode "b" [] [["A"]]);
     ("C", mkNode "c" [] [["A"]]); ("D", mkNode "d" [] [["B"]; ["C"]])]
    diamond_edges.
Proof. reflexivity. Qed.

Lemma cycle3_eq :
  cycle3 =
  mkGraph
    [("A", mkNode "a" [] [["C"]]); ("B", mkNode "b" [] [["A"]]);
     ("C", mkNode "c" [] [["B"]])]
    [["A"; "B"]; ["B"; "C"]; ["C"; "A"]].
Proof. reflexivity. Qed.

(** C4. The empty graph and the three-node cycle are reported cyclic, as
    claimed.  The diamond A -> {B, C} -> D has no cycle (every stored edge
    goes from a node to one of strictly greater rank, and the walk that
    tracks the current path answers false), yet [check_for_cycles] answers
    true at every recursion depth that lets it finish: [visited] is shared
    by sibling branches, so D, reached through B, is met again through C. *)
Theorem check_for_cycles_flags_diamond :
  (forall k, check_for_cycles k empty_graph = Ok true) /\
  (forall k, check_for_cycles k cycle3 = Ok true) /\
  (exists rank : node_id -> nat,
      Forall (fun e => match e with
                       | a :: b :: _ => rank a < rank b
                       | _ => False
                       end) (edges diamond)) /\
  (forall k, check_for_cycles_on_path (3 + k) diamond = Ok false) /\
  (forall k, check_for_cycles (3 + k) diamond = Ok true) /\
  (forall k, _check_for_cycles (3 + k) diamond "A" [] =
             (Ok true, ["A"; "B"; "D"; "C"])).
Proof.
  split; [reflexivity|]. split; [reflexivity|]. split.
  - exists (fun n => if String.eqb n "A" then 0
                     else if String.eqb n "D" then 2 else 1).
    rewrite diamond_eq. simpl. repeat constructor.
  - repeat split; reflexivity.
Qed.

(** ** refactor *)

(** C9. On a parent [r] and its only child [c] with equal contents,
    [refactor] merges [r, c] in the equal-content loop and then, the
    children list read before still having one element, merges [r, c] again:
    [self.nodes[r]] raises [KeyError] and the pass aborts.  On a root with
    children [c1] (itself with one child) and [c2], the pass returns normally
    but the root is left with exactly one child. *)
Theorem refactor_aborts_on_equal_content_child :
  (forall k, refactor (1 + k) test_uuid equal_pair =
             (Raise KeyError, mkGraph [("u", mkNode "aa" [] [])] [])) /\
  get_children equal_pair "r" = Ok ["c"] /\
  get_node_contents equal_pair ["r"; "c"] = Ok ["a"; "a"] /\
  (forall k, refactor (2 + k) test_uuid fork_chain =
             (Ok tt,
              mkGraph [("r", mkNode "a" [] []); ("c2", mkNode "c" [] [["r"]]);
                       ("u", mkNode "be" [] [])]
                      [["r"; "c2"]])) /\
  (forall k, get_roots (run (refactor (2 + k) test_uuid) fork_chain) = ["r"; "u"]) /\
  (forall k, get_children (run (refactor (2 + k) test_uuid) fork_chain) "r" =
             Ok ["c2"]).
Proof.
  repeat split; reflexivity.
Qed.

(** ** get_ancestry *)

Lemma flat_map_result_mono {A B : Type} (f f' : A -> result (list B))
  (l : list A) (r : list B) :
  (forall x ys, In x l -> f x = Ok ys -> f' x = Ok ys) ->
  flat_map_result f l = Ok r -> flat_map_result f' l = Ok r.
Proof.
  revert r. induction l as [|x l IH]; intros r Hf; simpl; [auto|].
  destruct (f x) as [ys|] eqn:Hx; [|discriminate].
  rewrite (Hf x ys (or_introl eq_refl) Hx).
  destruct (flat_map_result f l) as [zs|] eqn:Hl; [|discriminate].
  intros [= <-]. rewrite (IH zs); [reflexivity| |reflexivity].
  intros y ws Hy. apply Hf. now right.
Qed.

Lemma flat_map_result_ok {A B : Type} (f : A -> result (list B))
  (h : A -> list B) (l : list A) :
  (forall x, In x l -> f x = Ok (h x)) ->
  flat_map_result f l = Ok (flat_map h l).
Proof.
  induction l as [|x l IH]; intros Hf; simpl; [reflexivity|].
  rewrite (Hf x (or_introl eq_refl)), IH; [reflexivity|].
  intros y Hy. apply Hf. now right.
Qed.

Lemma is_root_true (nd : Node) : is_root nd = true <-> ancestry nd = [].
Proof. unfold is_root. destruct (ancestry nd); split; congruence. Qed.

Lemma is_root_false (nd : Node) : is_root nd = false <-> ancestry nd <> [].
Proof. unfold is_root. destruct (ancestry nd); split; congruence. Qed.

Lemma get_ancestries_unfold (g : Hypergraph) (d : nat) (n : node_id) (nd : Node) :
  Dict.get n (nodes g) = Some nd ->
  _get_ancestries (S d) g n =
  if is_root nd then Ok [[]]
  else
    flat_map_result
      (fun p =>
         match last_error p with
         | None => Raise IndexError
         | Some a => result_map (map (fun q => p ++ q)) (_get_ancestries d g a)
         end) (ancestry nd).
Proof.
  intros H. simpl. rewrite H. unfold is_root. now destruct (ancestry nd).
Qed.

(** A deeper interpreter stack does not change a returned value. *)
Lemma get_ancestries_mono (g : Hypergraph) (d d' : nat) (n : node_id) (r : list path) :
  d <= d' -> _get_ancestries d g n = Ok r -> _get_ancestries d' g n = Ok r.
Proof.
  revert d' n r. induction d as [|d IH]; intros d' n r Hle; [discriminate|].
  destruct d' as [|d']; [lia|]. intros H.
  destruct (Dict.get n (nodes g)) as [nd|] eqn:Hget.
  - rewrite (get_ancestries_unfold g d n nd Hget) in H.
    rewrite (get_ancestries_unfold g d' n nd Hget).
    destruct (is_root nd); [exact H|].
    revert H. apply flat_map_result_mono. intros x ys _.
    destruct (last_error x) as [a|]; [|auto].
    destruct (_get_ancestries d g a) as [sub|] eqn:Ha; [|discriminate].
    rewrite (IH d' a sub); [auto|lia|exact Ha].
  - simpl in H. rewrite Hget in H. discriminate.
Qed.

Section Acyclic.

Variable g : Hypergraph.
Variable rank : node_id -> nat.
Hypothesis Hacyclic : ancestry_acyclic g rank.

Lemma member_get {V : Type} (k : node_id) (d : Dict.t V) :
  Dict.member k d = true -> exists v, Dict.get k d = Some v.
Proof.
  unfold Dict.member. destruct (Dict.get k d) as [v|]; [eauto|discriminate].
Qed.

(** Under acyclic caches [_get_ancestries] returns at every stored node. *)
Lemma get_ancestries_returns (n : node_id) :
  Dict.member n (nodes g) = true ->
  exists r, _get_ancestries (S (rank n)) g n = Ok r.
Proof.
  remember (rank n) as k eqn:Hk. revert n Hk.
  induction k as [k IH] using lt_wf_ind. intros n Hk Hm.
  destruct (member_get _ _ Hm) as [nd Hget].
  rewrite (get_ancestries_unfold g k n nd Hget).
  destruct (is_root nd); [eauto|].
  exists (flat_map (through_entry rank g) (ancestry nd)).
  apply flat_map_result_ok. intros p Hp.
  destruct (Hacyclic n nd p Hget Hp) as (a & Hlast & Hma & Hlt).
  unfold through_entry. rewrite Hlast.
  destruct (IH (rank a) ltac:(lia) a eq_refl Hma) as [r Hr].
  unfold ancestries_at. rewrite Hr.
  rewrite (get_ancestries_mono g (S (rank a)) k a r); [reflexivity|lia|exact Hr].
Qed.

Lemma get_ancestries_at (n : node_id) (depth : nat) :
  Dict.member n (nodes g) = true -> rank n < depth ->
  _get_ancestries depth g n = Ok (ancestries_at rank g n).
Proof.
  intros Hm Hlt. destruct (get_ancestries_returns n Hm) as [r Hr].
  unfold ancestries_at. rewrite Hr.
  apply (get_ancestries_mono g (S (rank n))); [lia|exact Hr].
Qed.

(** The recursion equation of [_get_ancestries] on returned values. *)
Lemma ancestries_at_equation (n : node_id) (nd : Node) :
  Dict.get n (nodes g) = Some nd ->
  ancestries_at rank g n =
  if is_root nd then [[]] else flat_map (through_entry rank g) (ancestry nd).
Proof.
  intros Hget. unfold ancestries_at at 1.
  rewrite (get_ancestries_unfold g (rank n) n nd Hget).
  destruct (is_root nd); [reflexivity|].
  rewrite (flat_map_result_ok _ (through_entry rank g)); [reflexivity|].
  intros p Hp.
  destruct (Hacyclic n nd p Hget Hp) as (a & Hlast & Hma & Hlt).
  unfold through_entry. rewrite Hlast.
  rewrite (get_ancestries_at a (rank n) Hma Hlt). reflexivity.
Qed.

(** The returned paths are exactly the tails of the full lineages. *)
Lemma ancestries_at_lineage (n : node_id) (q : path) :
  Dict.member n (nodes g) = true ->
  In q (ancestries_at rank g n) <-> lineage g n (n :: q).
Proof.
  remember (rank n) as k eqn:Hk. revert n q Hk.
  induction k as [k IH] using lt_wf_ind. intros n q Hk Hm.
  destruct (member_get _ _ Hm) as [nd Hget].
  rewrite (ancestries_at_equation n nd Hget).
  destruct (is_root nd) eqn:Hroot.
  - apply is_root_true in Hroot. rename Hroot into Hanc. split.
    + intros [<-|[]]. now apply (lineage_root g n nd).
    + intros Hl. inversion Hl as [n' nd' Hg' Ha' | n' nd' p a q' Hg' Hp Hlast Hsub]; subst.
      * now left.
      * rewrite Hget in Hg'. injection Hg' as <-. rewrite Hanc in Hp. destruct Hp.
  - apply is_root_false in Hroot. rename Hroot into Hanc.
    rewrite in_flat_map. split.
    + intros (p & Hp & Hq).
      destruct (Hacyclic n nd p Hget Hp) as (a & Hlast & Hma & Hlt).
      unfold through_entry in Hq. rewrite Hlast in Hq.
      apply in_map_iff in Hq. destruct Hq as (q' & <- & Hq').
      apply (lineage_step g n nd p a q' Hget Hp Hlast).
      apply (IH (rank a) ltac:(lia) a q' eq_refl Hma). exact Hq'.
    + intros Hl. inversion Hl as [n' nd' Hg' Ha' | n' nd' p a q' Hg' Hp Hlast Hsub]; subst.
      * rewrite Hget in Hg'. injection Hg' as <-. contradiction.
      * rewrite Hget in Hg'. injection Hg' as <-.
        exists p. split; [exact Hp|].
        destruct (Hacyclic n nd p Hget Hp) as (a' & Hlast' & Hma & Hlt).
        rewrite Hlast in Hlast'. injection Hlast' as <-.
        unfold through_entry. rewrite Hlast. apply in_map.
        apply (IH (rank a) ltac:(lia) a q' eq_refl Hma). exact Hsub.
Qed.

End Acyclic.

Lemma lineage_head (g : Hypergraph) (n : node_id) (l : path) :
  lineage g n l -> exists q, l = n :: q.
Proof. intros H. destruct H; eauto. Qed.

Lemma roots_are_keys (d : Dict.t Node) (n : node_id) :
  In n (map fst (filter (fun kv => is_root (snd kv)) d)) -> In n (Dict.keys d).
Proof.
  unfold Dict.keys. rewrite !in_map_iff.
  intros (kv & Hk & Hin). apply filter_In in Hin. exists kv. tauto.
Qed.

(** With each key present once, membership in [get_roots] reads the cache of
    the stored node. *)
Lemma mem_get_roots (g : Hypergraph) (n : node_id) (nd : Node) :
  NoDup (Dict.keys (nodes g)) ->
  Dict.get n (nodes g) = Some nd ->
  mem n (get_roots g) = is_root nd.
Proof.
  unfold get_roots. induction (nodes g) as [|[k v] d IH]; simpl; [discriminate|].
  intros Hnd Hget. inversion Hnd as [|? ? Hk Hnd']; subst.
  destruct (String.eqb n k) eqn:Hn.
  - apply String.eqb_eq in Hn. subst k. injection Hget as ->.
    destruct (is_root nd) eqn:Hr; simpl.
    + now rewrite String.eqb_refl.
    + destruct (mem n (map fst (filter (fun kv => is_root (snd kv)) d))) eqn:Hm;
        [|reflexivity].
      apply mem_In, roots_are_keys in Hm. contradiction.
  - destruct (is_root v); simpl; [rewrite Hn; simpl|]; now apply IH.
Qed.

Lemma get_ancestry_at (g : Hypergraph) (rank : node_id -> nat) (n : node_id)
  (depth : nat) :
  NoDup (Dict.keys (nodes g)) -> ancestry_acyclic g rank ->
  Dict.member n (nodes g) = true -> rank n < depth ->
  get_ancestry depth g n = Ok (lineages_at rank g n).
Proof.
  intros Hnd Hac Hm Hlt. destruct (member_get _ _ Hm) as [nd Hget].
  unfold get_ancestry, lineages_at.
  rewrite (mem_get_roots g n nd Hnd Hget).
  rewrite (get_ancestries_at g rank Hac n depth Hm Hlt).
  destruct (is_root nd) eqn:Hr; [|reflexivity].
  rewrite (ancestries_at_equation g rank Hac n nd Hget), Hr. reflexivity.
Qed.

Lemma map_flat_map_comm {A B C : Type} (f : B -> C) (h : A -> list B) (l : list A) :
  map f (flat_map h l) = flat_map (fun x => map f (h x)) l.
Proof.
  induction l as [|x l IH]; simpl; [reflexivity|]. now rewrite map_app, IH.
Qed.

Lemma cycle3_exhausts_depth (depth : nat) :
  _get_ancestries depth cycle3 "A" = Raise RecursionError /\
  _get_ancestries depth cycle3 "B" = Raise RecursionError /\
  _get_ancestries depth cycle3 "C" = Raise RecursionError.
Proof.
  rewrite cycle3_eq. induction depth as [|d (HA & HB & HC)]; [now repeat split|].
  repeat split; cbn; [rewrite HC|rewrite HA|rewrite HB]; reflexivity.
Qed.

Lemma diamond_acyclic :
  ancestry_acyclic diamond
    (fun n => if String.eqb n "A" then 0 else if String.eqb n "D" then 2 else 1).
Proof.
  intros n nd p Hget Hp. apply get_In in Hget. rewrite diamond_eq in Hget.
  simpl in Hget.
  repeat (destruct Hget as [Hget|Hget];
          [injection Hget as <- <-; simpl in Hp;
           repeat (destruct Hp as [<-|Hp];
                   [eexists; split; [reflexivity|split; [reflexivity|simpl; lia]]|]);
           contradiction|]).
  contradiction.
Qed.

Lemma diamond_keys_nodup : NoDup (Dict.keys (nodes diamond)).
Proof.
  rewrite diamond_eq. simpl. repeat constructor; simpl; intuition discriminate.
Qed.

(** C2 (amended). In a graph whose ancestry caches are acyclic (every entry
    is non-empty and ends in a stored node of smaller rank), for every stored
    node [n], [get_ancestry n] returns once the recursion depth exceeds the
    rank of [n]; the value is [[n]] for a root and otherwise, for each entry
    [p] of [n] and each returned lineage [q] of the last element of [p], the
    path [n :: p ++ tl q], in that order; these paths are exactly the full
    lineages of [n].  In the diamond, [get_ancestry D] is
    [[D, B, A], [D, C, A]]. *)
Theorem get_ancestry_enumerates_lineages :
  (forall (g : Hypergraph) (rank : node_id -> nat) (n : node_id) (nd : Node),
      NoDup (Dict.keys (nodes g)) ->
      ancestry_acyclic g rank ->
      Dict.get n (nodes g) = Some nd ->
      exists ls,
        (forall depth, rank n < depth -> get_ancestry depth g n = Ok ls) /\
        (ancestry nd = [] -> ls = [[n]]) /\
        (ancestry nd <> [] ->
         exists sub : path -> list path,
           (forall p, In p (ancestry nd) ->
                      exists a, last_error p = Some a /\
                                forall depth, rank a < depth ->
                                              get_ancestry depth g a = Ok (sub p)) /\
           ls = flat_map (fun p => map (fun q => n :: p ++ tl q) (sub p))
                         (ancestry nd)) /\
        (forall l, In l ls <-> lineage g n l)) /\
  (forall k, get_ancestry (3 + k) diamond "D" =
             Ok [["D"; "B"; "A"]; ["D"; "C"; "A"]]).
Proof.
  split; [|reflexivity].
  intros g rank n nd Hnd Hac Hget.
  assert (Hm : Dict.member n (nodes g) = true).
  { unfold Dict.member. now rewrite Hget. }
  exists (lineages_at rank g n). split; [|split; [|split]].
  - intros depth Hlt. now apply get_ancestry_at.
  - intros Hanc. unfold lineages_at.
    rewrite (ancestries_at_equation g rank Hac n nd Hget).
    apply is_root_true in Hanc. now rewrite Hanc.
  - intros Hanc.
    exists (fun p => match last_error p with
                     | Some a => lineages_at rank g a
                     | None => []
                     end).
    split.
    + intros p Hp. destruct (Hac n nd p Hget Hp) as (a & Hlast & Hma & Hlt).
      exists a. split; [exact Hlast|]. intros depth Hd. rewrite Hlast.
      now apply get_ancestry_at.
    + unfold lineages_at at 1.
      rewrite (ancestries_at_equation g rank Hac n nd Hget).
      apply is_root_false in Hanc. rewrite Hanc.
      rewrite map_flat_map_comm. apply flat_map_ext. intros p.
      unfold through_entry, lineages_at.
      destruct (last_error p) as [a|]; [|reflexivity].
      now rewrite !map_map.
  - intros l. unfold lineages_at. split.
    + intros Hin. apply in_map_iff in Hin. destruct Hin as (q & <- & Hq).
      now apply (ancestries_at_lineage g rank Hac n q Hm).
    + intros Hl. destruct (lineage_head g n l Hl) as [q ->].
      apply in_map. now apply (ancestries_at_lineage g rank Hac n q Hm).
Qed.

Lemma get_ancestry_enumerates_lineages_witness :
  exists ls,
    (forall depth, 2 < depth -> get_ancestry depth diamond "D" = Ok ls) /\
    (forall l, In l ls <-> lineage diamond "D" l).
Proof.
  destruct (proj1 get_ancestry_enumerates_lineages diamond
              (fun n => if String.eqb n "A" then 0
                        else if String.eqb n "D" then 2 else 1)
              "D" (mkNode "d" [] [["B"]; ["C"]])
              diamond_keys_nodup diamond_acyclic eq_refl)
    as (ls & Hret & _ & _ & Hlin).
  exists ls. split; [exact Hret|exact Hlin].
Defined.

(** C2 as stated fails on cyclic caches: in the three-node cycle of the
    test-suite every node has a non-empty ancestry and [get_ancestry A]
    exhausts any recursion depth. *)
Lemma get_ancestry_never_returns_on_cycle :
  Dict.member "A" (nodes cycle3) = true /\
  ~ (exists depth ls, get_ancestry depth cycle3 "A" = Ok ls).
Proof.
  split; [reflexivity|]. intros (depth & ls & H).
  unfold get_ancestry in H.
  replace (mem "A" (get_roots cycle3)) with false in H by reflexivity.
  rewrite (proj1 (cycle3_exhausts_depth depth)) in H. discriminate.
Qed.

(** ** common_ancestor *)

Lemma get_ancestries_nonempty (g : Hypergraph) (d : nat) (n : node_id) (r : list path) :
  _get_ancestries d g n = Ok r -> r <> [].
Proof.
  revert n r. induction d as [|d IH]; intros n r; [discriminate|].
  destruct (Dict.get n (nodes g)) as [nd|] eqn:Hget.
  - rewrite (get_ancestries_unfold g d n nd Hget).
    destruct (is_root nd) eqn:Hr; [intros [= <-]; discriminate|].
    apply is_root_false in Hr.
    destruct (ancestry nd) as [|p ps]; [contradiction|]. simpl.
    destruct (last_error p) as [a|]; [|discriminate].
    destruct (_get_ancestries d g a) as [sub|] eqn:Ha; [|discriminate]. simpl.
    match goal with
    | |- context [flat_map_result ?f ps] =>
        destruct (flat_map_result f ps) as [zs|]; [|discriminate]
    end.
    intros [= <-]. apply IH in Ha.
    destruct sub; [contradiction|discriminate].
  - simpl. rewrite Hget. discriminate.
Qed.

Lemma get_ancestry_nonempty (g : Hypergraph) (d : nat) (n : node_id) (ls : list path) :
  get_ancestry d g n = Ok ls -> ls <> [].
Proof.
  unfold get_ancestry. destruct (mem n (get_roots g)).
  - intros [= <-]. discriminate.
  - destruct (_get_ancestries d g n) as [r|] eqn:Hr; [|discriminate].
    intros [= <-]. apply get_ancestries_nonempty in Hr.
    destruct r; [contradiction|discriminate].
Qed.

Lemma narrow_all_run (ord : SetOrder) (depth : nat) (g : Hypergraph)
  (ids : path) (lss : list (list path)) (most : option path) :
  Forall2 (fun n ls => get_ancestry depth g n = Ok ls) ids lss ->
  narrow_all ord depth g ids most = Ok (fold_left (narrow ord) (List.concat lss) most).
Proof.
  intros H. revert most. induction H as [|n ls ids lss Hn _ IH]; intros most.
  - reflexivity.
  - simpl. rewrite Hn, IH, fold_left_app. reflexivity.
Qed.

Lemma inter_list_In (ord : SetOrder) (a b : path) (x : node_id) :
  In x (inter_list ord a b) <-> In x a /\ In x b.
Proof.
  split.
  - intros H. apply (Permutation_in _ (inter_list_perm ord a b)) in H.
    apply nodup_In, filter_In in H. now rewrite mem_In in H.
  - intros [Ha Hb].
    apply (Permutation_in _ (Permutation_sym (inter_list_perm ord a b))).
    apply nodup_In, filter_In. now rewrite mem_In.
Qed.

Lemma narrow_fold_some (ord : SetOrder) (ls : list path) (m : path) :
  exists m',
    fold_left (narrow ord) ls (Some m) = Some m' /\
    forall x, In x m' <-> In x m /\ forall l, In l ls -> In x l.
Proof.
  revert m. induction ls as [|l ls IH]; intros m.
  - exists m. split; [reflexivity|]. intros x. simpl. tauto.
  - simpl. destruct (IH (inter_list ord m l)) as (m' & Hm' & Hin).
    exists m'. split; [exact Hm'|]. intros x. rewrite Hin, inter_list_In.
    split.
    + intros [[Hm Hl] Hrest]. split; [exact Hm|].
      intros l' [<-|Hl']; auto.
    + intros [Hm Hall]. repeat split; auto.
Qed.

Lemma narrow_fold_none (ord : SetOrder) (ls : list path) :
  ls <> [] ->
  exists m,
    fold_left (narrow ord) ls None = Some m /\
    forall x, In x m <-> forall l, In l ls -> In x l.
Proof.
  destruct ls as [|l0 ls]; [contradiction|]. intros _. simpl.
  destruct (narrow_fold_some ord ls l0) as (m & Hm & Hin).
  exists m. split; [exact Hm|]. intros x. rewrite Hin. split.
  - intros [H0 Hrest] l [<-|Hl]; auto.
  - intros Hall. split; [apply Hall; now left|]. intros l Hl. apply Hall. now right.
Qed.

Lemma ancestry_keys_ok (g : Hypergraph) (m : path) :
  (forall x, In x m -> Dict.member x (nodes g) = true) ->
  ancestry_keys g m = Ok (map (fun x => (ancestry_count g x, x)) m).
Proof.
  induction m as [|x m IH]; intros Hall; [reflexivity|]. simpl.
  destruct (member_get x _ (Hall x (or_introl eq_refl))) as [nd Hget].
  unfold ancestry_count at 1. rewrite Hget, IH; [reflexivity|].
  intros y Hy. apply Hall. now right.
Qed.

Lemma insert_sorted_perm (x : nat * node_id) (l : list (nat * node_id)) :
  Permutation (insert_sorted x l) (x :: l).
Proof.
  induction l as [|y l IH]; simpl; [reflexivity|].
  destruct (Nat.leb (fst x) (fst y)); [reflexivity|].
  rewrite IH. apply perm_swap.
Qed.

Lemma stable_sort_perm (l : list (nat * node_id)) : Permutation (stable_sort l) l.
Proof.
  induction l as [|x l IH]; simpl; [reflexivity|].
  rewrite insert_sorted_perm. now constructor.
Qed.

Lemma insert_sorted_sorted (x : nat * node_id) (l : list (nat * node_id)) :
  StronglySorted key_le l -> StronglySorted key_le (insert_sorted x l).
Proof.
  induction l as [|y l IH]; intros Hs; simpl.
  - repeat constructor.
  - inversion Hs as [|? ? Hl Hy]; subst.
    destruct (Nat.leb (fst x) (fst y)) eqn:Hxy.
    + apply Nat.leb_le in Hxy. constructor; [exact Hs|].
      constructor; [exact Hxy|].
      eapply Forall_impl; [|exact Hy]. unfold key_le. intros; lia.
    + apply Nat.leb_gt in Hxy. constructor; [now apply IH|].
      apply Forall_forall. intros z Hz.
      apply (Permutation_in _ (insert_sorted_perm x l)) in Hz.
      destruct Hz as [<-|Hz]; [unfold key_le; lia|].
      rewrite Forall_forall in Hy. now apply Hy.
Qed.

Lemma stable_sort_sorted (l : list (nat * node_id)) :
  StronglySorted key_le (stable_sort l).
Proof.
  induction l as [|x l IH]; simpl; [constructor|].
  now apply insert_sorted_sorted.
Qed.

Lemma filter_sorted (P : nat * node_id -> bool) (l : list (nat * node_id)) :
  StronglySorted key_le l -> StronglySorted key_le (filter P l).
Proof.
  induction l as [|y l IH]; intros Hs; simpl; [constructor|].
  inversion Hs as [|? ? Hl Hy]; subst.
  destruct (P y); [|now apply IH].
  constructor; [now apply IH|].
  apply Forall_forall. intros z Hz. apply filter_In in Hz.
  rewrite Forall_forall in Hy. now apply Hy.
Qed.

Lemma last_error_In {A : Type} (l : list A) (x : A) :
  last_error l = Some x -> In x l.
Proof.
  induction l as [|y [|z r] IH]; [discriminate| |].
  - intros [= ->]. now left.
  - intros H. right. now apply IH.
Qed.

Lemma last_error_some {A : Type} (l : list A) :
  l <> [] -> exists x, last_error l = Some x.
Proof.
  induction l as [|y [|z r] IH]; [contradiction|now exists y|].
  intros _. apply IH. discriminate.
Qed.

Lemma last_error_map {A B : Type} (f : A -> B) (l : list A) :
  last_error (map f l) = option_map f (last_error l).
Proof.
  induction l as [|y [|z r] IH]; try reflexivity. exact IH.
Qed.

(** The last element of a sorted list carries the greatest key. *)
Lemma sorted_last_max (l : list (nat * node_id)) (x y : nat * node_id) :
  StronglySorted key_le l -> last_error l = Some y -> In x l -> fst x <= fst y.
Proof.
  induction l as [|z [|w r] IH]; [discriminate| |].
  - intros _ [= ->] [->|[]]. lia.
  - intros Hs Hlast Hin. inversion Hs as [|? ? Hl Hz]; subst.
    destruct Hin as [->|Hin].
    + rewrite Forall_forall in Hz. apply (Hz y). now apply last_error_In.
    + now apply IH.
Qed.

Lemma filter_map_snd (P : node_id -> bool) (l : list (nat * node_id)) :
  filter P (map snd l) = map snd (filter (fun kx => P (snd kx)) l).
Proof.
  induction l as [|y l IH]; simpl; [reflexivity|].
  destruct (P (snd y)); simpl; now rewrite IH.
Qed.

Lemma lineages_nonempty (depth : nat) (g : Hypergraph) (ids : path)
  (lss : list (list path)) :
  ids <> [] ->
  Forall2 (fun n ls => get_ancestry depth g n = Ok ls) ids lss ->
  List.concat lss <> [].
Proof.
  intros Hne H. destruct H as [|n ls ids lss Hn _]; [contradiction|].
  apply get_ancestry_nonempty in Hn. simpl.
  destruct ls; [contradiction|discriminate].
Qed.

(** The value of the two nested loops and of the sort. *)
Lemma common_ancestor_sorted (ord : SetOrder) (depth : nat) (g : Hypergraph)
  (ids : path) (lss : list (list path)) :
  ids <> [] ->
  Forall2 (fun n ls => get_ancestry depth g n = Ok ls) ids lss ->
  (forall l x, In l (List.concat lss) -> In x l -> Dict.member x (nodes g) = true) ->
  exists m,
    (forall x, In x m <-> on_every_lineage lss x) /\
    common_ancestor ord depth g ids =
    match map snd (stable_sort (map (fun x => (ancestry_count g x, x)) m)) with
    | [] => Ok None
    | sorted =>
        match last_error (filter (fun x => negb (mem x ids)) sorted) with
        | Some x => Ok (Some x)
        | None => Raise IndexError
        end
    end.
Proof.
  intros Hne Hlss Hstored.
  pose proof (lineages_nonempty depth g ids lss Hne Hlss) as Hcat.
  destruct (narrow_fold_none ord (List.concat lss) Hcat) as (m & Hm & Hin).
  exists m. split; [exact Hin|].
  unfold common_ancestor.
  rewrite (narrow_all_run ord depth g ids lss None Hlss), Hm.
  rewrite ancestry_keys_ok; [reflexivity|].
  intros x Hx. pose proof (proj1 (Hin x) Hx) as Hall.
  assert (Hl0 : exists l0, In l0 (List.concat lss)).
  { destruct (List.concat lss) as [|l0 rest]; [congruence|]. exists l0. now left. }
  destruct Hl0 as [l0 Hl0]. apply (Hstored l0 x Hl0). now apply Hall.
Qed.

Lemma inter_singleton (ord : SetOrder) (a b : path) (x : node_id) :
  nodup string_dec (filter (fun y => mem y b) a) = [x] ->
  inter_list ord a b = [x].
Proof.
  intros H. pose proof (inter_list_perm ord a b) as Hp. rewrite H in Hp.
  apply Permutation_sym, Permutation_length_1_inv in Hp. exact Hp.
Qed.

(** C3 (amended). For a non-empty list of queried identifiers on which
    [get_ancestry] returns, every lineage mentioning stored nodes only,
    [common_ancestor] keeps the identifiers that lie on every lineage of
    every queried node (the lineages of one node are intersected too, not
    united), returns the missing-result sentinel when there is none, and
    otherwise, once a kept identifier is not a queried one, returns a kept,
    non-queried identifier with the greatest number of ancestry-cache
    entries.  In the diamond, [common_ancestor [B, C]] is A whatever the
    iteration order of Python sets. *)
Theorem common_ancestor_intersects_all_lineages :
  (forall (ord : SetOrder) (depth : nat) (g : Hypergraph) (ids : path)
          (lss : list (list path)),
      ids <> [] ->
      Forall2 (fun n ls => get_ancestry depth g n = Ok ls) ids lss ->
      (forall l x, In l (List.concat lss) -> In x l ->
                   Dict.member x (nodes g) = true) ->
      ((forall x, ~ on_every_lineage lss x) ->
       common_ancestor ord depth g ids = Ok None) /\
      (forall x, on_every_lineage lss x -> ~ In x ids ->
                 exists y,
                   common_ancestor ord depth g ids = Ok (Some y) /\
                   on_every_lineage lss y /\ ~ In y ids /\
                   forall z, on_every_lineage lss z -> ~ In z ids ->
                             ancestry_count g z <= ancestry_count g y)) /\
  (forall (ord : SetOrder) (k : nat),
      common_ancestor ord (2 + k) diamond ["B"; "C"] = Ok (Some "A")).
Proof.
  split.
  - intros ord depth g ids lss Hne Hlss Hstored.
    destruct (common_ancestor_sorted ord depth g ids lss Hne Hlss Hstored)
      as (m & Hin & Hrun).
    rewrite Hrun. clear Hrun.
    set (keyed := map (fun x => (ancestry_count g x, x)) m).
    assert (Hkeyed : forall kx, In kx (stable_sort keyed) <->
                                In (snd kx) m /\ fst kx = ancestry_count g (snd kx)).
    { intros [k x]. split.
      - intros H. apply (Permutation_in _ (stable_sort_perm keyed)) in H.
        apply in_map_iff in H. destruct H as (x' & [= <- <-] & Hx'). now split.
      - intros [Hx Hk]. simpl in *. subst k.
        apply (Permutation_in _ (Permutation_sym (stable_sort_perm keyed))).
        apply in_map_iff. now exists x. }
    split.
    + intros Hnone. destruct m as [|x m'].
      * reflexivity.
      * exfalso. apply (Hnone x), Hin. now left.
    + intros x Hx Hnot.
      set (kept := filter (fun kx : nat * node_id => negb (mem (snd kx) ids))
                          (stable_sort keyed)).
      assert (Hkept : forall z, on_every_lineage lss z -> ~ In z ids ->
                                In (ancestry_count g z, z) kept).
      { intros z Hz Hnz. apply filter_In. split.
        - apply Hkeyed. simpl. split; [now apply Hin|reflexivity].
        - simpl. destruct (mem z ids) eqn:Hmem; [|reflexivity].
          apply mem_In in Hmem. contradiction. }
      destruct (last_error_some kept) as [[ky y] Hlast].
      { intros E. pose proof (Hkept x Hx Hnot) as H. rewrite E in H. destruct H. }
      assert (Hy : In (ky, y) kept) by now apply last_error_In.
      apply filter_In in Hy. destruct Hy as [Hy Hyq]. simpl in Hyq.
      apply Hkeyed in Hy. simpl in Hy. destruct Hy as [Hym Hky].
      exists y.
      destruct (map snd (stable_sort keyed)) as [|e t] eqn:E.
      { exfalso. assert (H : In x (map snd (stable_sort keyed))).
        { apply in_map_iff. exists (ancestry_count g x, x). split; [reflexivity|].
          apply Hkeyed. simpl. split; [now apply Hin|reflexivity]. }
        rewrite E in H. destruct H. }
      rewrite <- E, filter_map_snd, last_error_map.
      fold kept. rewrite Hlast. simpl. repeat split.
      * now apply Hin.
      * intros Hq. apply mem_In in Hq. rewrite Hq in Hyq. discriminate.
      * intros z Hz Hnz. rewrite <- Hky.
        apply (sorted_last_max kept (ancestry_count g z, z) (ky, y)).
        -- apply filter_sorted, stable_sort_sorted.
        -- exact Hlast.
        -- now apply Hkept.
  - intros ord k. unfold common_ancestor.
    replace (narrow_all ord (2 + k) diamond ["B"; "C"] None)
      with (Ok (Some (inter_list ord ["B"; "A"] ["C"; "A"]))) by reflexivity.
    rewrite (inter_singleton ord ["B"; "A"] ["C"; "A"] "A") by reflexivity.
    reflexivity.
Qed.

Lemma common_ancestor_intersects_all_lineages_witness :
  exists y,
    common_ancestor first_seen 3 diamond ["D"] = Ok (Some y) /\
    on_every_lineage [[["D"; "B"; "A"]; ["D"; "C"; "A"]]] y /\ ~ In y ["D"] /\
    forall z, on_every_lineage [[["D"; "B"; "A"]; ["D"; "C"; "A"]]] z ->
              ~ In z ["D"] ->
              ancestry_count diamond z <= ancestry_count diamond y.
Proof.
  apply (proj2 (proj1 common_ancestor_intersects_all_lineages first_seen 3 diamond
                  ["D"] [[["D"; "B"; "A"]; ["D"; "C"; "A"]]]
                  ltac:(discriminate)
                  ltac:(repeat constructor)
                  ltac:(simpl; intros l x [<-|[<-|[]]] Hx; simpl in Hx;
                        repeat (destruct Hx as [<-|Hx]; [reflexivity|]);
                        destruct Hx)) "A").
  - intros l Hl. simpl in Hl.
    repeat (destruct Hl as [<-|Hl]; [simpl; tauto|]). destruct Hl.
  - simpl. intros [H|[]]. discriminate.
Defined.

(** C3 as stated fails at a merge point: for the single query [D] in the
    diamond, B lies in the union of the lineages of D, is not queried and has
    more ancestry entries than A, yet the returned identifier is A, the only
    non-queried identifier on both lineages. *)
Lemma common_ancestor_ignores_lineage_union :
  get_ancestry 3 diamond "D" = Ok [["D"; "B"; "A"]; ["D"; "C"; "A"]] /\
  In "B" (List.concat [["D"; "B"; "A"]; ["D"; "C"; "A"]]) /\
  ~ In "B" ["D"] /\
  ancestry_count diamond "A" < ancestry_count diamond "B" /\
  common_ancestor first_seen 3 diamond ["D"] = Ok (Some "A").
Proof.
  split; [reflexivity|]. split; [simpl; tauto|]. split.
  - simpl. intros [H|[]]. discriminate.
  - split; [vm_compute; lia|reflexivity].
Qed.

(** ** content_lineage *)

Lemma prefix_spec (s t : string) :
  String.prefix s t = true <-> exists b, t = (s ++ b)%string.
Proof.
  revert t. induction s as [|c s IH]; intros t.
  - split; [intros _; now exists t|now destruct t].
  - destruct t as [|c' t]; simpl.
    + split; [discriminate|]. intros [b H]. discriminate.
    + destruct (ascii_dec c c') as [<-|Hne].
      * rewrite IH. split; intros [b H]; exists b; [now rewrite H|congruence].
      * split; [discriminate|]. intros [b H]. congruence.
Qed.

Lemma contains_spec (t s : string) :
  contains t s = true <-> substring_of s t.
Proof.
  unfold substring_of. induction t as [|c t IH]; cbn [contains].
  - rewrite orb_false_r, prefix_spec. split.
    + intros [b H]. now exists EmptyString, b.
    + intros (a & b & H). destruct a; [now exists b|discriminate].
  - rewrite orb_true_iff, prefix_spec, IH. split.
    + intros [[b H]|(a & b & H)].
      * now exists EmptyString, b.
      * exists (String c a), b. simpl. now rewrite H.
    + intros (a & b & H). destruct a as [|c' a]; simpl in H.
      * left. now exists b.
      * right. exists a, b. congruence.
Qed.

Lemma ends_with_spec (t s : string) :
  ends_with t s = true <-> suffix_of s t.
Proof.
  unfold suffix_of. induction t as [|c t IH]; cbn [ends_with].
  - rewrite orb_false_r, String.eqb_eq. split.
    + intros <-. now exists EmptyString.
    + intros [a H]. destruct a; [exact H|discriminate].
  - rewrite orb_true_iff, String.eqb_eq, IH. split.
    + intros [<-|[a H]].
      * now exists EmptyString.
      * exists (String c a). simpl. now rewrite H.
    + intros [a H]. destruct a as [|c' a]; simpl in H.
      * now left.
      * right. exists a. congruence.
Qed.

Lemma get_node_contents_stored (g : Hypergraph) (ids : path) :
  (forall x, In x ids -> Dict.member x (nodes g) = true) ->
  exists cs, get_node_contents g ids = Ok cs.
Proof.
  induction ids as [|x ids IH]; intros Hall; simpl; [eauto|].
  destruct (member_get x _ (Hall x (or_introl eq_refl))) as [nd ->].
  destruct IH as [cs ->]; [|eauto]. intros y Hy. apply Hall. now right.
Qed.

(** The inner loop of [content_lineage]: the first lineage that matches. *)
Lemma first_matching_spec (g : Hypergraph) (target : string) (ls : list path) :
  (forall l x, In l ls -> In x l -> Dict.member x (nodes g) = true) ->
  (first_matching g target ls = Ok None /\
   forall l, In l ls -> ~ lineage_matches g target l) \/
  (exists earlier l later,
      ls = earlier ++ l :: later /\
      first_matching g target ls = Ok (Some (rev l)) /\
      lineage_matches g target l /\
      forall l', In l' earlier -> ~ lineage_matches g target l').
Proof.
  induction ls as [|l ls IH]; intros Hstored.
  - left. split; [reflexivity|]. intros l [].
  - simpl.
    destruct (get_node_contents_stored g (rev l)) as [cs Hcs].
    { intros x Hx. apply (Hstored l x); [now left|]. now apply in_rev. }
    rewrite Hcs. destruct (contains target (join cs)) eqn:Hc.
    + right. exists [], l, ls. repeat split.
      * exists cs. split; [exact Hcs|]. now apply contains_spec.
      * intros l' [].
    + assert (Hno : ~ lineage_matches g target l).
      { intros (cs' & Hcs' & Hsub). rewrite Hcs in Hcs'. injection Hcs' as <-.
        apply contains_spec in Hsub. congruence. }
      destruct IH as [[Hnone Hall]|(earlier & l1 & later & -> & Hrun & Hm & Hbefore)].
      * intros l' x Hl'. apply Hstored. now right.
      * left. split; [exact Hnone|]. intros l' [<-|Hl']; auto.
      * right. exists (l :: earlier), l1, later. repeat split; auto.
        intros l' [<-|Hl']; auto.
Qed.

(** The outer loop, over the items that remain to be visited. *)
Lemma content_lineage_in_spec (depth : nat) (g : Hypergraph) (target : string)
  (items : Dict.t Node) :
  (forall n nd, In (n, nd) items -> suffix_of (content nd) target ->
                exists ls, get_ancestry depth g n = Ok ls /\
                           forall l x, In l ls -> In x l ->
                                       Dict.member x (nodes g) = true) ->
  (content_lineage_in depth g target items = Ok [] /\
   forall n nd ls l, In (n, nd) items -> suffix_of (content nd) target ->
                     get_ancestry depth g n = Ok ls -> In l ls ->
                     ~ lineage_matches g target l) \/
  (exists before n nd after ls earlier l later,
      items = before ++ (n, nd) :: after /\
      suffix_of (content nd) target /\
      get_ancestry depth g n = Ok ls /\
      ls = earlier ++ l :: later /\
      content_lineage_in depth g target items = Ok (rev l) /\
      lineage_matches g target l /\
      (forall l', In l' earlier -> ~ lineage_matches g target l') /\
      (forall n' nd' ls' l', In (n', nd') before -> suffix_of (content nd') target ->
                             get_ancestry depth g n' = Ok ls' -> In l' ls' ->
                             ~ lineage_matches g target l')).
Proof.
  induction items as [|[n nd] items IH]; intros Hret.
  - left. split; [reflexivity|]. intros n nd ls l [].
  - assert (Hrest : forall n0 nd0, In (n0, nd0) items -> suffix_of (content nd0) target ->
                exists ls, get_ancestry depth g n0 = Ok ls /\
                           forall l x, In l ls -> In x l ->
                                       Dict.member x (nodes g) = true).
    { intros n0 nd0 Hin. apply Hret. now right. }
    specialize (IH Hrest). simpl.
    destruct (ends_with target (content nd)) eqn:He.
    + apply ends_with_spec in He.
      destruct (Hret n nd (or_introl eq_refl) He) as (ls & Hls & Hstored).
      rewrite Hls.
      destruct (first_matching_spec g target ls Hstored)
        as [[Hnone Hall]|(earlier & l & later & -> & Hrun & Hm & Hbefore)].
      * rewrite Hnone.
        assert (Hhere : forall n' nd' ls' l',
                   (n, nd) = (n', nd') -> get_ancestry depth g n' = Ok ls' ->
                   In l' ls' -> ~ lineage_matches g target l').
        { intros n' nd' ls' l' [= <- <-] Hls' Hl'.
          rewrite Hls in Hls'. injection Hls' as <-. now apply Hall. }
        destruct IH as [[Hrun Hno]|
                        (before & n1 & nd1 & after & ls1 & earlier & l1 & later &
                         -> & Hsuf & Hls1 & -> & Hrun & Hm & Hearlier & Hbefore)].
        -- left. split; [exact Hrun|].
           intros n' nd' ls' l' [Heq|Hin] Hsuf Hls' Hl'; eauto.
        -- right. exists ((n, nd) :: before), n1, nd1, after,
                         (earlier ++ l1 :: later), earlier, l1, later.
           repeat split; auto.
           intros n' nd' ls' l' [Heq|Hin] Hsuf' Hls' Hl'; eauto.
      * rewrite Hrun. right.
        exists [], n, nd, items, (earlier ++ l :: later), earlier, l, later.
        repeat split; auto; intros n' nd' ls' l' [].
    + assert (Hhere : ~ suffix_of (content nd) target).
      { intros Hs. apply ends_with_spec in Hs. congruence. }
      destruct IH as [[Hrun Hno]|
                      (before & n1 & nd1 & after & ls1 & earlier & l1 & later &
                       -> & Hsuf & Hls1 & -> & Hrun & Hm & Hearlier & Hbefore)].
      * left. split; [exact Hrun|].
        intros n' nd' ls' l' [[= <- <-]|Hin] Hsuf Hls' Hl'; [contradiction|eauto].
      * right. exists ((n, nd) :: before), n1, nd1, after,
                       (earlier ++ l1 :: later), earlier, l1, later.
        repeat split; auto.
        intros n' nd' ls' l' [[= <- <-]|Hin] Hsuf' Hls' Hl'; [contradiction|eauto].
Qed.

Lemma six_graph_eq :
  six_graph =
  mkGraph
    [("1", mkNode "The quick " [] []);
     ("2", mkNode "brown fox jumps " [] [["1"]]);
     ("3", mkNode "red car drives " [] [["1"]]);
     ("4", mkNode "over the " [] [["2"; "1"]; ["3"; "1"]; ["2"]; ["3"]]);
     ("5", mkNode "lazy dog." [] [["4"; "2"]]);
     ("6", mkNode "speedbump." [] [["4"; "3"]])]
    [["1"; "2"; "4"]; ["1"; "3"; "4"]; ["2"; "4"; "5"]; ["3"; "4"; "6"]].
Proof. reflexivity. Qed.

(** On the six-node graph every lineage enumeration returns at depth 3 and
    mentions stored nodes only. *)
Lemma six_graph_lineages (n : node_id) (nd : Node) :
  In (n, nd) (nodes six_graph) ->
  exists ls, get_ancestry 3 six_graph n = Ok ls /\
             forall l x, In l ls -> In x l -> Dict.member x (nodes six_graph) = true.
Proof.
  intros Hin. rewrite six_graph_eq in Hin. simpl in Hin.
  repeat (destruct Hin as [Hin|Hin];
          [injection Hin as <- <-; eexists; split; [reflexivity|];
           intros l x Hl Hx; simpl in Hl;
           repeat (destruct Hl as [<-|Hl];
                   [simpl in Hx;
                    repeat (destruct Hx as [<-|Hx]; [reflexivity|]);
                    destruct Hx|]);
           destruct Hl|]).
  destruct Hin.
Qed.

(** C7 (amended). When [get_ancestry] returns, with lineages over stored
    nodes, at every node whose content is a suffix of the target,
    [content_lineage] returns: the empty sequence when no lineage of such a
    node has its contents, joined in root-to-node order, inside the target;
    otherwise the reverse of the first matching lineage of the first node,
    in dict order, that has one.  On the six-node graph the two sentences
    resolve to [1, 2, 4, 5] and [1, 3, 4, 6]. *)
Theorem content_lineage_first_match :
  (forall (depth : nat) (g : Hypergraph) (target : string),
      (forall n nd, In (n, nd) (nodes g) -> suffix_of (content nd) target ->
                    exists ls, get_ancestry depth g n = Ok ls /\
                               forall l x, In l ls -> In x l ->
                                           Dict.member x (nodes g) = true) ->
      exists r,
        content_lineage depth g target = Ok r /\
        ((r = [] /\
          forall n nd ls l, In (n, nd) (nodes g) -> suffix_of (content nd) target ->
                            get_ancestry depth g n = Ok ls -> In l ls ->
                            ~ lineage_matches g target l) \/
         (exists before n nd after ls earlier l later,
             nodes g = before ++ (n, nd) :: after /\
             suffix_of (content nd) target /\
             get_ancestry depth g n = Ok ls /\
             ls = earlier ++ l :: later /\
             r = rev l /\
             lineage_matches g target l /\
             (forall l', In l' earlier -> ~ lineage_matches g target l') /\
             (forall n' nd' ls' l',
                 In (n', nd') before -> suffix_of (content nd') target ->
                 get_ancestry depth g n' = Ok ls' -> In l' ls' ->
                 ~ lineage_matches g target l')))) /\
  (forall k, content_lineage (3 + k) six_graph
               "The quick brown fox jumps over the lazy dog." =
             Ok ["1"; "2"; "4"; "5"]) /\
  (forall k, content_lineage (3 + k) six_graph
               "The quick red car drives over the speedbump." =
             Ok ["1"; "3"; "4"; "6"]).
Proof.
  split; [|split; reflexivity].
  intros depth g target Hret. unfold content_lineage.
  destruct (content_lineage_in_spec depth g target (nodes g) Hret)
    as [[Hrun Hno]|
        (before & n & nd & after & ls & earlier & l & later &
         Hitems & Hsuf & Hls & -> & Hrun & Hm & Hearlier & Hbefore)].
  - exists []. split; [exact Hrun|]. left. split; [reflexivity|exact Hno].
  - exists (rev l). split; [exact Hrun|]. right.
    exists before, n, nd, after, (earlier ++ l :: later), earlier, l, later.
    repeat split; auto.
Qed.

Lemma content_lineage_first_match_witness :
  exists r,
    content_lineage 3 six_graph "The quick brown fox jumps over the lazy dog." = Ok r.
Proof.
  destruct (proj1 content_lineage_first_match 3 six_graph
              "The quick brown fox jumps over the lazy dog."
              (fun n nd Hin _ => six_graph_lineages n nd Hin)) as (r & Hr & _).
  exists r. exact Hr.
Defined.

(** C7 as stated fails on cyclic caches: in the three-node cycle the content
    of A is a suffix of the target ["a"], and the enumeration of the lineages
    of A exhausts any recursion depth. *)
Lemma content_lineage_never_returns_on_cycle :
  ends_with "a" "a" = true /\
  Dict.get "A" (nodes cycle3) = Some (mkNode "a" [] [["C"]]) /\
  ~ (exists depth r, content_lineage depth cycle3 "a" = Ok r).
Proof.
  split; [reflexivity|]. split; [reflexivity|].
  intros (depth & r & H). unfold content_lineage in H.
  rewrite cycle3_eq in H. cbn [nodes content_lineage_in content] in H.
  replace (ends_with "a" "a") with true in H by reflexivity.
  rewrite <- cycle3_eq in H. unfold get_ancestry in H.
  replace (mem "A" (get_roots cycle3)) with false in H by reflexivity.
  rewrite (proj1 (cycle3_exhausts_depth depth)) in H. discriminate.
Qed.

(** ** Sequences of edge additions *)

Lemma bind_ok {A B : Type} (m : M A) (f : A -> M B) (g g' : Hypergraph) (a : A) :
  m g = (Ok a, g') -> bind m f g = f a g'.
Proof. intros H. unfold bind. now rewrite H. Qed.

Lemma member_map_values {V W : Type} (f : V -> W) (k : node_id) (d : Dict.t V) :
  Dict.member k (map (fun kv => (fst kv, f (snd kv))) d) = Dict.member k d.
Proof.
  unfold Dict.member. induction d as [|[k' v] d IH]; simpl; [reflexivity|].
  now destruct (String.eqb k k').
Qed.

Lemma get_map_values {V W : Type} (f : V -> W) (k : node_id) (d : Dict.t V) :
  Dict.get k (map (fun kv => (fst kv, f (snd kv))) d) = option_map f (Dict.get k d).
Proof.
  induction d as [|[k' v] d IH]; simpl; [reflexivity|].
  now destruct (String.eqb k k').
Qed.

Lemma member_skeleton (g : Hypergraph) (k : node_id) :
  Dict.member k (skeleton g) = Dict.member k (nodes g).
Proof.
  unfold skeleton.
  apply (member_map_values (fun nd => (content nd, metadata nd))).
Qed.

Lemma same_skeleton_member (g g' : Hypergraph) (k : node_id) :
  skeleton g' = skeleton g -> Dict.member k (nodes g') = Dict.member k (nodes g).
Proof. intros H. now rewrite <- !member_skeleton, H. Qed.

Lemma nth_error_tail (e : path) (i : nat) (m : node_id) :
  1 <= i -> nth_error e i = Some m -> In m (tl e).
Proof.
  destruct i as [|i]; [lia|]. destruct e as [|h t]; [discriminate|].
  simpl. intros _. apply nth_error_In.
Qed.

Lemma entries_at_absent (e : path) (k : node_id) (ixs : list nat) :
  Forall (fun i => 1 <= i) ixs -> ~ In k (tl e) -> entries_at e k ixs = [].
Proof.
  intros Hpos Hk. unfold entries_at.
  induction Hpos as [|i ixs Hi _ IH]; simpl; [reflexivity|].
  rewrite IH, app_nil_r.
  destruct (nth_error e i) as [m|] eqn:Hm; [|reflexivity].
  destruct (String.eqb m k) eqn:Heq; [|reflexivity].
  apply String.eqb_eq in Heq. subst m. exfalso. apply Hk.
  now apply (nth_error_tail e i k).
Qed.

Lemma with_ancestry_same (nd : Node) : with_ancestry nd (ancestry nd ++ []) = nd.
Proof. destruct nd. unfold with_ancestry. simpl. now rewrite app_nil_r. Qed.

(** The effect of one [add_edge] that other operations rely on. *)
Lemma add_edge_frame (e : path) (g : Hypergraph) :
  2 <= List.length e ->
  Forall (fun x => Dict.member x (nodes g) = true) e ->
  exists g',
    add_edge e g = (Ok tt, g') /\
    edges g' = edges g ++ [e] /\
    skeleton g' = skeleton g /\
    (forall k, ~ In k (tl e) -> Dict.get k (nodes g') = Dict.get k (nodes g)).
Proof.
  intros Hlen Hall. eexists. split; [now apply add_edge_general|].
  simpl. repeat split.
  - unfold skeleton. simpl. rewrite map_map. now apply map_ext.
  - intros k Hk. clear Hall.
    induction (nodes g) as [|[k' v] d IH]; simpl; [reflexivity|].
    destruct (String.eqb k k') eqn:Hkk; [|exact IH].
    apply String.eqb_eq in Hkk. subst k'. unfold extend_node. simpl.
    rewrite entries_at_absent; [now rewrite with_ancestry_same| |exact Hk].
    apply Forall_forall. intros i Hi. apply in_seq in Hi. lia.
Qed.

Lemma add_edges_frame (es : list path) (g : Hypergraph) :
  Forall (fun e => 2 <= List.length e /\
                   Forall (fun x => Dict.member x (nodes g) = true) e) es ->
  exists g',
    add_edges es g = (Ok tt, g') /\
    edges g' = edges g ++ es /\
    skeleton g' = skeleton g /\
    (forall k, (forall e, In e es -> ~ In k (tl e)) ->
               Dict.get k (nodes g') = Dict.get k (nodes g)).
Proof.
  revert g. induction es as [|e es IH]; intros g Hall.
  - exists g. simpl. rewrite app_nil_r. repeat split; auto.
  - inversion Hall as [|? ? [Hlen He] Hrest]; subst.
    destruct (add_edge_frame e g Hlen He) as (g1 & Hrun & Hedges & Hskel & Hget).
    destruct (IH g1) as (g' & Hrun' & Hedges' & Hskel' & Hget').
    { eapply Forall_impl; [|exact Hrest]. intros e' [Hl Hs]. split; [exact Hl|].
      eapply Forall_impl; [|exact Hs]. intros x Hx.
      now rewrite (same_skeleton_member g g1 x Hskel). }
    exists g'. cbn [add_edges]. rewrite (bind_ok _ _ g g1 tt Hrun).
    split; [exact Hrun'|]. split; [|split].
    + rewrite Hedges', Hedges, <- app_assoc. reflexivity.
    + now rewrite Hskel'.
    + intros k Hk. rewrite Hget', Hget; [reflexivity| |].
      * apply Hk. now left.
      * intros e' He'. apply Hk. now right.
Qed.

Lemma skipn_cons_nth {A : Type} (i : nat) (l rest : list A) (x : A) :
  skipn i l = x :: rest -> nth_error l i = Some x /\ skipn (S i) l = rest.
Proof.
  revert l. induction i as [|i IH]; intros l H.
  - destruct l; [discriminate|]. simpl in H. injection H as -> ->. now split.
  - destruct l as [|y l]; [discriminate|]. simpl in H. now apply IH.
Qed.

Lemma skipn_nil_nth {A : Type} (i : nat) (l : list A) :
  skipn i l = [] -> nth_error l i = None.
Proof.
  revert l. induction i as [|i IH]; intros l H.
  - destruct l; [reflexivity|discriminate].
  - destruct l as [|y l]; [reflexivity|]. simpl in H. now apply IH.
Qed.

(** When the node being split occurs in none of the re-added edges, its cache
    is not extended during the walk, which then adds one edge per entry. *)
Lemma relink_parents_run (n first : node_id) (entries : list path) :
  forall (rest : list path) (budget i : nat) (g : Hypergraph) (nd0 : Node),
    skipn i entries = rest ->
    Dict.get n (nodes g) = Some nd0 ->
    ancestry nd0 = entries ->
    List.length rest <= budget ->
    Forall (fun e => (2 <= List.length e /\
                      Forall (fun x => Dict.member x (nodes g) = true) e) /\
                     ~ In n (tl e))
           (map (fun p => rev p ++ [first]) rest) ->
    relink_parents budget i n first g =
    add_edges (map (fun p => rev p ++ [first]) rest) g.
Proof.
  induction rest as [|p rest IH]; intros budget i g nd0 Hskip Hget Hanc Hbud Hall.
  - apply skipn_nil_nth in Hskip. destruct budget; [reflexivity|].
    cbn [relink_parents]. unfold bind, lookup. rewrite Hget, Hanc, Hskip.
    reflexivity.
  - destruct (skipn_cons_nth i entries rest p Hskip) as [Hnth Hskip'].
    destruct budget as [|b]; [simpl in Hbud; lia|].
    cbn [relink_parents map add_edges]. unfold bind at 1. unfold lookup.
    rewrite Hget, Hanc, Hnth.
    apply Forall_cons_iff in Hall. destruct Hall as [[[Hlen He] Hn] Hrest].
    destruct (add_edge_frame _ g Hlen He) as (g1 & Hrun & Hedges & Hskel & Hsame).
    rewrite !(bind_ok _ _ g g1 tt Hrun).
    apply (IH b (S i) g1 nd0); auto.
    + rewrite Hsame; assumption.
    + simpl in Hbud. lia.
    + eapply Forall_impl; [|exact Hrest]. intros e' [[Hl Hs] Hn']. repeat split; auto.
      eapply Forall_impl; [|exact Hs]. intros x Hx.
      now rewrite (same_skeleton_member g g1 x Hskel).
Qed.

Lemma relink_budget_enough (entries : list path) :
  List.length entries <= relink_budget entries.
Proof.
  unfold relink_budget. induction entries as [|p l IH]; simpl; [lia|].
  assert (H : Nat.pow 2 (List.length p) <> 0) by (apply Nat.pow_nonzero; lia).
  lia.
Qed.

Lemma link_pieces_run (l : list node_id) (g : Hypergraph) :
  link_pieces l g = add_edges (consecutive l) g.
Proof.
  revert g. induction l as [|a l IH]; intros g; [reflexivity|].
  destruct l as [|b r]; [reflexivity|].
  cbn [link_pieces consecutive add_edges]. unfold bind.
  destruct (add_edge [a; b] g) as [[[]|ex] g1]; [apply IH|reflexivity].
Qed.

Lemma reparent_run (last_piece : node_id) (cs : list node_id) (g : Hypergraph) :
  for_each cs (fun c => add_edge [last_piece; c]) g =
  add_edges (map (fun c => [last_piece; c]) cs) g.
Proof.
  revert g. induction cs as [|c cs IH]; intros g; [reflexivity|].
  cbn [for_each map add_edges]. unfold bind.
  destruct (add_edge [last_piece; c] g) as [[[]|ex] g1]; [apply IH|reflexivity].
Qed.

(** ** get_children *)

Lemma children_in_app (es1 es2 : list path) (n : node_id) (cs1 : list node_id) :
  children_in es1 n = Ok cs1 ->
  children_in (es1 ++ es2) n =
  match children_in es2 n with
  | Ok cs2 => Ok (cs1 ++ cs2)
  | Raise e => Raise e
  end.
Proof.
  revert cs1. induction es1 as [|e es1 IH]; intros cs1; simpl.
  - intros [= <-]. now destruct (children_in es2 n).
  - destruct e as [|h t]; [discriminate|].
    destruct (String.eqb h n).
    + destruct t as [|c t']; [discriminate|].
      destruct (children_in es1 n) as [cs|] eqn:Hcs; [|discriminate].
      intros [= <-]. rewrite (IH cs eq_refl).
      now destruct (children_in es2 n).
    + apply IH.
Qed.

Lemma children_in_other_heads (es : list path) (n : node_id) :
  Forall (fun e => exists h t, e = h :: t /\ h <> n) es ->
  children_in es n = Ok [].
Proof.
  induction 1 as [|e es (h & t & -> & Hne) _ IH]; simpl; [reflexivity|].
  apply String.eqb_neq in Hne. now rewrite Hne.
Qed.

Lemma children_in_complete (es : list path) (n c : node_id) (rest : path)
  (cs : list node_id) :
  children_in es n = Ok cs -> In (n :: c :: rest) es -> In c cs.
Proof.
  revert cs. induction es as [|e es IH]; intros cs Hcs Hin; [destruct Hin|].
  simpl in Hcs. destruct e as [|h t]; [discriminate|].
  destruct (String.eqb h n) eqn:Hh.
  - destruct t as [|c' t']; [discriminate|].
    destruct (children_in es n) as [cs'|]; [|discriminate].
    injection Hcs as <-. destruct Hin as [Heq|Hin].
    + inversion Heq; subst. now left.
    + right. now apply IH.
  - destruct Hin as [Heq|Hin].
    + inversion Heq; subst. rewrite String.eqb_refl in Hh. discriminate.
    + now apply IH.
Qed.

Lemma children_in_sound (es : list path) (n c : node_id) (cs : list node_id) :
  children_in es n = Ok cs -> In c cs -> exists rest, In (n :: c :: rest) es.
Proof.
  revert cs. induction es as [|e es IH]; intros cs Hcs Hin.
  - simpl in Hcs. injection Hcs as <-. destruct Hin.
  - simpl in Hcs. destruct e as [|h t]; [discriminate|].
    destruct (String.eqb h n) eqn:Hh.
    + destruct t as [|c' t']; [discriminate|].
      destruct (children_in es n) as [cs'|]; [|discriminate].
      injection Hcs as <-. apply String.eqb_eq in Hh. subst h.
      destruct Hin as [->|Hin].
      * exists t'. now left.
      * destruct (IH cs' eq_refl Hin) as [rest Hr]. exists rest. now right.
    + destruct (IH cs Hcs Hin) as [rest Hr]. exists rest. now right.
Qed.

(** ** remove_node *)

Lemma remove_first_skip (e : path) (pre l : list path) :
  ~ In e pre -> remove_first e (pre ++ e :: l) = pre ++ l.
Proof.
  induction pre as [|x pre IH]; intros Hn; simpl.
  - assert (H : path_eqb e e = true) by now apply path_eqb_eq. now rewrite H.
  - destruct (path_eqb e x) eqn:He.
    + apply path_eqb_eq in He. subst. exfalso. apply Hn. now left.
    + f_equal. apply IH. intros H. apply Hn. now right.
Qed.

(** Removing, one by one, every edge selected by [P] leaves the others. *)
Lemma remove_selected (P : path -> bool) (l pre : list path) :
  Forall (fun x => P x = false) pre ->
  fold_left (fun acc e => remove_first e acc) (filter P l) (pre ++ l) =
  pre ++ filter (fun x => negb (P x)) l.
Proof.
  revert pre. induction l as [|x l IH]; intros pre Hpre; simpl; [reflexivity|].
  destruct (P x) eqn:Hx; simpl.
  - rewrite remove_first_skip; [now apply IH|].
    intros Hin. rewrite Forall_forall in Hpre. apply Hpre in Hin. congruence.
  - replace (pre ++ x :: l) with ((pre ++ [x]) ++ l) by now rewrite <- app_assoc.
    rewrite IH; [now rewrite <- app_assoc|].
    apply Forall_app. split; [exact Hpre|]. now constructor.
Qed.

Lemma remove_edges_run (es : list path) (g : Hypergraph) :
  for_each es remove_edge g =
  (Ok tt,
   mkGraph (map (clear_items es) (nodes g))
           (fold_left (fun acc e => remove_first e acc) es (edges g))).
Proof.
  revert g. induction es as [|e es IH]; intros g.
  - simpl. unfold ret. destruct g as [ns eds]. simpl. f_equal. f_equal.
    rewrite <- (map_id ns) at 1. apply map_ext. now intros [k v].
  - cbn [for_each]. rewrite (bind_ok _ _ g _ tt (remove_edge_run e g)), IH.
    simpl. f_equal. f_equal. rewrite map_map. apply map_ext. intros [k v].
    unfold clear_items, clear_item. simpl.
    destruct (mem k (tl e)); simpl; [|reflexivity].
    now destruct (existsb (fun e0 => mem k (tl e0)) es).
Qed.

Lemma remove_node_run (n : node_id) (g : Hypergraph) :
  Dict.member n (nodes g) = true ->
  remove_node n g =
  (Ok tt,
   mkGraph (map (clear_items (filter (mem n) (edges g))) (Dict.remove n (nodes g)))
           (filter (fun e => negb (mem n e)) (edges g))).
Proof.
  intros Hm. unfold remove_node. rewrite Hm.
  unfold bind, modify, read. rewrite remove_edges_run. simpl. f_equal. f_equal.
  apply (remove_selected (mem n) (edges g) []). constructor.
Qed.

(** ** split *)

Lemma keys_app {V : Type} (d1 d2 : Dict.t V) :
  Dict.keys (d1 ++ d2) = Dict.keys d1 ++ Dict.keys d2.
Proof. apply map_app. Qed.

Lemma member_false_keys {V : Type} (k : node_id) (d : Dict.t V) :
  Dict.member k d = false <-> ~ In k (Dict.keys d).
Proof.
  rewrite <- member_In_keys. destruct (Dict.member k d); split; congruence.
Qed.

Lemma get_app_left {V : Type} (k : node_id) (d1 d2 : Dict.t V) :
  Dict.member k d1 = true -> Dict.get k (d1 ++ d2) = Dict.get k d1.
Proof.
  unfold Dict.member. induction d1 as [|[k' v] d1 IH]; simpl; [discriminate|].
  destruct (String.eqb k k'); [reflexivity|exact IH].
Qed.

Lemma get_app_right {V : Type} (k : node_id) (d1 d2 : Dict.t V) :
  Dict.member k d1 = false -> Dict.get k (d1 ++ d2) = Dict.get k d2.
Proof.
  unfold Dict.member. induction d1 as [|[k' v] d1 IH]; simpl; [reflexivity|].
  destruct (String.eqb k k'); [discriminate|exact IH].
Qed.

Lemma member_app {V : Type} (k : node_id) (d1 d2 : Dict.t V) :
  Dict.member k (d1 ++ d2) = Dict.member k d1 || Dict.member k d2.
Proof.
  destruct (Dict.member k d1) eqn:H1; simpl.
  - unfold Dict.member in *. rewrite get_app_left; [exact H1|].
    unfold Dict.member. exact H1.
  - unfold Dict.member at 1. now rewrite get_app_right.
Qed.

Lemma pieces_length (s : string) (start : Z) (bs : list Z) :
  List.length (pieces s start bs) = S (List.length bs).
Proof.
  revert start. induction bs as [|b bs IH]; intros start; simpl; [reflexivity|].
  now rewrite IH.
Qed.

(** The first loop of [split] with fresh, pairwise distinct identifiers. *)
Lemma add_pieces_run (uuid : nat -> node_id) (cs : list string) :
  forall (k : nat) (g : Hypergraph),
    NoDup (map uuid (seq k (List.length cs))) ->
    (forall x, In x (map uuid (seq k (List.length cs))) ->
               Dict.member x (nodes g) = false) ->
    add_pieces uuid k cs g =
    (Ok (map uuid (seq k (List.length cs))),
     set_nodes g (nodes g ++ combine (map uuid (seq k (List.length cs)))
                                     (map new_node cs))).
Proof.
  induction cs as [|c cs IH]; intros k g Hnd Hfresh.
  - simpl. unfold ret, set_nodes. rewrite app_nil_r. now destruct g.
  - cbn [add_pieces List.length seq map combine] in *.
    unfold bind at 1. unfold add_node at 1. unfold bind at 1, modify, ret at 1.
    inversion Hnd as [|? ? Hk Hnd']; subst.
    rewrite set_fresh.
    2:{ apply member_false_keys, Hfresh. now left. }
    unfold bind at 1. rewrite IH; [|exact Hnd'|].
    + unfold ret, set_nodes. simpl. now rewrite <- app_assoc.
    + intros x Hx. simpl. rewrite member_app.
      rewrite (Hfresh x (or_intror Hx)). simpl.
      unfold Dict.member. simpl.
      destruct (String.eqb x (uuid k)) eqn:E; [|reflexivity].
      apply String.eqb_eq in E. subst x. contradiction.
Qed.

Lemma keys_combine_new (ids : list node_id) (cs : list string) :
  List.length ids = List.length cs ->
  Dict.keys (combine ids (map new_node cs)) = ids.
Proof.
  revert cs. induction ids as [|i ids IH]; intros [|c cs] H; simpl in *;
    try discriminate; [reflexivity|].
  f_equal. apply IH. lia.
Qed.

Lemma filter_all {A : Type} (P : A -> bool) (l : list A) :
  Forall (fun x => P x = true) l -> filter P l = l.
Proof.
  induction 1 as [|x l Hx _ IH]; simpl; [reflexivity|]. now rewrite Hx, IH.
Qed.

Lemma get_remove_other {V : Type} (k n : node_id) (d : Dict.t V) :
  k <> n -> Dict.get k (Dict.remove n d) = Dict.get k d.
Proof.
  intros Hne. unfold Dict.remove.
  induction d as [|[k' v] d IH]; simpl; [reflexivity|].
  destruct (String.eqb n k') eqn:Hn; simpl.
  - apply String.eqb_eq in Hn. subst k'.
    apply String.eqb_neq in Hne. now rewrite Hne.
  - destruct (String.eqb k k'); [reflexivity|exact IH].
Qed.

Lemma get_remove_same {V : Type} (n : node_id) (d : Dict.t V) :
  Dict.get n (Dict.remove n d) = None.
Proof.
  unfold Dict.remove. induction d as [|[k' v] d IH]; simpl; [reflexivity|].
  destruct (String.eqb n k') eqn:Hn; simpl; [exact IH|]. now rewrite Hn.
Qed.

Lemma get_clear_items (es : list path) (k : node_id) (d : Dict.t Node) :
  Dict.get k (map (clear_items es) d) =
  if existsb (fun e => mem k (tl e)) es
  then option_map clear_ancestry (Dict.get k d)
  else Dict.get k d.
Proof.
  induction d as [|[k' v] d IH]; simpl.
  - now destruct (existsb (fun e => mem k (tl e)) es).
  - unfold clear_items at 1. simpl.
    destruct (String.eqb k k') eqn:Hk.
    + apply String.eqb_eq in Hk. subst k'.
      destruct (existsb (fun e => mem k (tl e)) es); simpl;
        now rewrite String.eqb_refl.
    + destruct (existsb (fun e => mem k' (tl e)) es); simpl; rewrite Hk; exact IH.
Qed.

Lemma skeleton_after_removal (es : list path) (n : node_id) (d : Dict.t Node)
  (eds : list path) :
  skeleton (mkGraph (map (clear_items es) (Dict.remove n d)) eds) =
  Dict.remove n (skeleton (mkGraph d eds)).
Proof.
  unfold skeleton, Dict.remove. simpl. rewrite map_map.
  induction d as [|[k v] d IH]; simpl; [reflexivity|].
  destruct (String.eqb n k); simpl; [exact IH|]. rewrite IH. f_equal.
  unfold clear_items. simpl.
  now destruct (existsb (fun e => mem k (tl e)) es).
Qed.

Lemma in_tl {A : Type} (x : A) (l : list A) : In x (tl l) -> In x l.
Proof. destruct l; simpl; auto. Qed.

Lemma consecutive_In (l : list node_id) (e : path) :
  In e (consecutive l) -> exists a b, e = [a; b] /\ In a l /\ In b l.
Proof.
  induction l as [|a l IH]; [intros []|].
  destruct l as [|b r]; [intros []|].
  cbn [consecutive]. intros [<-|Hin].
  - exists a, b. simpl. auto.
  - destruct (IH Hin) as (a' & b' & -> & Ha & Hb).
    exists a', b'. split; [reflexivity|]. split; now right.
Qed.

Lemma children_in_without (es : list path) (n : node_id) :
  Forall (fun e => 2 <= List.length e /\ ~ In n e) es -> children_in es n = Ok [].
Proof.
  intros H. apply children_in_other_heads.
  eapply Forall_impl; [|exact H]. intros [|h t] [Hlen Hn]; [simpl in Hlen; lia|].
  exists h, t. split; [reflexivity|]. intros ->. apply Hn. now left.
Qed.

Lemma skeleton_new_nodes (ids : list node_id) (cs : list string) :
  map (fun kv : node_id * Node => (fst kv, (content (snd kv), metadata (snd kv))))
      (combine ids (map new_node cs)) =
  map (fun kc : node_id * string => (fst kc, (snd kc, @nil (string * string))))
      (combine ids cs).
Proof.
  revert cs. induction ids as [|i ids IH]; intros [|c cs]; simpl; try reflexivity.
  now rewrite IH.
Qed.

Lemma keys_combine_contents (ids : list node_id) (cs : list string) :
  List.length ids = List.length cs ->
  map fst (map (fun kc : node_id * string => (fst kc, (snd kc, @nil (string * string))))
               (combine ids cs)) = ids.
Proof.
  revert cs. induction ids as [|i ids IH]; intros [|c cs] H; simpl in *;
    try discriminate; [reflexivity|].
  f_equal. apply IH. lia.
Qed.

(** The state [split] reaches on a node that occurs in none of its own
    ancestry entries and is not its own child. *)
Lemma split_final_state (uuid : nat -> node_id) (g : Hypergraph) (n : node_id)
  (nd : Node) (boundary : boundary_t) (children : list node_id) :
  Dict.get n (nodes g) = Some nd ->
  NoDup (piece_ids uuid nd boundary) ->
  (forall x, In x (piece_ids uuid nd boundary) -> Dict.member x (nodes g) = false) ->
  (forall p, In p (ancestry nd) ->
             p <> [] /\
             forall x, In x p -> x <> n /\ Dict.member x (nodes g) = true) ->
  get_children g n = Ok children ->
  (forall c, In c children -> c <> n /\ Dict.member c (nodes g) = true) ->
  exists first last_piece g',
    hd_error (piece_ids uuid nd boundary) = Some first /\
    last_error (piece_ids uuid nd boundary) = Some last_piece /\
    split uuid n boundary g = (Ok (piece_ids uuid nd boundary), g') /\
    skeleton g' =
    Dict.remove n (skeleton g) ++
    map (fun kc => (fst kc, (snd kc, [])))
        (combine (piece_ids uuid nd boundary) (piece_contents nd boundary)) /\
    edges g' =
    filter (fun e => negb (mem n e)) (edges g) ++
    split_edges nd (piece_ids uuid nd boundary) children first last_piece /\
    (forall c, In c children -> ancestry_of g' c = Some []).
Proof.
  intros Hget Hnd Hfresh Hanc Hch Hchild.
  remember (piece_contents nd boundary) as cs eqn:Hcs.
  remember (piece_ids uuid nd boundary) as ids eqn:Hids.
  assert (Hlen : List.length ids = List.length cs).
  { subst ids. unfold piece_ids. rewrite length_map, length_seq. now subst cs. }
  assert (Hcslen : List.length cs = S (List.length (offsets boundary))).
  { subst cs. apply pieces_length. }
  assert (Hmn : Dict.member n (nodes g) = true).
  { unfold Dict.member. now rewrite Hget. }
  assert (Hn_ids : ~ In n ids).
  { intros Hin. apply Hfresh in Hin. congruence. }
  destruct ids as [|first rest] eqn:Hshape; [simpl in Hlen; lia|].
  rewrite <- Hshape in *.
  assert (Hhd : hd_error ids = Some first) by now rewrite Hshape.
  destruct (last_error_some ids) as [last_piece Hlast]; [now rewrite Hshape|].
  assert (Hfirst_in : In first ids) by (rewrite Hshape; now left).
  assert (Hlast_in : In last_piece ids) by now apply last_error_In.
  (* the pieces *)
  set (g1 := set_nodes g (nodes g ++ combine ids (map new_node cs))).
  assert (Hpieces : add_pieces uuid 0 (pieces (content nd) 0%Z (offsets boundary)) g =
                    (Ok ids, g1)).
  { pose proof (add_pieces_run uuid cs 0 g) as H.
    unfold piece_ids in Hids. rewrite <- Hcs in Hids. rewrite <- Hids in H.
    subst cs. apply H; assumption. }
  assert (Hstored1 : forall x, Dict.member x (nodes g) = true \/ In x ids ->
                               Dict.member x (nodes g1) = true).
  { intros x [Hx|Hx]; simpl; rewrite member_app.
    - now rewrite Hx.
    - apply orb_true_iff. right. apply member_In_keys.
      now rewrite keys_combine_new. }
  assert (Hget1 : Dict.get n (nodes g1) = Some nd).
  { simpl. now rewrite get_app_left. }
  (* the added edges *)
  set (E1 := map (fun p => rev p ++ [first]) (ancestry nd)).
  set (E2 := consecutive ids).
  set (E3 := map (fun c => [last_piece; c]) children).
  assert (HE1 : Forall (fun e => (2 <= List.length e /\
                                  Forall (fun x => Dict.member x (nodes g1) = true) e) /\
                                 ~ In n e) E1).
  { apply Forall_forall. intros e He. apply in_map_iff in He.
    destruct He as (p & <- & Hp). destruct (Hanc p Hp) as [Hne Hp'].
    repeat split.
    - rewrite length_app, length_rev. simpl. destruct p; [contradiction|simpl; lia].
    - apply Forall_app. split.
      + apply Forall_forall. intros x Hx. apply in_rev in Hx.
        apply Hstored1. left. now apply Hp'.
      + constructor; [|constructor]. apply Hstored1. now right.
    - intros Hin. apply in_app_or in Hin. destruct Hin as [Hin|[<-|[]]].
      + apply in_rev in Hin. now apply (Hp' n Hin).
      + contradiction. }
  assert (HE2 : Forall (fun e => (2 <= List.length e /\
                                  Forall (fun x => Dict.member x (nodes g1) = true) e) /\
                                 ~ In n e) E2).
  { apply Forall_forall. intros e He. apply consecutive_In in He.
    destruct He as (a & b & -> & Ha & Hb). repeat split.
    - simpl. lia.
    - repeat constructor; apply Hstored1; now right.
    - intros [<-|[<-|[]]]; contradiction. }
  assert (HE3 : Forall (fun e => (2 <= List.length e /\
                                  Forall (fun x => Dict.member x (nodes g1) = true) e) /\
                                 ~ In n e) E3).
  { apply Forall_forall. intros e He. apply in_map_iff in He.
    destruct He as (c & <- & Hc). destruct (Hchild c Hc) as [Hcn Hcm].
    repeat split.
    - simpl. lia.
    - repeat constructor; apply Hstored1; auto.
    - intros [<-|[<-|[]]]; [contradiction|now apply Hcn]. }
  assert (Hweaken : forall (E : list path) (h : Hypergraph),
             skeleton h = skeleton g1 ->
             Forall (fun e => (2 <= List.length e /\
                               Forall (fun x => Dict.member x (nodes g1) = true) e) /\
                              ~ In n e) E ->
             Forall (fun e => 2 <= List.length e /\
                              Forall (fun x => Dict.member x (nodes h) = true) e) E).
  { intros E h Hsk HE. eapply Forall_impl; [|exact HE].
    intros e [[Hl Hs] _]. split; [exact Hl|].
    eapply Forall_impl; [|exact Hs]. intros x Hx.
    now rewrite (same_skeleton_member g1 h x Hsk). }
  assert (Hwithout : forall E,
             Forall (fun e => (2 <= List.length e /\
                               Forall (fun x => Dict.member x (nodes g1) = true) e) /\
                              ~ In n e) E ->
             Forall (fun e => 2 <= List.length e /\ ~ In n e) E).
  { intros E HE. eapply Forall_impl; [|exact HE]. intros e [[Hl _] Hn]. now split. }
  destruct (add_edges_frame E1 g1 (Hweaken E1 g1 eq_refl HE1))
    as (g2 & Hrun2 & Hedges2 & Hskel2 & _).
  destruct (add_edges_frame E2 g2 (Hweaken E2 g2 Hskel2 HE2))
    as (g3 & Hrun3 & Hedges3 & Hskel3 & _).
  rewrite Hskel2 in Hskel3.
  destruct (add_edges_frame E3 g3 (Hweaken E3 g3 Hskel3 HE3))
    as (g4 & Hrun4 & Hedges4 & Hskel4 & _).
  rewrite Hskel3 in Hskel4.
  assert (Hrelink : relink_parents (relink_budget (ancestry nd)) 0 n first g1 =
                    (Ok tt, g2)).
  { rewrite <- Hrun2.
    apply (relink_parents_run n first (ancestry nd) (ancestry nd)
             (relink_budget (ancestry nd)) 0 g1 nd eq_refl Hget1 eq_refl
             (relink_budget_enough _)).
    eapply Forall_impl; [|exact HE1]. intros e [Hok Hn]. split; [exact Hok|].
    intros Hin. apply Hn. now apply in_tl. }
  assert (Hchildren3 : get_children g3 n = Ok children).
  { unfold get_children. rewrite Hedges3, Hedges2.
    change (edges g1) with (edges g). rewrite <- app_assoc.
    rewrite (children_in_app _ _ n children Hch).
    rewrite children_in_without; [now rewrite app_nil_r|].
    apply Forall_app. split; now apply Hwithout. }
  assert (Hm4 : Dict.member n (nodes g4) = true).
  { rewrite (same_skeleton_member g1 g4 n Hskel4). apply Hstored1. now left. }
  exists first, last_piece.
  eexists. split; [exact Hhd|]. split; [exact Hlast|]. split.
  { unfold split.
    rewrite (bind_ok _ _ g g nd); [|unfold lookup; now rewrite Hget].
    rewrite (bind_ok _ _ g g1 ids Hpieces). rewrite Hhd, Hlast.
    rewrite (bind_ok _ _ g1 g2 tt Hrelink).
    rewrite (bind_ok _ _ g2 g3 tt); [|now rewrite link_pieces_run].
    rewrite (bind_ok _ _ g3 g3 children); [|unfold lift; now rewrite Hchildren3].
    rewrite (bind_ok _ _ g3 g4 tt); [|now rewrite reparent_run].
    rewrite (bind_ok _ _ g4 _ tt (remove_node_run n g4 Hm4)).
    reflexivity. }
  assert (Hedges : edges g4 = edges g ++ split_edges nd ids children first last_piece).
  { rewrite Hedges4, Hedges3, Hedges2. change (edges g1) with (edges g).
    unfold split_edges. fold E1 E2 E3. now rewrite <- !app_assoc. }
  split; [|split].
  - rewrite skeleton_after_removal.
    match goal with
    | |- context [skeleton (mkGraph (nodes g4) ?es)] =>
        change (skeleton (mkGraph (nodes g4) es)) with (skeleton g4)
    end.
    rewrite Hskel4. unfold skeleton at 1. simpl nodes. rewrite map_app.
    rewrite skeleton_new_nodes. fold (skeleton g).
    unfold Dict.remove. rewrite filter_app. f_equal.
    apply filter_all. apply Forall_forall. intros kc Hkc.
    assert (Hk : In (fst kc) ids).
    { rewrite <- (keys_combine_contents ids cs Hlen).
      apply in_map. exact Hkc. }
    apply negb_true_iff, String.eqb_neq. intros ->. contradiction.
  - simpl edges. rewrite Hedges, filter_app. f_equal.
    apply filter_all. apply Forall_forall. intros e He.
    assert (Hn : ~ In n e).
    { unfold split_edges in He. fold E1 E2 E3 in He.
      pose proof (Hwithout _ HE1) as H1. pose proof (Hwithout _ HE2) as H2.
      pose proof (Hwithout _ HE3) as H3.
      rewrite Forall_forall in H1, H2, H3.
      apply in_app_or in He. destruct He as [He|He]; [now apply H1|].
      apply in_app_or in He. destruct He as [He|He]; [now apply H2|now apply H3]. }
    apply negb_true_iff. destruct (mem n e) eqn:E; [|reflexivity].
    apply mem_In in E. contradiction.
  - intros c Hc. destruct (Hchild c Hc) as [Hcn Hcm].
    unfold ancestry_of. simpl nodes. rewrite get_clear_items.
    rewrite get_remove_other by exact Hcn.
    assert (Hc4 : Dict.member c (nodes g4) = true).
    { rewrite (same_skeleton_member g1 g4 c Hskel4). apply Hstored1. now left. }
    destruct (member_get c _ Hc4) as [cnd Hcnd]. rewrite Hcnd.
    destruct (children_in_sound (edges g) n c children Hch Hc) as [tail Htail].
    assert (Hex : existsb (fun e => mem c (tl e)) (filter (mem n) (edges g4)) = true).
    { apply existsb_exists. exists (n :: c :: tail). split.
      - apply filter_In. split.
        + rewrite Hedges. apply in_or_app. now left.
        + apply mem_In. now left.
      - apply mem_In. now left. }
    rewrite Hex. reflexivity.
Qed.

(** ** Slices *)

Lemma substring_app (s : string) :
  forall n m k,
    (substring n m s ++ substring (n + m) k s)%string = substring n (m + k) s.
Proof.
  induction s as [|c s IH]; intros n m k.
  - destruct n, m, k; reflexivity.
  - destruct n as [|n].
    + destruct m as [|m]; [reflexivity|].
      simpl. f_equal. apply (IH 0 m k).
    + simpl. apply IH.
Qed.

Lemma substring_whole (s : string) : substring 0 (String.length s) s = s.
Proof. induction s as [|c s IH]; simpl; [reflexivity|]. now rewrite IH. Qed.

Lemma join_cons (x : string) (l : list string) :
  l <> [] -> join (x :: l) = (x ++ join l)%string.
Proof. destruct l; [contradiction|reflexivity]. Qed.

Lemma pieces_nonempty (s : string) (start : Z) (bs : list Z) :
  pieces s start bs <> [].
Proof. destruct bs; discriminate. Qed.

Lemma clamp_nonneg (len : nat) (a : Z) :
  (0 <= a)%Z -> clamp_index len a = Nat.min (Z.to_nat a) len.
Proof.
  intros Ha. unfold clamp_index.
  destruct (a <? 0)%Z eqn:E; [|reflexivity]. apply Z.ltb_lt in E. lia.
Qed.

(** With offsets in increasing order from a non-negative start, the pieces
    are adjacent and cover the content from the start on. *)
Lemma pieces_join (s : string) (bs : list Z) :
  forall start,
    (0 <= start)%Z -> Sorted Z.le (start :: bs) ->
    join (pieces s start bs) = slice_from s start.
Proof.
  induction bs as [|b bs IH]; intros start Hpos Hsorted; [reflexivity|].
  cbn [pieces]. rewrite join_cons by apply pieces_nonempty.
  inversion Hsorted as [|? ? Hrest Hhd]; subst.
  inversion Hhd as [|? ? Hle]; subst.
  rewrite IH; [|lia|exact Hrest].
  unfold slice, slice_from. rewrite !clamp_nonneg by lia.
  set (len := String.length s).
  set (lo := Nat.min (Z.to_nat start) len).
  set (hi := Nat.min (Z.to_nat b) len).
  assert (Hlohi : lo <= hi) by (unfold lo, hi; lia).
  replace hi with (lo + (hi - lo)) at 2 by lia.
  rewrite substring_app. f_equal. unfold hi. lia.
Qed.

Lemma insert_Z_sorted (x : Z) (l : list Z) :
  Sorted Z.le l -> Sorted Z.le (insert_Z x l).
Proof.
  induction l as [|y l IH]; intros Hs; simpl.
  - repeat constructor.
  - destruct (x <=? y)%Z eqn:E.
    + apply Z.leb_le in E. constructor; [exact Hs|]. now constructor.
    + apply Z.leb_gt in E. inversion Hs as [|? ? Hl Hhd]; subst.
      constructor; [now apply IH|].
      destruct l as [|z l]; simpl.
      * constructor. lia.
      * destruct (x <=? z)%Z; constructor; [lia|].
        inversion Hhd; subst. assumption.
Qed.

Lemma sort_Z_sorted (l : list Z) : Sorted Z.le (sort_Z l).
Proof.
  induction l as [|x l IH]; simpl; [constructor|]. now apply insert_Z_sorted.
Qed.

Lemma offsets_sorted (boundary : boundary_t) : Sorted Z.le (offsets boundary).
Proof. destruct boundary; apply sort_Z_sorted. Qed.

Lemma piece_contents_join (nd : Node) (boundary : boundary_t) :
  Forall (fun b => (0 <= b)%Z) (offsets boundary) ->
  join (piece_contents nd boundary) = content nd.
Proof.
  intros Hpos. unfold piece_contents. rewrite pieces_join.
  - unfold slice_from. rewrite clamp_nonneg by lia. simpl.
    rewrite Nat.sub_0_r. apply substring_whole.
  - lia.
  - constructor; [apply offsets_sorted|].
    destruct (offsets boundary) as [|b bs]; constructor.
    now inversion Hpos.
Qed.

Lemma member_remove_same {V : Type} (n : node_id) (d : Dict.t V) :
  Dict.member n (Dict.remove n d) = false.
Proof. unfold Dict.member. now rewrite get_remove_same. Qed.

Lemma piece_ids_length (uuid : nat -> node_id) (nd : Node) (boundary : boundary_t) :
  List.length (piece_ids uuid nd boundary) = S (List.length (offsets boundary)).
Proof.
  unfold piece_ids, piece_contents. now rewrite length_map, length_seq, pieces_length.
Qed.

(** C6 (amended). Let [n] be a stored node that occurs in none of its own
    ancestry entries and is not its own child, in a graph where those
    entries are non-empty and over stored nodes, [get_children n] is defined
    and the children are stored, the drawn identifiers being fresh and
    pairwise distinct.  Then [split n b] returns the [len(b)+1] new
    identifiers in content order; the node mapping becomes the old one
    without [n] followed by the new nodes, which hold the slices of the
    content between consecutive sorted offsets (adjacent and covering the
    content when the offsets are non-negative) with empty metadata; the edge
    sequence becomes the old edges that do not contain [n], then one edge
    [reverse(entry) + [first]] per ancestry entry of [n], then one edge per
    pair of consecutive pieces, then one edge [[last, c]] per child [c].
    Splitting a fresh node ["Hello World!"] at 6 gives ["Hello "] and
    ["World!"] linked by the single edge [[first, second]]. *)
Theorem split_rewires_around_pieces :
  (forall (uuid : nat -> node_id) (g : Hypergraph) (n : node_id) (nd : Node)
          (boundary : boundary_t) (children : list node_id),
      Dict.get n (nodes g) = Some nd ->
      NoDup (piece_ids uuid nd boundary) ->
      (forall x, In x (piece_ids uuid nd boundary) ->
                 Dict.member x (nodes g) = false) ->
      (forall p, In p (ancestry nd) ->
                 p <> [] /\
                 forall x, In x p -> x <> n /\ Dict.member x (nodes g) = true) ->
      get_children g n = Ok children ->
      (forall c, In c children -> c <> n /\ Dict.member c (nodes g) = true) ->
      exists first last_piece g',
        split uuid n boundary g = (Ok (piece_ids uuid nd boundary), g') /\
        List.length (piece_ids uuid nd boundary) = S (List.length (offsets boundary)) /\
        hd_error (piece_ids uuid nd boundary) = Some first /\
        last_error (piece_ids uuid nd boundary) = Some last_piece /\
        skeleton g' =
        Dict.remove n (skeleton g) ++
        map (fun kc => (fst kc, (snd kc, [])))
            (combine (piece_ids uuid nd boundary) (piece_contents nd boundary)) /\
        Dict.get n (nodes g') = None /\
        (Forall (fun b => (0 <= b)%Z) (offsets boundary) ->
         join (piece_contents nd boundary) = content nd) /\
        edges g' =
        filter (fun e => negb (mem n e)) (edges g) ++
        map (fun p => rev p ++ [first]) (ancestry nd) ++
        consecutive (piece_ids uuid nd boundary) ++
        map (fun c => [last_piece; c]) children) /\
  split test_uuid "h" (Offset 6%Z) hello =
  (Ok ["u"; "u'"],
   mkGraph [("u", mkNode "Hello " [] []); ("u'", mkNode "World!" [] [["u"]])]
           [["u"; "u'"]]).
Proof.
  split; [|reflexivity].
  intros uuid g n nd boundary children Hget Hnd Hfresh Hanc Hch Hchild.
  destruct (split_final_state uuid g n nd boundary children
              Hget Hnd Hfresh Hanc Hch Hchild)
    as (first & last_piece & g' & Hhd & Hlast & Hrun & Hskel & Hedges & _).
  exists first, last_piece, g'.
  split; [exact Hrun|]. split; [apply piece_ids_length|].
  split; [exact Hhd|]. split; [exact Hlast|]. split; [exact Hskel|].
  split; [|split; [apply piece_contents_join|exact Hedges]].
  assert (Hm : Dict.member n (nodes g') = false).
  { rewrite <- member_skeleton, Hskel, member_app, member_remove_same. simpl.
    apply member_false_keys. unfold Dict.keys.
    rewrite keys_combine_contents.
    - intros Hin. apply Hfresh in Hin. unfold Dict.member in Hin.
      rewrite Hget in Hin. discriminate.
    - unfold piece_ids. now rewrite length_map, length_seq. }
  unfold Dict.member in Hm. now destruct (Dict.get n (nodes g')).
Qed.

Lemma chain3_eq :
  chain3 =
  mkGraph
    [("p", mkNode "P" [] []); ("x", mkNode "Hello World!" [] [["p"]]);
     ("c", mkNode "C" [] [["x"]])]
    [["p"; "x"]; ["x"; "c"]].
Proof. reflexivity. Qed.

Lemma chain3_split_ready :
  NoDup (piece_ids test_uuid (mkNode "Hello World!" [] [["p"]]) (Offset 6%Z)) /\
  (forall x, In x (piece_ids test_uuid (mkNode "Hello World!" [] [["p"]]) (Offset 6%Z)) ->
             Dict.member x (nodes chain3) = false) /\
  (forall p, In p (ancestry (mkNode "Hello World!" [] [["p"]])) ->
             p <> [] /\
             forall x, In x p -> x <> "x" /\ Dict.member x (nodes chain3) = true) /\
  (forall c, In c ["c"] -> c <> "x" /\ Dict.member c (nodes chain3) = true).
Proof.
  split; [|split; [|split]].
  - vm_compute. repeat constructor; simpl; intuition discriminate.
  - intros x Hx. vm_compute in Hx. destruct Hx as [<-|[<-|[]]]; reflexivity.
  - intros p [<-|[]]. split; [discriminate|].
    intros x [<-|[]]. split; [discriminate|reflexivity].
  - intros c [<-|[]]. split; [discriminate|reflexivity].
Qed.

Lemma split_rewires_around_pieces_witness :
  exists first last_piece g',
    split test_uuid "x" (Offset 6%Z) chain3 = (Ok ["u"; "u'"], g') /\
    edges g' = [["p"; first]; ["u"; "u'"]; [last_piece; "c"]] /\
    Dict.get "x" (nodes g') = None.
Proof.
  destruct (proj1 split_rewires_around_pieces test_uuid chain3 "x"
              (mkNode "Hello World!" [] [["p"]]) (Offset 6%Z) ["c"]
              eq_refl
              (proj1 chain3_split_ready)
              (proj1 (proj2 chain3_split_ready))
              (proj1 (proj2 (proj2 chain3_split_ready)))
              eq_refl
              (proj2 (proj2 (proj2 chain3_split_ready))))
    as (first & last_piece & g' & Hrun & _ & _ & _ & _ & Hgone & _ & Hedges).
  exists first, last_piece, g'. split; [exact Hrun|]. split; [exact Hedges|exact Hgone].
Defined.

(** C6 as stated fails on a node linked to itself and split at offsets of
    both signs.  After [add_edge([a, a])] the only ancestry entry of [a] is
    [[a]] and its only child is [a]; [split a [0, -1]] sorts the offsets to
    [[-1, 0]] and creates pieces holding ["a"], the empty string and ["ab"],
    which overlap and do not reassemble the content ["ab"]; it ends with the
    edge sequence [[u, u'], [u', u''], [u'', u]]: the edge re-adding the
    entry, [[a, u]], is not there, and the last piece is linked to the first
    piece, which was no child of [a]. *)
Lemma split_self_loop_mixed_offsets :
  ancestry_of self_loop "a" = Some [["a"]] /\
  get_children self_loop "a" = Ok ["a"] /\
  split test_uuid "a" (Offsets [0; -1]%Z) self_loop =
  (Ok ["u"; "u'"; "u''"],
   mkGraph [("u", mkNode "a" [] []); ("u'", mkNode EmptyString [] [["u"]]);
            ("u''", mkNode "ab" [] [["u'"]])]
           [["u"; "u'"]; ["u'"; "u''"]; ["u''"; "u"]]) /\
  join ["a"; EmptyString; "ab"] <> "ab" /\
  ~ In ["a"; "u"]
       (edges (run (split test_uuid "a" (Offsets [0; -1]%Z)) self_loop)) /\
  In ["u''"; "u"]
     (edges (run (split test_uuid "a" (Offsets [0; -1]%Z)) self_loop)) /\
  ~ In "u" ["a"].
Proof.
  repeat split; try reflexivity.
  - discriminate.
  - vm_compute. intuition discriminate.
  - vm_compute. tauto.
  - simpl. intuition discriminate.
Qed.

(** C10 as stated fails when the child is the split node itself: on the
    graph made by [add_edge([a, a])] the hyperedge [[a, a]] is stored, and
    after [split a] the re-parenting edge [[u', a]] is not in the edge
    sequence and [a] has no ancestry cache, being stored no more. *)
Lemma split_self_child_drops_reparenting_edge :
  In ["a"; "a"] (edges self_loop) /\
  Dict.member "a" (nodes self_loop) = true /\
  fst (split test_uuid "a" (Offset 1%Z) self_loop) = Ok ["u"; "u'"] /\
  ~ In ["u'"; "a"] (edges (run (split test_uuid "a" (Offset 1%Z)) self_loop)) /\
  ancestry_of (run (split test_uuid "a" (Offset 1%Z)) self_loop) "a" = None.
Proof.
  repeat split; try reflexivity.
  - vm_compute. tauto.
  - vm_compute. intuition discriminate.
Qed.

(** ** Acyclic caches are enough for the enumeration-based queries *)

Lemma ancestries_at_stored (g : Hypergraph) (rank : node_id -> nat) :
  ancestry_acyclic g rank -> ancestry_closed g ->
  forall n q x,
    Dict.member n (nodes g) = true ->
    In q (ancestries_at rank g n) -> In x q ->
    Dict.member x (nodes g) = true.
Proof.
  intros Hac Hclosed n. remember (rank n) as k eqn:Hk. revert n Hk.
  induction k as [k IH] using lt_wf_ind. intros n Hk q x Hm Hq Hx.
  destruct (member_get _ _ Hm) as [nd Hget].
  rewrite (ancestries_at_equation g rank Hac n nd Hget) in Hq.
  destruct (is_root nd).
  - destruct Hq as [<-|[]]. destruct Hx.
  - apply in_flat_map in Hq. destruct Hq as (p & Hp & Hq).
    destruct (Hac n nd p Hget Hp) as (a & Hlast & Hma & Hlt).
    unfold through_entry in Hq. rewrite Hlast in Hq.
    apply in_map_iff in Hq. destruct Hq as (q' & <- & Hq').
    apply in_app_or in Hx. destruct Hx as [Hx|Hx].
    + exact (Hclosed n nd p x Hget Hp Hx).
    + apply (IH (rank a) ltac:(lia) a eq_refl q' x Hma Hq' Hx).
Qed.

Lemma content_lineage_returns_when_acyclic (depth : nat) (g : Hypergraph)
  (rank : node_id -> nat) (target : string) :
  NoDup (Dict.keys (nodes g)) ->
  ancestry_acyclic g rank -> ancestry_closed g ->
  (forall n, Dict.member n (nodes g) = true -> rank n < depth) ->
  exists r, content_lineage depth g target = Ok r.
Proof.
  intros Hnd Hac Hclosed Hdepth. unfold content_lineage.
  destruct (content_lineage_in_spec depth g target (nodes g))
    as [[Hrun _]|(before & n & nd & after & ls & earlier & l & later &
                  _ & _ & _ & _ & Hrun & _)]; eauto.
  intros n nd Hin _.
  assert (Hm : Dict.member n (nodes g) = true).
  { apply member_In_keys. unfold Dict.keys. apply in_map_iff. now exists (n, nd). }
  exists (lineages_at rank g n). split.
  - apply get_ancestry_at; auto.
  - intros l x Hl Hx. unfold lineages_at in Hl. apply in_map_iff in Hl.
    destruct Hl as (q & <- & Hq). destruct Hx as [<-|Hx]; [exact Hm|].
    exact (ancestries_at_stored g rank Hac Hclosed n q x Hm Hq Hx).
Qed.

(** ** The walk over the live cache in [split] always ends within its bound *)

Lemma append_ancestry_success (n : node_id) (p : path) (g g1 : Hypergraph) :
  append_ancestry n p g = (Ok tt, g1) ->
  g1 = set_nodes g (Dict.adjust n (push_ancestry p) (nodes g)).
Proof.
  unfold append_ancestry, bind, lookup, modify.
  destruct (Dict.get n (nodes g)); [|discriminate]. now intros [= <-].
Qed.

Lemma add_edge_loop_success (e : path) :
  forall (ixs : list nat) (g g1 : Hypergraph),
    for_each ixs
      (fun i => n <- index e i ;; append_ancestry n (rev (firstn i e))) g =
    (Ok tt, g1) ->
    g1 = set_nodes g (map (extend_node e ixs) (nodes g)).
Proof.
  induction ixs as [|i ixs IH]; intros g g1 H.
  - simpl in H. injection H as <-. unfold set_nodes.
    rewrite extend_node_nil. now destruct g.
  - cbn [for_each] in H. unfold bind at 1 in H. unfold bind at 1 in H.
    unfold index in H. destruct (nth_error e i) as [n|] eqn:Hn; [|discriminate].
    unfold ret at 1 in H.
    destruct (append_ancestry n (rev (firstn i e)) g) as [[[]|ex] g'] eqn:Hap;
      [|discriminate].
    apply append_ancestry_success in Hap. apply IH in H. subst g1 g'.
    unfold set_nodes. simpl. f_equal.
    rewrite (adjust_push_extend e i n _ Hn).
    apply (extend_node_compose e [i] ixs).
Qed.

Lemma get_extend (e : path) (ixs : list nat) (k : node_id) (d : Dict.t Node) :
  Dict.get k (map (extend_node e ixs) d) =
  option_map (fun nd => with_ancestry nd (ancestry nd ++ entries_at e k ixs))
             (Dict.get k d).
Proof.
  induction d as [|[k' v] d IH]; simpl; [reflexivity|].
  destruct (String.eqb k k') eqn:Hk; [|exact IH].
  apply String.eqb_eq in Hk. now subst k'.
Qed.

(** What a successful [add_edge] does to the cache of a node that is not the
    last element of the edge: it appends the entries of the interior
    positions. *)
Lemma add_edge_success_other (e : path) (g g1 : Hypergraph) (n z : node_id)
  (nd : Node) :
  add_edge e g = (Ok tt, g1) ->
  last_error e = Some z -> n <> z ->
  Dict.get n (nodes g) = Some nd ->
  Dict.get n (nodes g1) =
  Some (with_ancestry nd
          (ancestry nd ++ entries_at e n (seq 1 (List.length e - 1 - 1)))).
Proof.
  intros Hrun Hlast Hne Hget. unfold add_edge in Hrun.
  unfold bind at 1 in Hrun. unfold modify at 1 in Hrun.
  unfold bind at 1 in Hrun.
  match type of Hrun with
  | context [for_each ?ixs ?body ?h] =>
      destruct (for_each ixs body h) as [[[]|ex] g'] eqn:Hloop; [|discriminate]
  end.
  apply add_edge_loop_success in Hloop. rewrite Hlast in Hrun.
  apply append_ancestry_success in Hrun. subst g1 g'. simpl.
  rewrite get_adjust.
  assert (Hzn : String.eqb z n = false).
  { apply String.eqb_neq. congruence. }
  rewrite Hzn, get_extend, Hget. reflexivity.
Qed.

Lemma relink_budget_app (a b : list path) :
  relink_budget (a ++ b) = relink_budget a + relink_budget b.
Proof.
  unfold relink_budget. now rewrite map_app, list_sum_app.
Qed.

Lemma relink_budget_zero (l : list path) : relink_budget l = 0 -> l = [].
Proof.
  destruct l as [|p l]; [reflexivity|]. unfold relink_budget. simpl.
  assert (H : Nat.pow 2 (List.length p) <> 0) by (apply Nat.pow_nonzero; lia).
  lia.
Qed.

(** The entries of the positions [1..m] weigh less than [2 ^ (m + 1)]. *)
Lemma entries_weight (e : path) (n : node_id) (m : nat) :
  relink_budget (entries_at e n (seq 1 m)) + 2 <= Nat.pow 2 (S m).
Proof.
  induction m as [|m IH]; [unfold relink_budget; simpl; lia|].
  rewrite seq_S, entries_at_app, relink_budget_app.
  assert (Hone : relink_budget (entries_at e n [1 + m]) <= Nat.pow 2 (S m)).
  { unfold entries_at. cbn [flat_map]. rewrite app_nil_r.
    destruct (nth_error e (1 + m)); [|apply Nat.le_0_l].
    destruct (String.eqb _ n); [|apply Nat.le_0_l].
    unfold relink_budget. cbn [map list_sum fold_right].
    rewrite Nat.add_0_r.
    apply Nat.pow_le_mono_r; [lia|].
    rewrite length_rev, length_firstn. lia. }
  change (Nat.pow 2 (S (S m))) with (2 * Nat.pow 2 (S m)). lia.
Qed.

Lemma last_error_snoc {A : Type} (l : list A) (x : A) :
  last_error (l ++ [x]) = Some x.
Proof.
  induction l as [|y l IH]; [reflexivity|].
  simpl. destruct (l ++ [x]) eqn:E; [destruct l; discriminate|exact IH].
Qed.

Lemma nth_error_skipn {A : Type} (i : nat) (l : list A) (x : A) :
  nth_error l i = Some x -> skipn i l = x :: skipn (S i) l.
Proof.
  revert l. induction i as [|i IH]; intros [|y l] H; try discriminate.
  - now injection H as ->.
  - simpl in H. simpl. now apply IH.
Qed.

Lemma nth_error_none_skipn {A : Type} (i : nat) (l : list A) :
  nth_error l i = None -> skipn i l = [].
Proof.
  intros H. apply skipn_all2. now apply nth_error_None.
Qed.

(** A larger bound does not change the walk: from any state where the cache
    of [n] weighs at most the bound, the walk stops by itself. *)
Lemma relink_budget_suffices (n first : node_id) :
  first <> n ->
  forall (b b' i : nat) (g : Hypergraph) (nd : Node),
    Dict.get n (nodes g) = Some nd ->
    relink_budget (skipn i (ancestry nd)) <= b ->
    relink_budget (skipn i (ancestry nd)) <= b' ->
    relink_parents b i n first g = relink_parents b' i n first g.
Proof.
  intros Hfirst. induction b as [|b IH]; intros b' i g nd Hget Hb Hb'.
  - assert (Hnil : skipn i (ancestry nd) = []) by (apply relink_budget_zero; lia).
    apply skipn_nil_nth in Hnil. destruct b'; [reflexivity|].
    cbn [relink_parents]. unfold bind, lookup. now rewrite Hget, Hnil.
  - destruct (nth_error (ancestry nd) i) as [p|] eqn:Hnth.
    + rewrite (nth_error_skipn i _ p Hnth) in Hb, Hb'.
      change (p :: skipn (S i) (ancestry nd))
        with ([p] ++ skipn (S i) (ancestry nd)) in Hb, Hb'.
      rewrite relink_budget_app in Hb, Hb'.
      assert (Hp : relink_budget [p] = Nat.pow 2 (List.length p)).
      { unfold relink_budget. simpl. lia. }
      assert (Hpos : Nat.pow 2 (List.length p) <> 0) by (apply Nat.pow_nonzero; lia).
      destruct b' as [|b']; [lia|].
      cbn [relink_parents]. unfold bind at 1 3. unfold lookup.
      rewrite Hget, Hnth. unfold bind.
      destruct (add_edge (rev p ++ [first]) g) as [[[]|ex] g1] eqn:Hadd;
        [|reflexivity].
      pose proof (add_edge_success_other _ g g1 n first nd Hadd
                    (last_error_snoc (rev p) first) (not_eq_sym Hfirst) Hget)
        as Hget1.
      rewrite length_app, length_rev in Hget1. simpl List.length in Hget1.
      set (extra := entries_at (rev p ++ [first]) n
                      (seq 1 (List.length p + 1 - 1 - 1))) in Hget1.
      assert (Hextra : relink_budget extra < Nat.pow 2 (List.length p)).
      { unfold extra. destruct (List.length p) as [|m] eqn:Hlen.
        - unfold relink_budget. simpl. lia.
        - replace (S m + 1 - 1 - 1) with m by lia.
          pose proof (entries_weight (rev p ++ [first]) n m). lia. }
      assert (Hskip : skipn (S i) (ancestry nd ++ extra) =
                      skipn (S i) (ancestry nd) ++ extra).
      { rewrite skipn_app.
        assert (Hlt : i < List.length (ancestry nd)).
        { apply nth_error_Some. congruence. }
        replace (S i - List.length (ancestry nd)) with 0 by lia. reflexivity. }
      apply (IH b' (S i) g1 _ Hget1); simpl ancestry;
        rewrite Hskip, relink_budget_app; lia.
    + destruct b'; cbn [relink_parents]; unfold bind, lookup;
        rewrite Hget, Hnth; reflexivity.
Qed.

(** ** split on a node that may occur in its own lineage *)

Lemma in_firstn {A : Type} (x : A) (j : nat) (l : list A) :
  In x (firstn j l) -> In x l.
Proof.
  intros H. rewrite <- (firstn_skipn j l). apply in_or_app. now left.
Qed.

Lemma entries_at_In (e : path) (n : node_id) (ixs : list nat) (q : path) :
  In q (entries_at e n ixs) ->
  exists j, In j ixs /\ nth_error e j = Some n /\ q = rev (firstn j e).
Proof.
  unfold entries_at. rewrite in_flat_map. intros (j & Hj & Hq).
  destruct (nth_error e j) as [m|] eqn:Hm; [|destruct Hq].
  destruct (String.eqb m n) eqn:E; [|destruct Hq].
  apply String.eqb_eq in E. subst m. destruct Hq as [<-|[]]. now exists j.
Qed.

(** The walk over the live cache returns normally; it adds edges of length at
    least two over stored nodes and changes no key, content or metadata. *)
Lemma relink_parents_walk (n first : node_id) :
  first <> n ->
  forall (b i : nat) (g : Hypergraph) (nd : Node),
    Dict.get n (nodes g) = Some nd ->
    Dict.member first (nodes g) = true ->
    (forall p, In p (ancestry nd) ->
               p <> [] /\ forall x, In x p -> Dict.member x (nodes g) = true) ->
    relink_budget (skipn i (ancestry nd)) <= b ->
    exists g2 added,
      relink_parents b i n first g = (Ok tt, g2) /\
      skeleton g2 = skeleton g /\
      edges g2 = edges g ++ added /\
      Forall (fun e => 2 <= List.length e /\
                       Forall (fun x => Dict.member x (nodes g) = true) e) added.
Proof.
  intros Hfirst. induction b as [|b IH]; intros i g nd Hget Hmf Hentries Hb.
  - exists g, []. rewrite app_nil_r. repeat split; auto.
  - destruct (nth_error (ancestry nd) i) as [p|] eqn:Hnth.
    2:{ exists g, []. rewrite app_nil_r. repeat split; auto.
        cbn [relink_parents]. unfold bind, lookup. now rewrite Hget, Hnth. }
    assert (Hp : In p (ancestry nd)) by (eapply nth_error_In; eauto).
    destruct (Hentries p Hp) as [Hpne Hpst].
    set (e := rev p ++ [first]).
    assert (Hlen : 2 <= List.length e).
    { unfold e. rewrite length_app, length_rev. simpl.
      destruct p; [contradiction|simpl; lia]. }
    assert (He : Forall (fun x => Dict.member x (nodes g) = true) e).
    { unfold e. apply Forall_app. split.
      - apply Forall_forall. intros x Hx. apply in_rev in Hx. now apply Hpst.
      - now repeat constructor. }
    destruct (add_edge_frame e g Hlen He) as (g1 & Hrun & Hedges & Hskel & _).
    pose proof (add_edge_success_other e g g1 n first nd Hrun
                  (last_error_snoc (rev p) first) (not_eq_sym Hfirst) Hget)
      as Hget1.
    set (extra := entries_at e n (seq 1 (List.length e - 1 - 1))) in Hget1.
    assert (Hweight : relink_budget extra < Nat.pow 2 (List.length p)).
    { unfold extra, e. rewrite length_app, length_rev. simpl List.length.
      destruct (List.length p) as [|m] eqn:Hlp.
      - unfold relink_budget. simpl. lia.
      - replace (S m + 1 - 1 - 1) with m by lia.
        pose proof (entries_weight (rev p ++ [first]) n m). lia. }
    assert (Hskip : skipn (S i) (ancestry nd ++ extra) =
                    skipn (S i) (ancestry nd) ++ extra).
    { rewrite skipn_app.
      assert (Hlt : i < List.length (ancestry nd)).
      { apply nth_error_Some. congruence. }
      replace (S i - List.length (ancestry nd)) with 0 by lia. reflexivity. }
    assert (Hb1 : relink_budget (skipn (S i) (ancestry nd ++ extra)) <= b).
    { rewrite Hskip, relink_budget_app.
      rewrite (nth_error_skipn i _ p Hnth) in Hb.
      change (p :: skipn (S i) (ancestry nd))
        with ([p] ++ skipn (S i) (ancestry nd)) in Hb.
      rewrite relink_budget_app in Hb.
      assert (H1 : relink_budget [p] = Nat.pow 2 (List.length p)).
      { unfold relink_budget. simpl. lia. }
      lia. }
    destruct (IH (S i) g1 _ Hget1) as (g2 & added & Hwalk & Hskel2 & Hedges2 & Hadded).
    + now rewrite (same_skeleton_member g g1 first Hskel).
    + simpl ancestry. intros q Hq. apply in_app_or in Hq.
      destruct Hq as [Hq|Hq].
      * destruct (Hentries q Hq) as [Hqne Hqst]. split; [exact Hqne|].
        intros x Hx. rewrite (same_skeleton_member g g1 x Hskel). now apply Hqst.
      * apply entries_at_In in Hq. destruct Hq as (j & Hj & Hnj & ->).
        apply in_seq in Hj. split.
        -- intros Hnil. apply (f_equal (@List.length node_id)) in Hnil.
           rewrite length_rev, length_firstn in Hnil. simpl in Hnil. lia.
        -- intros x Hx. apply in_rev, in_firstn in Hx.
           rewrite (same_skeleton_member g g1 x Hskel).
           rewrite Forall_forall in He. now apply He.
    + exact Hb1.
    + exists g2, (e :: added).
      split; [|split; [|split]].
      * cbn [relink_parents]. unfold bind at 1. unfold lookup.
        rewrite Hget, Hnth. fold e. rewrite (bind_ok _ _ g g1 tt Hrun). exact Hwalk.
      * now rewrite Hskel2.
      * rewrite Hedges2, Hedges, <- app_assoc. reflexivity.
      * constructor; [now split|].
        eapply Forall_impl; [|exact Hadded]. intros e' [Hl Hs]. split; [exact Hl|].
        eapply Forall_impl; [|exact Hs]. intros x Hx.
        now rewrite <- (same_skeleton_member g g1 x Hskel).
Qed.

Lemma children_in_total (es : list path) (n : node_id) :
  Forall (fun e => 2 <= List.length e) es ->
  exists cs, children_in es n = Ok cs /\
             forall c, In c cs -> exists e, In e es /\ In c e.
Proof.
  induction 1 as [|e es He _ (cs & Hcs & Hin)]; simpl.
  - exists []. split; [reflexivity|]. intros c [].
  - destruct e as [|h [|c' t]]; try (simpl in He; lia).
    destruct (String.eqb h n).
    + rewrite Hcs. exists (c' :: cs). split; [reflexivity|].
      intros c [<-|Hc].
      * exists (h :: c' :: t). split; [now left|]. right. now left.
      * destruct (Hin c Hc) as (e & He' & Hce). exists e. split; [now right|exact Hce].
    + exists cs. split; [exact Hcs|]. intros c Hc.
      destruct (Hin c Hc) as (e & He' & Hce). exists e. split; [now right|exact Hce].
Qed.

(** The state [split] reaches in a graph obeying the data model, whatever
    the place of the node in its own lineage. *)
Lemma split_reparents (uuid : nat -> node_id) (g : Hypergraph) (n : node_id)
  (nd : Node) (boundary : boundary_t) (children : list node_id) :
  Dict.get n (nodes g) = Some nd ->
  NoDup (piece_ids uuid nd boundary) ->
  (forall x, In x (piece_ids uuid nd boundary) -> Dict.member x (nodes g) = false) ->
  (forall p, In p (ancestry nd) ->
             p <> [] /\ forall x, In x p -> Dict.member x (nodes g) = true) ->
  get_children g n = Ok children ->
  (forall c, In c children -> Dict.member c (nodes g) = true) ->
  exists last_piece g',
    last_error (piece_ids uuid nd boundary) = Some last_piece /\
    split uuid n boundary g = (Ok (piece_ids uuid nd boundary), g') /\
    Dict.get n (nodes g') = None /\
    forall c, In c children -> c <> n ->
              In [last_piece; c] (edges g') /\ ancestry_of g' c = Some [].
Proof.
  intros Hget Hnd Hfresh Hanc Hch Hchild.
  remember (piece_contents nd boundary) as cs eqn:Hcs.
  remember (piece_ids uuid nd boundary) as ids eqn:Hids.
  assert (Hlen : List.length ids = List.length cs).
  { subst ids. unfold piece_ids. rewrite length_map, length_seq. now subst cs. }
  assert (Hcslen : List.length cs = S (List.length (offsets boundary))).
  { subst cs. apply pieces_length. }
  assert (Hn_ids : ~ In n ids).
  { intros Hin. apply Hfresh in Hin. unfold Dict.member in Hin.
    rewrite Hget in Hin. discriminate. }
  destruct ids as [|first rest] eqn:Hshape; [simpl in Hlen; lia|].
  rewrite <- Hshape in *.
  assert (Hhd : hd_error ids = Some first) by now rewrite Hshape.
  destruct (last_error_some ids) as [last_piece Hlast]; [now rewrite Hshape|].
  assert (Hfirst_in : In first ids) by (rewrite Hshape; now left).
  assert (Hlast_in : In last_piece ids) by now apply last_error_In.
  assert (Hfirst_ne : first <> n) by (intros ->; contradiction).
  assert (Hlast_ne : last_piece <> n) by (intros ->; contradiction).
  set (g1 := set_nodes g (nodes g ++ combine ids (map new_node cs))).
  assert (Hpieces : add_pieces uuid 0 (pieces (content nd) 0%Z (offsets boundary)) g =
                    (Ok ids, g1)).
  { pose proof (add_pieces_run uuid cs 0 g) as H.
    unfold piece_ids in Hids. rewrite <- Hcs in Hids. rewrite <- Hids in H.
    subst cs. apply H; assumption. }
  assert (Hstored1 : forall x, Dict.member x (nodes g) = true \/ In x ids ->
                               Dict.member x (nodes g1) = true).
  { intros x [Hx|Hx]; simpl; rewrite member_app.
    - now rewrite Hx.
    - apply orb_true_iff. right. apply member_In_keys.
      now rewrite keys_combine_new. }
  assert (Hget1 : Dict.get n (nodes g1) = Some nd).
  { simpl. rewrite get_app_left; [exact Hget|].
    unfold Dict.member. now rewrite Hget. }
  (* the walk over the cache *)
  destruct (relink_parents_walk n first Hfirst_ne (relink_budget (ancestry nd)) 0
              g1 nd Hget1 (Hstored1 first (or_intror Hfirst_in)))
    as (g2 & E1 & Hrelink & Hskel2 & Hedges2 & HE1).
  { intros p Hp. destruct (Hanc p Hp) as [Hne Hst]. split; [exact Hne|].
    intros x Hx. apply Hstored1. left. now apply Hst. }
  { apply le_n. }
  (* the links between the pieces *)
  set (E2 := consecutive ids).
  assert (HE2 : Forall (fun e => 2 <= List.length e /\
                                 Forall (fun x => Dict.member x (nodes g1) = true) e) E2).
  { apply Forall_forall. intros e He. apply consecutive_In in He.
    destruct He as (a & b & -> & Ha & Hb). split; [simpl; lia|].
    repeat constructor; apply Hstored1; now right. }
  assert (Hweaken : forall (E : list path) (h : Hypergraph),
             skeleton h = skeleton g1 ->
             Forall (fun e => 2 <= List.length e /\
                              Forall (fun x => Dict.member x (nodes g1) = true) e) E ->
             Forall (fun e => 2 <= List.length e /\
                              Forall (fun x => Dict.member x (nodes h) = true) e) E).
  { intros E h Hsk HE. eapply Forall_impl; [|exact HE].
    intros e [Hl Hs]. split; [exact Hl|].
    eapply Forall_impl; [|exact Hs]. intros x Hx.
    now rewrite (same_skeleton_member g1 h x Hsk). }
  destruct (add_edges_frame E2 g2 (Hweaken E2 g2 Hskel2 HE2))
    as (g3 & Hrun3 & Hedges3 & Hskel3 & _).
  rewrite Hskel2 in Hskel3.
  (* the children, read after the additions *)
  destruct (children_in_total (E1 ++ E2) n) as (extra & Hextra & Hextra_in).
  { apply Forall_app. split; [eapply Forall_impl; [|exact HE1]|
                              eapply Forall_impl; [|exact HE2]]; now intros e [Hl _]. }
  assert (Hchildren3 : get_children g3 n = Ok (children ++ extra)).
  { unfold get_children. rewrite Hedges3, Hedges2.
    change (edges g1) with (edges g). rewrite <- app_assoc.
    rewrite (children_in_app _ _ n children Hch). now rewrite Hextra. }
  set (E3 := map (fun c => [last_piece; c]) (children ++ extra)).
  assert (HE3 : Forall (fun e => 2 <= List.length e /\
                                 Forall (fun x => Dict.member x (nodes g1) = true) e) E3).
  { apply Forall_forall. intros e He. apply in_map_iff in He.
    destruct He as (c & <- & Hc). split; [simpl; lia|].
    constructor; [apply Hstored1; now right|]. constructor; [|constructor].
    apply in_app_or in Hc. destruct Hc as [Hc|Hc].
    - apply Hstored1. left. now apply Hchild.
    - destruct (Hextra_in c Hc) as (e & He & Hce).
      apply in_app_or in He. rewrite Forall_forall in HE1, HE2.
      destruct He as [He|He];
        [destruct (HE1 e He) as [_ Hs]|destruct (HE2 e He) as [_ Hs]];
        rewrite Forall_forall in Hs; now apply Hs. }
  destruct (add_edges_frame E3 g3 (Hweaken E3 g3 Hskel3 HE3))
    as (g4 & Hrun4 & Hedges4 & Hskel4 & _).
  rewrite Hskel3 in Hskel4.
  assert (Hm4 : Dict.member n (nodes g4) = true).
  { rewrite (same_skeleton_member g1 g4 n Hskel4). apply Hstored1. left.
    unfold Dict.member. now rewrite Hget. }
  exists last_piece. eexists. split; [exact Hlast|]. split.
  { unfold split.
    rewrite (bind_ok _ _ g g nd); [|unfold lookup; now rewrite Hget].
    rewrite (bind_ok _ _ g g1 ids Hpieces). rewrite Hhd, Hlast.
    rewrite (bind_ok _ _ g1 g2 tt Hrelink).
    rewrite (bind_ok _ _ g2 g3 tt); [|now rewrite link_pieces_run].
    rewrite (bind_ok _ _ g3 g3 (children ++ extra));
      [|unfold lift; now rewrite Hchildren3].
    rewrite (bind_ok _ _ g3 g4 tt); [|now rewrite reparent_run].
    rewrite (bind_ok _ _ g4 _ tt (remove_node_run n g4 Hm4)).
    reflexivity. }
  split.
  - simpl nodes. rewrite get_clear_items, get_remove_same.
    now destruct (existsb _ _).
  - intros c Hc Hcn. split.
    + simpl edges. apply filter_In. split.
      * rewrite Hedges4. apply in_or_app. right. unfold E3.
        apply in_map_iff. exists c. split; [reflexivity|].
        apply in_or_app. now left.
      * apply negb_true_iff. destruct (mem n [last_piece; c]) eqn:E; [|reflexivity].
        apply mem_In in E. destruct E as [<-|[<-|[]]]; contradiction.
    + unfold ancestry_of. simpl nodes. rewrite get_clear_items.
      rewrite get_remove_other by exact Hcn.
      assert (Hc4 : Dict.member c (nodes g4) = true).
      { rewrite (same_skeleton_member g1 g4 c Hskel4). apply Hstored1. left.
        now apply Hchild. }
      destruct (member_get c _ Hc4) as [cnd Hcnd]. rewrite Hcnd.
      destruct (children_in_sound (edges g) n c children Hch Hc) as [tail Htail].
      assert (Hex : existsb (fun e => mem c (tl e)) (filter (mem n) (edges g4)) = true).
      { apply existsb_exists. exists (n :: c :: tail). split.
        - apply filter_In. split.
          + rewrite Hedges4, Hedges3, Hedges2. change (edges g1) with (edges g).
            apply in_or_app. left. apply in_or_app. left. apply in_or_app. now left.
          + apply mem_In. now left.
        - apply mem_In. now left. }
      rewrite Hex. reflexivity.
Qed.

(** C10 (amended). In a graph obeying the data model (the ancestry entries of
    [n] non-empty and over stored nodes, [get_children n] defined, the
    children stored, the drawn identifiers fresh and pairwise distinct), for
    every stored hyperedge [[n, c]] whose child [c] is not [n] itself,
    [split n b] returns and leaves the re-parenting edge [[last, c]] in the
    edge sequence while the ancestry cache of [c] is empty: the entry
    [[last]] that the edge/ancestry invariant requires for this edge is
    missing. *)
Theorem split_leaves_children_without_ancestry :
  (forall (uuid : nat -> node_id) (g : Hypergraph) (n : node_id) (nd : Node)
          (boundary : boundary_t) (children : list node_id) (c : node_id),
      Dict.get n (nodes g) = Some nd ->
      NoDup (piece_ids uuid nd boundary) ->
      (forall x, In x (piece_ids uuid nd boundary) ->
                 Dict.member x (nodes g) = false) ->
      (forall p, In p (ancestry nd) ->
                 p <> [] /\ forall x, In x p -> Dict.member x (nodes g) = true) ->
      get_children g n = Ok children ->
      (forall c', In c' children -> Dict.member c' (nodes g) = true) ->
      In [n; c] (edges g) ->
      c <> n ->
      exists last_piece g',
        last_error (piece_ids uuid nd boundary) = Some last_piece /\
        split uuid n boundary g = (Ok (piece_ids uuid nd boundary), g') /\
        In [last_piece; c] (edges g') /\
        ancestry_of g' c = Some [] /\
        ~ (exists entries,
              ancestry_of g' c = Some entries /\
              In (rev (firstn 1 [last_piece; c])) entries)) /\
  split test_uuid "x" (Offset 6%Z) chain3 =
  (Ok ["u"; "u'"],
   mkGraph [("p", mkNode "P" [] []); ("c", mkNode "C" [] []);
            ("u", mkNode "Hello " [] [["p"]]); ("u'", mkNode "World!" [] [["u"]])]
           [["p"; "u"]; ["u"; "u'"]; ["u'"; "c"]]).
Proof.
  split; [|reflexivity].
  intros uuid g n nd boundary children c Hget Hnd Hfresh Hanc Hch Hchild Hedge Hcn.
  destruct (split_reparents uuid g n nd boundary children
              Hget Hnd Hfresh Hanc Hch Hchild)
    as (last_piece & g' & Hlast & Hrun & _ & Hre).
  assert (Hc : In c children).
  { apply (children_in_complete (edges g) n c [] children Hch Hedge). }
  destruct (Hre c Hc Hcn) as [Hin Hclear].
  exists last_piece, g'. split; [exact Hlast|]. split; [exact Hrun|].
  split; [exact Hin|]. split; [exact Hclear|].
  intros (entries & Hsome & Hentry). rewrite Hclear in Hsome.
  injection Hsome as <-. destruct Hentry.
Qed.

Lemma split_leaves_children_without_ancestry_witness :
  exists last_piece g',
    split test_uuid "x" (Offset 6%Z) chain3 = (Ok ["u"; "u'"], g') /\
    In [last_piece; "c"] (edges g') /\
    ancestry_of g' "c" = Some [].
Proof.
  destruct (proj1 split_leaves_children_without_ancestry test_uuid chain3 "x"
              (mkNode "Hello World!" [] [["p"]]) (Offset 6%Z) ["c"] "c"
              eq_refl
              (proj1 chain3_split_ready)
              (proj1 (proj2 chain3_split_ready))
              (fun p Hp =>
                 match proj1 (proj2 (proj2 chain3_split_ready)) p Hp with
                 | conj Hne Hst => conj Hne (fun x Hx => proj2 (Hst x Hx))
                 end)
              eq_refl
              (fun c' Hc' => proj2 (proj2 (proj2 (proj2 chain3_split_ready)) c' Hc'))
              ltac:(rewrite chain3_eq; simpl; tauto)
              ltac:(discriminate))
    as (last_piece & g' & _ & Hrun & Hin & Hanc & _).
  exists last_piece, g'. split; [exact Hrun|]. split; [exact Hin|exact Hanc].
Defined.

(** * Further properties of the operations *)

(** ** add_node *)

Lemma get_set_same {V : Type} (k : node_id) (v : V) (d : Dict.t V) :
  Dict.get k (Dict.set k v d) = Some v.
Proof.
  induction d as [|[k' v'] d IH]; simpl.
  - now rewrite String.eqb_refl.
  - destruct (String.eqb k k') eqn:E; simpl; rewrite E; [reflexivity|exact IH].
Qed.

Lemma get_set_other {V : Type} (k n : node_id) (v : V) (d : Dict.t V) :
  k <> n -> Dict.get k (Dict.set n v d) = Dict.get k d.
Proof.
  intros Hne. induction d as [|[k' v'] d IH]; simpl.
  - apply String.eqb_neq in Hne. now rewrite Hne.
  - destruct (String.eqb n k') eqn:E; simpl.
    + apply String.eqb_eq in E. subst k'.
      apply String.eqb_neq in Hne. now rewrite Hne.
    + destruct (String.eqb k k'); [reflexivity|exact IH].
Qed.

Lemma keys_set_present {V : Type} (n : node_id) (v : V) (d : Dict.t V) :
  Dict.member n d = true -> Dict.keys (Dict.set n v d) = Dict.keys d.
Proof.
  unfold Dict.member. induction d as [|[k' v'] d IH]; simpl; [discriminate|].
  destruct (String.eqb n k') eqn:E; simpl; [reflexivity|].
  intros H. f_equal. now apply IH.
Qed.

(** X1. [add_node] returns the drawn identifier and stores the node under
    it without touching any other key or the edges; a fresh identifier goes
    last in dict order (and last among the roots when the node has no
    ancestry), an identifier already in use keeps its place and loses its
    former node. *)
Theorem add_node_stores_under_identifier (g : Hypergraph) (nid : node_id)
  (node : Node) :
  exists g',
    add_node nid node g = (Ok nid, g') /\
    Dict.get nid (nodes g') = Some node /\
    (forall k, k <> nid -> Dict.get k (nodes g') = Dict.get k (nodes g)) /\
    edges g' = edges g /\
    (Dict.member nid (nodes g) = false ->
     nodes g' = nodes g ++ [(nid, node)] /\
     get_roots g' = get_roots g ++ (if is_root node then [nid] else [])) /\
    (Dict.member nid (nodes g) = true ->
     Dict.keys (nodes g') = Dict.keys (nodes g)).
Proof.
  eexists. split; [reflexivity|]. simpl. repeat split.
  - apply get_set_same.
  - intros k Hk. now apply get_set_other.
  - apply set_fresh. now apply member_false_keys.
  - rewrite set_fresh by now apply member_false_keys.
    destruct g as [ns es]. unfold get_roots. simpl.
    rewrite filter_app, map_app. f_equal. simpl. now destruct (is_root node).
  - apply keys_set_present.
Qed.

Lemma add_node_stores_under_identifier_witness :
  exists g',
    add_node "E" (new_node "e") diamond = (Ok "E", g') /\
    get_roots g' = ["A"; "E"] /\
    Dict.get "D" (nodes g') = Dict.get "D" (nodes diamond).
Proof.
  destruct (add_node_stores_under_identifier diamond "E" (new_node "e"))
    as (g' & Hrun & _ & Hother & _ & Hfresh & _).
  exists g'. split; [exact Hrun|]. split.
  - destruct (Hfresh eq_refl) as [_ Hroots]. exact Hroots.
  - apply Hother. discriminate.
Defined.

Lemma remove_absent {V : Type} (n : node_id) (d : Dict.t V) :
  Dict.member n d = false -> Dict.remove n d = d.
Proof.
  unfold Dict.member, Dict.remove.
  induction d as [|[k v] d IH]; simpl; [reflexivity|].
  destruct (String.eqb n k); simpl; [discriminate|].
  intros H. f_equal. now apply IH.
Qed.

Lemma remove_app {V : Type} (n : node_id) (d1 d2 : Dict.t V) :
  Dict.remove n (d1 ++ d2) = Dict.remove n d1 ++ Dict.remove n d2.
Proof. apply filter_app. Qed.

Lemma filter_none {A : Type} (P : A -> bool) (l : list A) :
  Forall (fun x => P x = false) l -> filter P l = [].
Proof.
  induction 1 as [|x l Hx _ IH]; simpl; [reflexivity|]. now rewrite Hx.
Qed.

Lemma clear_items_nil (d : Dict.t Node) : map (clear_items []) d = d.
Proof.
  rewrite <- (map_id d) at 2. apply map_ext. now intros [k v].
Qed.

(** X2. Adding a node under a fresh identifier that no stored edge mentions
    and removing it again gives the graph back. *)
Theorem remove_node_undoes_add_node (g : Hypergraph) (nid : node_id) (node : Node) :
  Dict.member nid (nodes g) = false ->
  (forall e, In e (edges g) -> ~ In nid e) ->
  (add_node nid node ;;; remove_node nid) g = (Ok tt, g).
Proof.
  intros Hfresh Hedges. unfold bind at 1. unfold add_node, bind, modify, ret.
  rewrite set_fresh by now apply member_false_keys.
  rewrite remove_node_run.
  2:{ simpl. rewrite member_app. apply orb_true_iff. right.
      unfold Dict.member. simpl. now rewrite String.eqb_refl. }
  simpl. destruct g as [ns es]. simpl in *. f_equal. f_equal.
  - rewrite (filter_none (mem nid) es).
    + rewrite clear_items_nil, remove_app, remove_absent by exact Hfresh.
      unfold Dict.remove. simpl. rewrite String.eqb_refl. simpl.
      apply app_nil_r.
    + apply Forall_forall. intros e He.
      destruct (mem nid e) eqn:E; [|reflexivity].
      apply mem_In in E. now apply Hedges in He.
  - apply filter_all. apply Forall_forall. intros e He.
    apply negb_true_iff. destruct (mem nid e) eqn:E; [|reflexivity].
    apply mem_In in E. now apply Hedges in He.
Qed.

Lemma remove_node_undoes_add_node_witness :
  (add_node "E" (new_node "e") ;;; remove_node "E") diamond = (Ok tt, diamond).
Proof.
  apply remove_node_undoes_add_node; [reflexivity|].
  rewrite diamond_eq. simpl. intros e He.
  repeat (destruct He as [<-|He]; [simpl; intuition discriminate|]).
  destruct He.
Defined.

(** ** remove_node *)

Lemma existsb_filter {A : Type} (P Q : A -> bool) (l : list A) :
  existsb Q (filter P l) = existsb (fun x => P x && Q x) l.
Proof.
  induction l as [|x l IH]; simpl; [reflexivity|].
  destruct (P x); simpl; now rewrite IH.
Qed.

(** X3. [remove_node] on an identifier that is not stored changes nothing,
    not even the edges that mention it.  On a stored identifier it returns
    normally, the identifier is stored no more, exactly the edges that
    mention it are removed, every other key keeps its place, content and
    metadata, and a remaining node loses its whole ancestry cache exactly
    when it stands at a non-head position of a removed edge. *)
Theorem remove_node_cascades (g : Hypergraph) (n : node_id) :
  (Dict.member n (nodes g) = false -> remove_node n g = (Ok tt, g)) /\
  (Dict.member n (nodes g) = true ->
   exists g',
     remove_node n g = (Ok tt, g') /\
     Dict.get n (nodes g') = None /\
     edges g' = filter (fun e => negb (mem n e)) (edges g) /\
     (forall e, In e (edges g') -> ~ In n e) /\
     skeleton g' = Dict.remove n (skeleton g) /\
     (forall k nd, k <> n -> Dict.get k (nodes g) = Some nd ->
        Dict.get k (nodes g') =
        Some (if existsb (fun e => mem n e && mem k (tl e)) (edges g)
              then clear_ancestry nd else nd))).
Proof.
  split.
  - intros Hm. unfold remove_node. now rewrite Hm.
  - intros Hm. eexists. split; [now apply remove_node_run|]. simpl.
    split; [|split; [reflexivity|split; [|split]]].
    + rewrite get_clear_items, get_remove_same. now destruct (existsb _ _).
    + intros e He Hin. apply filter_In in He. destruct He as [_ He].
      apply negb_true_iff in He. apply mem_In in Hin. congruence.
    + destruct g as [ns es].
      exact (skeleton_after_removal (filter (mem n) es) n ns es).
    + intros k nd Hk Hget.
      rewrite get_clear_items, get_remove_other, Hget by exact Hk.
      rewrite existsb_filter. now destruct (existsb _ _).
Qed.

Lemma remove_node_cascades_witness :
  exists g',
    remove_node "B" diamond = (Ok tt, g') /\
    edges g' = [["A"; "C"]; ["C"; "D"]] /\
    ancestry_of g' "D" = Some [].
Proof.
  destruct (proj2 (remove_node_cascades diamond "B") eq_refl)
    as (g' & Hrun & _ & Hedges & _ & _ & Hother).
  exists g'. split; [exact Hrun|]. split; [exact Hedges|].
  unfold ancestry_of.
  rewrite (Hother "D" (mkNode "d" [] [["B"]; ["C"]])); [reflexivity| |reflexivity].
  discriminate.
Defined.

(** ** add_edge: what it checks and what it leaves behind when it raises *)

Lemma skeleton_adjust (g : Hypergraph) (n : node_id) (p : path) :
  skeleton (set_nodes g (Dict.adjust n (push_ancestry p) (nodes g))) = skeleton g.
Proof.
  unfold skeleton, Dict.adjust. simpl. rewrite map_map. apply map_ext.
  intros [k v]. simpl. now destruct (String.eqb n k).
Qed.

Lemma append_ancestry_outcome (n : node_id) (p : path) (g : Hypergraph) :
  (Dict.member n (nodes g) = true /\
   append_ancestry n p g =
   (Ok tt, set_nodes g (Dict.adjust n (push_ancestry p) (nodes g)))) \/
  (Dict.member n (nodes g) = false /\ append_ancestry n p g = (Raise KeyError, g)).
Proof.
  unfold append_ancestry, bind, lookup, modify, Dict.member.
  destruct (Dict.get n (nodes g)); [left|right]; now split.
Qed.

(** The loop of [add_edge] over positions inside the edge: it either
    extends the cache at every position, or stops with [KeyError] at the
    first position whose node is missing; keys, contents, metadata and edges
    stay as they are in both cases. *)
Lemma add_edge_loop_outcome (e : path) :
  forall (ixs : list nat) (g : Hypergraph),
    Forall (fun i => i < List.length e) ixs ->
    exists g',
      skeleton g' = skeleton g /\ edges g' = edges g /\
      ((Forall (fun i => exists n, nth_error e i = Some n /\
                                   Dict.member n (nodes g) = true) ixs /\
        for_each ixs
          (fun i => n <- index e i ;; append_ancestry n (rev (firstn i e))) g =
        (Ok tt, g')) \/
       (~ Forall (fun i => exists n, nth_error e i = Some n /\
                                     Dict.member n (nodes g) = true) ixs /\
        for_each ixs
          (fun i => n <- index e i ;; append_ancestry n (rev (firstn i e))) g =
        (Raise KeyError, g'))).
Proof.
  induction ixs as [|i ixs IH]; intros g Hin.
  - exists g. split; [reflexivity|]. split; [reflexivity|]. left. now split.
  - inversion Hin as [|? ? Hi Hrest]; subst.
    destruct (nth_error e i) as [n|] eqn:Hn; [|apply nth_error_None in Hn; lia].
    assert (Hstep :
              for_each (i :: ixs)
                (fun i => n <- index e i ;; append_ancestry n (rev (firstn i e))) g =
              match append_ancestry n (rev (firstn i e)) g with
              | (Ok _, g1) =>
                  for_each ixs
                    (fun i => n <- index e i ;; append_ancestry n (rev (firstn i e))) g1
              | (Raise x, g1) => (Raise x, g1)
              end).
    { cbn [for_each]. unfold bind at 1. unfold bind at 1. unfold index.
      rewrite Hn. unfold ret at 1. reflexivity. }
    rewrite Hstep. clear Hstep.
    destruct (append_ancestry_outcome n (rev (firstn i e)) g) as [[Hm ->]|[Hm ->]].
    + set (g1 := set_nodes g (Dict.adjust n (push_ancestry (rev (firstn i e))) (nodes g))).
      assert (Hsk : skeleton g1 = skeleton g) by apply skeleton_adjust.
      destruct (IH g1 Hrest) as (g' & Hsk' & Hed' & Hcase).
      exists g'. split; [now rewrite Hsk'|]. split; [exact Hed'|].
      assert (Hsame : forall j,
                 (exists m, nth_error e j = Some m /\ Dict.member m (nodes g1) = true) <->
                 (exists m, nth_error e j = Some m /\ Dict.member m (nodes g) = true)).
      { intros j. split; intros (m & Hj & Hmm); exists m; split; auto;
          [rewrite <- (same_skeleton_member g g1 m Hsk)|
           rewrite (same_skeleton_member g g1 m Hsk)]; exact Hmm. }
      destruct Hcase as [[Hall Hrun]|[Hnot Hrun]].
      * left. split; [|exact Hrun]. constructor; [now exists n|].
        eapply Forall_impl; [|exact Hall]. intros j. apply Hsame.
      * right. split; [|exact Hrun]. intros Hall. apply Hnot.
        inversion Hall; subst.
        eapply Forall_impl; [|eassumption]. intros j. apply Hsame.
    + exists g. split; [reflexivity|]. split; [reflexivity|]. right.
      split; [|reflexivity]. intros Hall. inversion Hall as [|? ? (m & Hm' & Hmm) _]; subst.
      rewrite Hn in Hm'. injection Hm' as <-. congruence.
Qed.

Lemma tail_positions (e : path) (g : Hypergraph) :
  2 <= List.length e ->
  Forall (fun n => Dict.member n (nodes g) = true) (tl e) <->
  Forall (fun i => exists n, nth_error e i = Some n /\
                             Dict.member n (nodes g) = true)
         (seq 1 (List.length e - 1)).
Proof.
  intros Hlen. destruct e as [|h t]; [simpl in Hlen; lia|]. simpl.
  rewrite Nat.sub_0_r. rewrite !Forall_forall. split.
  - intros H i Hi. apply in_seq in Hi. destruct i as [|i]; [lia|]. simpl.
    destruct (nth_error t i) as [n|] eqn:Hn.
    + exists n. split; [reflexivity|]. apply H. eapply nth_error_In; eauto.
    + apply nth_error_None in Hn. lia.
  - intros H n Hn. apply In_nth_error in Hn. destruct Hn as [i Hi].
    destruct (H (S i)) as (m & Hm & Hmm).
    + apply in_seq. assert (i < List.length t) by (apply nth_error_Some; congruence). lia.
    + simpl in Hm. rewrite Hi in Hm. now injection Hm as <-.
Qed.

Lemma children_in_after_empty (es : list path) (n : node_id) :
  children_in (es ++ [[]]) n = Raise IndexError.
Proof.
  induction es as [|e es IH]; simpl; [reflexivity|].
  destruct e as [|h t]; [reflexivity|].
  destruct (String.eqb h n); [|exact IH].
  destruct t; [reflexivity|]. now rewrite IH.
Qed.

(** X4. [add_edge] records the edge before it looks at any node, and it never
    looks at the node of position 0.  For an edge of at least two
    identifiers it returns normally exactly when every identifier at a
    non-head position is stored, and raises [KeyError] otherwise; in both
    cases the edge ends up in the edge sequence and no key, content or
    metadata changes.  On the empty edge it raises [IndexError] with the
    empty edge recorded, after which [get_children] raises [IndexError] for
    every identifier. *)
Theorem add_edge_records_before_checking :
  (forall (g : Hypergraph) (e : path),
      2 <= List.length e ->
      exists g',
        edges g' = edges g ++ [e] /\
        skeleton g' = skeleton g /\
        ((Forall (fun n => Dict.member n (nodes g) = true) (tl e) /\
          add_edge e g = (Ok tt, g')) \/
         (~ Forall (fun n => Dict.member n (nodes g) = true) (tl e) /\
          add_edge e g = (Raise KeyError, g')))) /\
  (forall (g : Hypergraph),
      add_edge [] g = (Raise IndexError, set_edges g (edges g ++ [[]])) /\
      forall n, get_children (run (add_edge []) g) n = Raise IndexError).
Proof.
  split.
  - intros g e Hlen.
    set (g0 := set_edges g (edges g ++ [e])).
    assert (Hseq : seq 1 (List.length e - 1) =
                   seq 1 (List.length e - 1 - 1) ++ [List.length e - 1]).
    { replace (List.length e - 1) with (S (List.length e - 1 - 1)) at 1 by lia.
      rewrite seq_S. f_equal. f_equal. lia. }
    destruct (add_edge_loop_outcome e (seq 1 (List.length e - 1 - 1)) g0)
      as (g1 & Hsk1 & Hed1 & Hcase).
    { apply Forall_forall. intros i Hi. apply in_seq in Hi. lia. }
    destruct (nth_error e (List.length e - 1)) as [z|] eqn:Hz;
      [|apply nth_error_None in Hz; lia].
    assert (Htail : Forall (fun n => Dict.member n (nodes g) = true) (tl e) <->
                    Forall (fun i => exists n, nth_error e i = Some n /\
                                               Dict.member n (nodes g0) = true)
                           (seq 1 (List.length e - 1 - 1)) /\
                    Dict.member z (nodes g0) = true).
    { rewrite (tail_positions e g Hlen), Hseq, Forall_app. simpl nodes.
      split; intros [H1 H2]; (split; [exact H1|]).
      - inversion H2 as [|? ? (m & Hm & Hmm) _]; subst.
        rewrite Hz in Hm. now injection Hm as <-.
      - constructor; [|constructor]. now exists z. }
    assert (Hadd :
              add_edge e g =
              match for_each (seq 1 (List.length e - 1 - 1))
                      (fun i => n <- index e i ;; append_ancestry n (rev (firstn i e)))
                      g0 with
              | (Ok _, g2) => append_ancestry z (rev (removelast e)) g2
              | (Raise x, g2) => (Raise x, g2)
              end).
    { unfold add_edge. unfold bind at 1. unfold modify at 1. fold g0.
      unfold bind at 1. now rewrite last_error_nth, Hz. }
    rewrite Hadd. clear Hadd.
    destruct Hcase as [[Hall Hrun]|[Hnot Hrun]]; rewrite Hrun.
    + destruct (append_ancestry_outcome z (rev (removelast e)) g1) as [[Hm Hap]|[Hm Hap]];
        rewrite Hap.
      * eexists. split; [|split; [|left; split; [|reflexivity]]].
        -- simpl. now rewrite Hed1.
        -- now rewrite skeleton_adjust, Hsk1.
        -- apply Htail. split; [exact Hall|].
           now rewrite <- (same_skeleton_member g0 g1 z Hsk1).
      * exists g1. split; [now rewrite Hed1|]. split; [now rewrite Hsk1|].
        right. split; [|reflexivity]. intros Hall'. apply Htail in Hall'.
        destruct Hall' as [_ Hz']. rewrite <- (same_skeleton_member g0 g1 z Hsk1) in Hz'.
        congruence.
    + exists g1. split; [now rewrite Hed1|]. split; [now rewrite Hsk1|].
      right. split; [|reflexivity]. intros Hall'. apply Htail in Hall'.
      now destruct Hall'.
  - intros g. split; [reflexivity|]. intros n.
    unfold run, get_children. simpl. apply children_in_after_empty.
Qed.

Lemma add_edge_records_before_checking_witness :
  exists g',
    edges g' = edges diamond ++ [["ghost"; "A"; "nowhere"]] /\
    add_edge ["ghost"; "A"; "nowhere"] diamond = (Raise KeyError, g').
Proof.
  destruct (proj1 add_edge_records_before_checking diamond ["ghost"; "A"; "nowhere"])
    as (g' & Hedges & _ & [[Hall _]|[_ Hrun]]).
  - simpl. lia.
  - exfalso. simpl in Hall. inversion Hall as [|? ? _ H2]; subst.
    inversion H2 as [|? ? H3 _]; subst. discriminate.
  - exists g'. split; [exact Hedges|exact Hrun].
Defined.

(** ** add_edge: roots, dangling identifiers, undoing *)

(** The effect of a successful [add_edge] when only the non-head positions
    are known to be stored. *)
Lemma add_edge_unchecked_head (e : path) (g : Hypergraph) :
  2 <= List.length e ->
  Forall (fun n => Dict.member n (nodes g) = true) (tl e) ->
  add_edge e g =
  (Ok tt, mkGraph (map (extend_node e (seq 1 (List.length e - 1))) (nodes g))
                  (edges g ++ [e])).
Proof.
  intros Hlen Hall.
  assert (Hpos : forall i, 1 <= i -> i < List.length e ->
             exists n, nth_error e i = Some n /\ Dict.member n (nodes g) = true).
  { intros i Hi1 Hi. destruct (nth_error e i) as [n|] eqn:Hn.
    - exists n. split; [reflexivity|].
      rewrite Forall_forall in Hall. apply Hall. now apply (nth_error_tail e i).
    - apply nth_error_None in Hn. lia. }
  unfold add_edge. unfold bind at 1. unfold modify at 1.
  unfold bind at 1.
  rewrite add_edge_loop.
  2:{ apply Forall_forall. intros i Hi. apply in_seq in Hi.
      simpl. apply Hpos; lia. }
  destruct (Hpos (List.length e - 1)) as (n & Hn & Hm); [lia|lia|].
  rewrite last_error_nth, Hn, removelast_firstn_pred.
  rewrite (append_ancestry_ok e (List.length e - 1) n); [|exact Hn|].
  2:{ simpl. now rewrite member_extend. }
  unfold set_nodes, set_edges; simpl. f_equal. f_equal.
  rewrite (extend_node_compose e). f_equal. f_equal.
  replace (List.length e - 1) with (S (List.length e - 1 - 1)) at 3 by lia.
  rewrite seq_S. f_equal. f_equal. lia.
Qed.






Lemma not_root_after_push (y : node_id) (p : path) (d : Dict.t Node) :
  ~ In y (map fst (filter (fun kv => is_root (snd kv))
                          (Dict.adjust y (push_ancestry p) d))).
Proof.
  unfold Dict.adjust. induction d as [|[k nd] d IH]; [intros []|].
  cbn [map fst snd]. destruct (String.eqb y k) eqn:Hk; cbn [filter fst snd].
  - assert (Hr : is_root (push_ancestry p nd) = false).
    { apply is_root_false. simpl. intros Heq. apply app_eq_nil in Heq.
      destruct Heq; discriminate. }
    now rewrite Hr.
  - destruct (is_root nd); [|exact IH].
    cbn [map fst]. intros [Heq|Hin]; [|now apply IH].
    subst k. now rewrite String.eqb_refl in Hk.
Qed.

Lemma add_edge_short (h : list node_id) (y : node_id) (nd : Node) (g : Hypergraph) :
  List.length h <= 1 ->
  Dict.get y (nodes g) = Some nd ->
  add_edge (h ++ [y]) g =
  (Ok tt, mkGraph (Dict.adjust y (push_ancestry h) (nodes g)) (edges g ++ [h ++ [y]])).
Proof.
  intros Hlen Hget.
  assert (Hrun : forall p,
             append_ancestry y p (set_edges g (edges g ++ [h ++ [y]])) =
             (Ok tt, mkGraph (Dict.adjust y (push_ancestry p) (nodes g))
                             (edges g ++ [h ++ [y]]))).
  { intros p. unfold append_ancestry, bind, lookup, modify. simpl. now rewrite Hget. }
  destruct h as [|a [|b h]]; [| |simpl in Hlen; lia]; apply Hrun.
Qed.

(** X6. [add_edge] accepts edges that the queries cannot digest.  For a
    stored root [y]: an edge [[h; y]] whose head [h] is not stored is added
    without complaint, and from then on [get_ancestry y] raises [KeyError];
    the one-element edge [[y]] is added without complaint as well, and from
    then on [get_children y] and [get_ancestry y] raise [IndexError]. *)
Theorem add_edge_accepts_edges_that_break_queries (g : Hypergraph) (y : node_id)
  (nd : Node) :
  Dict.get y (nodes g) = Some nd ->
  ancestry nd = [] ->
  (forall h, Dict.member h (nodes g) = false ->
     exists g',
       add_edge [h; y] g = (Ok tt, g') /\
       forall d, get_ancestry (S (S d)) g' y = Raise KeyError) /\
  (exists g',
     add_edge [y] g = (Ok tt, g') /\
     get_children g' y = Raise IndexError /\
     forall d, get_ancestry (S d) g' y = Raise IndexError).
Proof.
  intros Hget Hroot.
  assert (Hmem : forall p es,
             mem y (get_roots (mkGraph (Dict.adjust y (push_ancestry p) (nodes g)) es)) = false).
  { intros p es. destruct (mem y _) eqn:Hm; [|reflexivity].
    apply mem_In in Hm. now apply not_root_after_push in Hm. }
  assert (Hy : forall p, Dict.get y (Dict.adjust y (push_ancestry p) (nodes g)) =
                         Some (with_ancestry nd [p])).
  { intros p. rewrite get_adjust, String.eqb_refl, Hget. simpl.
    unfold push_ancestry. now rewrite Hroot. }
  split.
  - intros h Hh. eexists. split; [exact (add_edge_short [h] y nd g (le_n 1) Hget)|].
    intros d. unfold get_ancestry. rewrite Hmem.
    cbn [_get_ancestries nodes]. rewrite Hy. cbn [ancestry with_ancestry].
    cbn [flat_map_result last_error].
    assert (Hnone : Dict.get h (Dict.adjust y (push_ancestry [h]) (nodes g)) = None).
    { pose proof (member_adjust h y (push_ancestry [h]) (nodes g)) as Hma.
      rewrite Hh in Hma. unfold Dict.member in Hma.
      now destruct (Dict.get h (Dict.adjust y (push_ancestry [h]) (nodes g))). }
    now rewrite Hnone.
  - eexists. split; [exact (add_edge_short [] y nd g (Nat.le_0_l 1) Hget)|]. split.
    + unfold get_children. cbn [edges app].
      induction (edges g) as [|e es IH]; simpl.
      * now rewrite String.eqb_refl.
      * destruct e as [|a t]; [reflexivity|].
        destruct (String.eqb a y); [|exact IH].
        destruct t; [reflexivity|]. now rewrite IH.
    + intros d. unfold get_ancestry. rewrite Hmem.
      cbn [_get_ancestries nodes]. rewrite Hy. reflexivity.
Qed.

Lemma add_edge_accepts_edges_that_break_queries_witness :
  (exists g',
     add_edge ["ghost"; "A"] diamond = (Ok tt, g') /\
     get_ancestry 2 g' "A" = Raise KeyError) /\
  (exists g',
     add_edge ["A"] diamond = (Ok tt, g') /\
     get_children g' "A" = Raise IndexError /\
     get_ancestry 1 g' "A" = Raise IndexError).
Proof.
  destruct (add_edge_accepts_edges_that_break_queries diamond "A" (new_node "a")
              eq_refl eq_refl) as [Hhead Hone].
  split.
  - destruct (Hhead "ghost" eq_refl) as (g' & Hrun & Hanc).
    exists g'. split; [exact Hrun|apply Hanc].
  - destruct Hone as (g' & Hrun & Hch & Hanc).
    exists g'. split; [exact Hrun|]. split; [exact Hch|apply Hanc].
Defined.





(** ** get_children, get_nodes, get_node_contents, get_node_id *)

Lemma children_in_defined (es : list path) (n : node_id) :
  Forall (fun e => match e with [] => False | h :: t => h = n -> t <> [] end) es ->
  children_in es n = Ok (flat_map (second_of n) es).
Proof.
  induction es as [|e es IH]; intros Hall; [reflexivity|].
  apply Forall_cons_iff in Hall. destruct Hall as [He Hes].
  destruct e as [|h t]; [contradiction|]. cbn [children_in flat_map].
  rewrite (IH Hes). destruct (String.eqb h n) eqn:Hh.
  - apply String.eqb_eq in Hh. destruct t as [|c t]; [now elim (He Hh)|].
    cbn [second_of]. apply String.eqb_eq in Hh. now rewrite Hh.
  - destruct t as [|c t]; cbn [second_of]; [reflexivity|]. now rewrite Hh.
Qed.

Lemma children_in_undefined (es : list path) (n : node_id) :
  ~ Forall (fun e => match e with [] => False | h :: t => h = n -> t <> [] end) es ->
  children_in es n = Raise IndexError.
Proof.
  induction es as [|e es IH]; intros Hnot; [now elim Hnot|].
  destruct e as [|h t]; [reflexivity|]. cbn [children_in].
  destruct (String.eqb h n) eqn:Hh.
  - destruct t as [|c t]; [reflexivity|]. rewrite IH; [reflexivity|].
    intros Hes. apply Hnot. constructor; [discriminate|exact Hes].
  - apply IH. intros Hes. apply Hnot. constructor; [|exact Hes].
    intros Heq. apply String.eqb_neq in Hh. contradiction.
Qed.

(** X8. [get_children n] reads only the first two positions of each edge.  It
    raises [IndexError] exactly when some edge is empty or consists of [n]
    alone; otherwise it returns, in edge order and with repetitions, the
    second identifier of every edge whose first identifier is [n].  So [c]
    is reported as a child of [n] exactly when an edge starts with [n; c]:
    the later identifiers of a longer hyperedge are nobody's children. *)
Theorem get_children_reads_first_two_positions (g : Hypergraph) (n : node_id) :
  (children_defined g n ->
   get_children g n = Ok (flat_map (second_of n) (edges g))) /\
  (~ children_defined g n -> get_children g n = Raise IndexError) /\
  (forall cs c, get_children g n = Ok cs ->
     (In c cs <-> exists rest, In (n :: c :: rest) (edges g))).
Proof.
  split; [apply children_in_defined|]. split; [apply children_in_undefined|].
  intros cs c Hrun. split.
  - now apply children_in_sound.
  - intros [rest Hin]. now apply (children_in_complete (edges g) n c rest).
Qed.

Lemma get_children_reads_first_two_positions_witness :
  get_children ten_graph "2" = Ok ["4"] /\
  ancestry_of ten_graph "3" = Some [["2"; "1"]] /\
  get_children (run (add_edge ["2"]) ten_graph) "2" = Raise IndexError.
Proof.
  destruct (get_children_reads_first_two_positions ten_graph "2") as (Hok & _ & _).
  destruct (get_children_reads_first_two_positions (run (add_edge ["2"]) ten_graph) "2")
    as (_ & Hbad & _).
  split; [|split; [reflexivity|]].
  - rewrite Hok; [reflexivity|]. unfold children_defined.
    vm_compute. repeat constructor; discriminate.
  - apply Hbad. unfold children_defined. intros Hall.
    rewrite Forall_forall in Hall.
    apply (Hall ["2"]); [|reflexivity|reflexivity].
    vm_compute. now repeat (try (left; reflexivity); right).
Defined.

(** X9. [get_nodes] and [get_node_contents] answer position by position,
    repeated identifiers included: when every requested identifier is
    stored they return the stored nodes, respectively their contents, in
    request order; when one is missing both raise [KeyError]. *)
Theorem get_nodes_all_or_key_error (g : Hypergraph) (ids : path) :
  (Forall (stored g) ids ->
   exists nds,
     get_nodes g ids = Ok nds /\
     get_node_contents g ids = Ok (map content nds) /\
     Forall2 (fun n nd => Dict.get n (nodes g) = Some nd) ids nds) /\
  (~ Forall (stored g) ids ->
   get_nodes g ids = Raise KeyError /\ get_node_contents g ids = Raise KeyError).
Proof.
  split.
  - induction ids as [|n ids IH]; intros Hall.
    + exists []. repeat split; constructor.
    + apply Forall_cons_iff in Hall. destruct Hall as [Hn Hids].
      destruct (IH Hids) as (nds & Hnodes & Hconts & Hall2).
      destruct (member_get n (nodes g) Hn) as [nd Hget].
      exists (nd :: nds). cbn [get_nodes get_node_contents map].
      rewrite Hget, Hnodes, Hconts. repeat split. now constructor.
  - induction ids as [|n ids IH]; intros Hnot; [elim Hnot; constructor|].
    cbn [get_nodes get_node_contents].
    destruct (Dict.get n (nodes g)) as [nd|] eqn:Hget; [|now split].
    destruct IH as [-> ->]; [|now split].
    intros Hids. apply Hnot. constructor; [|exact Hids].
    unfold stored, Dict.member. now rewrite Hget.
Qed.

Lemma get_nodes_all_or_key_error_witness :
  get_node_contents diamond ["D"; "A"; "D"] = Ok ["d"; "a"; "d"] /\
  get_nodes diamond ["A"; "Z"] = Raise KeyError.
Proof.
  destruct (get_nodes_all_or_key_error diamond ["D"; "A"; "D"]) as [Hok _].
  destruct (get_nodes_all_or_key_error diamond ["A"; "Z"]) as [_ Hbad].
  split.
  - destruct Hok as (nds & Hnodes & Hconts & _); [repeat constructor|].
    vm_compute in Hnodes. injection Hnodes as <-. exact Hconts.
  - apply Hbad. intros Hall. apply Forall_cons_iff in Hall. destruct Hall as [_ Hall].
    apply Forall_cons_iff in Hall. destruct Hall as [Hz _]. discriminate.
Defined.

Lemma node_eqb_spec (existing node : Node) :
  node_eqb existing node = true <->
  content existing = content node /\ ancestry existing = ancestry node.
Proof.
  unfold node_eqb. rewrite andb_true_iff, String.eqb_eq.
  destruct (list_eq_dec (list_eq_dec string_dec) (ancestry existing) (ancestry node));
    split; intros [H1 H2]; split; congruence.
Qed.

Lemma node_eqb_false (existing node : Node) :
  node_eqb existing node = false <-> differs node existing.
Proof.
  unfold differs. split.
  - intros Hf. destruct (string_dec (content existing) (content node)) as [Hc|Hc];
      [|now left].
    right. intros Ha. assert (Ht : node_eqb existing node = true)
      by (apply node_eqb_spec; now split). congruence.
  - intros Hd. destruct (node_eqb existing node) eqn:He; [|reflexivity].
    apply node_eqb_spec in He. destruct He, Hd; contradiction.
Qed.

Lemma first_equal_app (pre post : Dict.t Node) (node : Node) :
  first_equal (pre ++ post) node =
  match first_equal pre node with
  | Some k => Some k
  | None => first_equal post node
  end.
Proof.
  induction pre as [|[k nd] pre IH]; simpl; [reflexivity|].
  now destruct (node_eqb nd node).
Qed.

(** X10. [get_node_id] returns the first identifier, in insertion order,
    whose stored node has the content and the ancestry of the argument, and
    [None] exactly when no stored node has; the metadata of neither node is
    looked at. *)
Theorem get_node_id_first_equal_node (g : Hypergraph) (node : Node) :
  match get_node_id g node with
  | Some k =>
      exists pre existing post,
        nodes g = pre ++ (k, existing) :: post /\
        content existing = content node /\ ancestry existing = ancestry node /\
        Forall (fun kv => differs node (snd kv)) pre
  | None => Forall (fun kv => differs node (snd kv)) (nodes g)
  end /\
  forall m, get_node_id g (mkNode (content node) m (ancestry node)) = get_node_id g node.
Proof.
  unfold get_node_id. split.
  - induction (nodes g) as [|[k nd] d IH]; [constructor|].
    cbn [first_equal]. destruct (node_eqb nd node) eqn:He.
    + apply node_eqb_spec in He. destruct He as [Hc Ha].
      exists [], nd, d. repeat split; auto.
    + apply node_eqb_false in He. destruct (first_equal d node) as [k'|].
      * destruct IH as (pre & ex & post & -> & Hc & Ha & Hpre).
        exists ((k, nd) :: pre), ex, post. repeat split; auto.
      * now constructor.
  - intros m. induction (nodes g) as [|[k nd] d IH]; [reflexivity|].
    cbn [first_equal]. rewrite IH. reflexivity.
Qed.

(** X11. [get_node_id] need not find the node just added: after [add_node]
    has stored [node] under a fresh identifier, [get_node_id node] answers
    that identifier only if no node of equal content and ancestry was stored
    before; otherwise it keeps answering the older identifier. *)
Theorem get_node_id_after_add_node (g : Hypergraph) (nid : node_id) (node : Node) :
  Dict.member nid (nodes g) = false ->
  get_node_id (run (add_node nid node) g) node =
  match get_node_id g node with
  | Some k => Some k
  | None => Some nid
  end.
Proof.
  intros Hfresh. unfold run, add_node, get_node_id. simpl.
  rewrite set_fresh by (intros Hin; apply member_In_keys in Hin; congruence).
  rewrite first_equal_app. cbn [first_equal].
  assert (Hrefl : node_eqb node node = true) by (apply node_eqb_spec; now split).
  now rewrite Hrefl.
Qed.

Lemma get_node_id_after_add_node_witness :
  get_node_id (run (add_node "E" (new_node "a")) diamond) (new_node "a") = Some "A".
Proof.
  exact (get_node_id_after_add_node diamond "E" (new_node "a") eq_refl).
Defined.

(** ** merge *)

Lemma existsb_orb {A : Type} (f f1 f2 : A -> bool) (l : list A) :
  (forall x, f x = f1 x || f2 x) ->
  existsb f l = existsb f1 l || existsb f2 l.
Proof.
  intros Hf. induction l as [|x l IH]; simpl; [reflexivity|].
  rewrite IH, Hf. destruct (f1 x), (f2 x), (existsb f1 l), (existsb f2 l); reflexivity.
Qed.

Lemma clear_items_twice (A B : list path) (kv : node_id * Node) :
  clear_items A (clear_items B kv) = clear_items (B ++ A) kv.
Proof.
  destruct kv as [k nd]. unfold clear_items, path in *. cbn [fst snd].
  rewrite existsb_app.
  destruct (existsb (fun e => mem k (tl e)) B); cbn [fst snd orb];
    [|reflexivity].
  now destruct (existsb (fun e => mem k (tl e)) A).
Qed.

Lemma clear_items_ext (A B : list path) (kv : node_id * Node) :
  existsb (fun e => mem (fst kv) (tl e)) A = existsb (fun e => mem (fst kv) (tl e)) B ->
  clear_items A kv = clear_items B kv.
Proof. unfold clear_items. now intros ->. Qed.

Lemma filter_clear_items (P : node_id -> bool) (es : list path) (d : Dict.t Node) :
  filter (fun kv => P (fst kv)) (map (clear_items es) d) =
  map (clear_items es) (filter (fun kv => P (fst kv)) d).
Proof.
  induction d as [|kv d IH]; simpl; [reflexivity|].
  assert (Hfst : fst (clear_items es kv) = fst kv).
  { unfold clear_items. now destruct (existsb _ _). }
  rewrite Hfst. destruct (P (fst kv)); simpl; now rewrite IH.
Qed.

Lemma member_clear_items (es : list path) (k : node_id) (d : Dict.t Node) :
  Dict.member k (map (clear_items es) d) = Dict.member k d.
Proof.
  unfold Dict.member. rewrite get_clear_items.
  destruct (existsb _ _); [|reflexivity]. now destruct (Dict.get k d).
Qed.

Lemma member_remove_other {V : Type} (k n : node_id) (d : Dict.t V) :
  k <> n -> Dict.member k (Dict.remove n d) = Dict.member k d.
Proof. intros Hne. unfold Dict.member. now rewrite get_remove_other. Qed.

Lemma remove_then_filter {V : Type} (n : node_id) (ids : path) (d : Dict.t V) :
  filter (fun kv => negb (mem (fst kv) ids)) (Dict.remove n d) =
  filter (fun kv => negb (mem (fst kv) (n :: ids))) d.
Proof.
  unfold Dict.remove. induction d as [|[k v] d IH]; [reflexivity|].
  cbn [filter fst mem existsb]. fold (mem k ids).
  rewrite (String.eqb_sym k n).
  destruct (String.eqb n k); cbn [negb orb filter fst]; [exact IH|].
  fold (mem k ids). destruct (mem k ids); cbn [negb]; now rewrite IH.
Qed.

Lemma filter_untouched_cons (n : node_id) (ids : path) (es : list path) :
  filter (fun e => negb (touches ids e)) (filter (fun e => negb (mem n e)) es) =
  filter (fun e => negb (touches (n :: ids) e)) es.
Proof.
  induction es as [|e es IH]; [reflexivity|].
  cbn [filter touches existsb]. fold (touches ids e).
  destruct (mem n e); cbn [negb orb filter]; [exact IH|].
  destruct (touches ids e); cbn [negb]; now rewrite IH.
Qed.

(** The loop [for node_id in node_ids: self.remove_node(node_id)]. *)
Lemma remove_nodes_run (ids : path) :
  forall g,
    removable g ids ->
    for_each ids remove_node g =
    (Ok tt,
     mkGraph (map (clear_items (filter (touches ids) (edges g)))
                  (filter (fun kv => negb (mem (fst kv) ids)) (nodes g)))
             (filter (fun e => negb (touches ids e)) (edges g))).
Proof.
  induction ids as [|n ids IH]; intros [ns es] Hrem.
  - cbn [for_each touches existsb mem negb nodes edges]. unfold ret.
    rewrite (filter_none _ es) by (apply Forall_forall; reflexivity).
    rewrite clear_items_nil.
    now rewrite !filter_all by (apply Forall_forall; reflexivity).
  - apply Forall_cons_iff in Hrem. destruct Hrem as [Hn Hids].
    cbn [for_each]. unfold bind.
    destruct (Dict.member n ns) eqn:Hm.
    + rewrite (remove_node_run n (mkGraph ns es) Hm). cbn [nodes edges].
      rewrite IH; cbn [nodes edges].
      * f_equal. f_equal.
        -- rewrite (filter_clear_items (fun k => negb (mem k ids))), map_map.
           rewrite remove_then_filter.
           apply map_ext. intros kv. rewrite clear_items_twice.
           apply clear_items_ext. rewrite existsb_app, !existsb_filter.
           symmetry. apply existsb_orb. intros e. cbn [touches existsb].
           fold (touches ids e).
           destruct (mem n e), (touches ids e), (mem (fst kv) (tl e)); reflexivity.
        -- apply filter_untouched_cons.
      * unfold removable. cbn [nodes edges]. apply Forall_forall. intros m Hin.
        unfold removable in Hids. rewrite Forall_forall in Hids.
        destruct (string_dec m n) as [->|Hne].
        -- right. apply Forall_forall. intros e He. apply filter_In in He.
           destruct He as [_ He]. now apply negb_true_iff in He.
        -- destruct (Hids m Hin) as [Hst|Hfree].
           ++ left. cbn [nodes] in Hst.
              now rewrite member_clear_items, member_remove_other.
           ++ right. cbn [edges] in Hfree. rewrite Forall_forall in Hfree.
              apply Forall_forall. intros e He. apply filter_In in He.
              apply Hfree. tauto.
    + unfold remove_node. cbn [nodes]. rewrite Hm.
      destruct Hn as [Hst|Hfree]; [cbn [nodes] in Hst; congruence|].
      cbn [edges] in Hfree. rewrite Forall_forall in Hfree.
      rewrite IH by exact Hids. cbn [nodes edges].
      assert (Ht : forall e, In e es -> touches (n :: ids) e = touches ids e).
      { intros e He. cbn [touches existsb]. now rewrite (Hfree e He). }
      f_equal. f_equal.
      * f_equal.
        -- f_equal. apply filter_ext_in. intros e He. now rewrite Ht.
        -- apply filter_ext_in. intros [k v] Hkv. cbn [fst mem existsb].
           fold (mem k ids). destruct (String.eqb k n) eqn:Hk; [|reflexivity].
           apply String.eqb_eq in Hk. subst k. exfalso.
           apply member_false_keys in Hm. apply Hm.
           unfold Dict.keys. now apply (in_map fst) in Hkv.
      * apply filter_ext_in. intros e He. now rewrite Ht.
Qed.

Lemma get_node_contents_missing (g : Hypergraph) (ids : path) :
  ~ Forall (stored g) ids -> get_node_contents g ids = Raise KeyError.
Proof.
  induction ids as [|n ids IH]; intros Hnot; [elim Hnot; constructor|].
  cbn [get_node_contents].
  destruct (Dict.get n (nodes g)) as [nd|] eqn:Hget; [|reflexivity].
  rewrite IH; [reflexivity|]. intros Hids. apply Hnot. constructor; [|exact Hids].
  unfold stored, Dict.member. now rewrite Hget.
Qed.

Lemma get_filter_kept {V : Type} (P : node_id -> bool) (k : node_id) (d : Dict.t V) :
  P k = true -> Dict.get k (filter (fun kv => P (fst kv)) d) = Dict.get k d.
Proof.
  intros HP. induction d as [|[k' v] d IH]; simpl; [reflexivity|].
  destruct (String.eqb k k') eqn:Hk.
  - apply String.eqb_eq in Hk. subst k'. rewrite HP. simpl.
    now rewrite String.eqb_refl.
  - destruct (P k'); simpl; [now rewrite Hk|exact IH].
Qed.

Lemma get_filter_dropped {V : Type} (P : node_id -> bool) (k : node_id) (d : Dict.t V) :
  P k = false -> Dict.get k (filter (fun kv => P (fst kv)) d) = None.
Proof.
  intros HP. induction d as [|[k' v] d IH]; simpl; [reflexivity|].
  destruct (P k') eqn:Hk'; simpl; [|exact IH].
  destruct (String.eqb k k') eqn:Hk; [|exact IH].
  apply String.eqb_eq in Hk. congruence.
Qed.

Lemma keys_clear_filter (es : list path) (ids : path) (d : Dict.t Node) :
  Dict.keys (map (clear_items es) (filter (fun kv => negb (mem (fst kv) ids)) d)) =
  filter (fun k => negb (mem k ids)) (Dict.keys d).
Proof.
  unfold Dict.keys. rewrite map_map.
  induction d as [|[k v] d IH]; simpl; [reflexivity|].
  destruct (mem k ids); simpl; [exact IH|]. rewrite <- IH. f_equal.
  unfold clear_items. now destruct (existsb _ _).
Qed.

(** The state [merge] leaves behind when it succeeds. *)
Lemma merge_run (g : Hypergraph) (new_id : node_id) (ids : path) (cs : list string) :
  Dict.member new_id (nodes g) = false ->
  Forall (stored g) ids ->
  get_node_contents g ids = Ok cs ->
  merge new_id ids g =
  (Ok new_id,
   mkGraph (map (clear_items (filter (touches ids) (edges g)))
                (filter (fun kv => negb (mem (fst kv) ids)) (nodes g))
            ++ [(new_id, new_node (join cs))])
           (filter (fun e => negb (touches ids e)) (edges g))).
Proof.
  intros Hfresh Hids Hcs.
  assert (Hout : mem new_id ids = false).
  { destruct (mem new_id ids) eqn:Hm; [|reflexivity]. apply mem_In in Hm.
    rewrite Forall_forall in Hids. specialize (Hids new_id Hm).
    unfold stored in Hids. congruence. }
  unfold merge. unfold bind at 1. unfold lift. rewrite Hcs.
  unfold bind at 1. unfold add_node. unfold bind at 1. unfold modify, ret.
  rewrite set_fresh by (now apply member_false_keys).
  unfold bind at 1. rewrite remove_nodes_run.
  - cbn [nodes edges set_nodes]. f_equal. f_equal.
    rewrite filter_app, map_app. f_equal. cbn [filter fst]. rewrite Hout.
    cbn [negb map]. unfold clear_items. cbn [fst snd].
    now destruct (existsb _ _).
  - unfold removable. cbn [nodes edges set_nodes].
    eapply Forall_impl; [|exact Hids]. intros n Hn. left.
    unfold stored in Hn. now rewrite member_app, Hn.
Qed.

(** X12. When every listed identifier is stored and the new identifier is
    unused, [merge] returns the new identifier.  Under it is stored a node
    whose content is the concatenation of the listed contents in list order,
    with empty metadata and empty ancestry; the listed identifiers are
    stored no more; the other keys keep their order and the new one comes
    last.  No edge is created: the edge sequence is the former one without
    every edge that mentions a listed identifier, so the merged node
    inherits none of the links of the nodes it replaces.  A remaining node
    loses its ancestry cache exactly when it stands at a non-head position
    of a dropped edge. *)
Theorem merge_replaces_nodes_by_unlinked_node (g : Hypergraph) (new_id : node_id)
  (ids : path) :
  Dict.member new_id (nodes g) = false ->
  Forall (stored g) ids ->
  exists cs g',
    get_node_contents g ids = Ok cs /\
    merge new_id ids g = (Ok new_id, g') /\
    Dict.get new_id (nodes g') = Some (new_node (join cs)) /\
    (forall n, In n ids -> Dict.get n (nodes g') = None) /\
    Dict.keys (nodes g') =
      filter (fun k => negb (mem k ids)) (Dict.keys (nodes g)) ++ [new_id] /\
    edges g' = filter (fun e => negb (touches ids e)) (edges g) /\
    (forall k nd, ~ In k ids -> Dict.get k (nodes g) = Some nd ->
       Dict.get k (nodes g') =
       Some (if existsb (fun e => touches ids e && mem k (tl e)) (edges g)
             then clear_ancestry nd else nd)).
Proof.
  intros Hfresh Hids.
  destruct (get_node_contents_stored g ids) as [cs Hcs].
  { intros x Hx. rewrite Forall_forall in Hids. now apply Hids. }
  exists cs. eexists. split; [exact Hcs|].
  split; [exact (merge_run g new_id ids cs Hfresh Hids Hcs)|]. cbn [nodes edges].
  assert (Hout : mem new_id ids = false).
  { destruct (mem new_id ids) eqn:Hm; [|reflexivity]. apply mem_In in Hm.
    rewrite Forall_forall in Hids. specialize (Hids new_id Hm).
    unfold stored in Hids. congruence. }
  assert (Hkept : forall k, mem k ids = false -> k <> new_id ->
             Dict.get k (map (clear_items (filter (touches ids) (edges g)))
                             (filter (fun kv => negb (mem (fst kv) ids)) (nodes g))
                         ++ [(new_id, new_node (join cs))]) =
             Dict.get k (map (clear_items (filter (touches ids) (edges g)))
                             (filter (fun kv => negb (mem (fst kv) ids)) (nodes g)))).
  { intros k Hk Hne. destruct (Dict.member k (map (clear_items (filter (touches ids) (edges g)))
                             (filter (fun kv => negb (mem (fst kv) ids)) (nodes g)))) eqn:Hm.
    - now apply get_app_left.
    - rewrite get_app_right by exact Hm. simpl.
      apply String.eqb_neq in Hne. rewrite Hne.
      unfold Dict.member in Hm. now destruct (Dict.get k _). }
  split; [|split; [|split; [|split; [reflexivity|]]]].
  - rewrite get_app_right.
    + simpl. now rewrite String.eqb_refl.
    + rewrite member_clear_items. unfold Dict.member.
      rewrite (get_filter_kept (fun k => negb (mem k ids))) by (now rewrite Hout).
      exact Hfresh.
  - intros n Hn. apply mem_In in Hn. rewrite get_app_right.
    + simpl. destruct (String.eqb n new_id) eqn:He; [|reflexivity].
      apply String.eqb_eq in He. congruence.
    + rewrite member_clear_items. unfold Dict.member.
      now rewrite (get_filter_dropped (fun k => negb (mem k ids))) by (now rewrite Hn).
  - rewrite keys_app. f_equal. apply keys_clear_filter.
  - intros k nd Hk Hget.
    assert (Hmk : mem k ids = false).
    { destruct (mem k ids) eqn:Hm; [|reflexivity]. apply mem_In in Hm. contradiction. }
    rewrite Hkept; [|exact Hmk|].
    + rewrite get_clear_items, existsb_filter.
      rewrite (get_filter_kept (fun k => negb (mem k ids))) by (now rewrite Hmk).
      rewrite Hget. now destruct (existsb _ _).
    + intros ->. unfold Dict.member in Hfresh. now rewrite Hget in Hfresh.
Qed.

Lemma merge_replaces_nodes_by_unlinked_node_witness :
  exists g',
    merge "M" ["B"; "C"] diamond = (Ok "M", g') /\
    Dict.get "M" (nodes g') = Some (new_node "bc") /\
    Dict.keys (nodes g') = ["A"; "D"; "M"] /\
    edges g' = [] /\
    get_roots g' = ["A"; "D"; "M"].
Proof.
  destruct (merge_replaces_nodes_by_unlinked_node diamond "M" ["B"; "C"])
    as (cs & g' & Hcs & Hrun & Hnew & _ & Hkeys & Hedges & _).
  - reflexivity.
  - repeat constructor.
  - exists g'. vm_compute in Hcs. injection Hcs as <-.
    split; [exact Hrun|]. split; [exact Hnew|]. split; [exact Hkeys|].
    split; [exact Hedges|].
    assert (Heq : merge "M" ["B"; "C"] diamond =
                  (Ok "M", mkGraph [("A", new_node "a"); ("D", new_node "d");
                                    ("M", new_node "bc")] [])) by reflexivity.
    rewrite Hrun in Heq. injection Heq as ->. reflexivity.
Defined.

(** X13. When a listed identifier is not stored, [merge] raises [KeyError]
    before it changes anything: no node is added and none is removed. *)
Theorem merge_missing_identifier_changes_nothing (g : Hypergraph) (new_id : node_id)
  (ids : path) :
  ~ Forall (stored g) ids ->
  merge new_id ids g = (Raise KeyError, g).
Proof.
  intros Hnot. unfold merge. unfold bind at 1. unfold lift.
  now rewrite get_node_contents_missing.
Qed.

Lemma merge_missing_identifier_changes_nothing_witness :
  merge "M" ["A"; "Z"] diamond = (Raise KeyError, diamond).
Proof.
  apply merge_missing_identifier_changes_nothing. intros Hall.
  apply Forall_cons_iff in Hall. destruct Hall as [_ Hall].
  apply Forall_cons_iff in Hall. destruct Hall as [Hz _]. discriminate.
Defined.

(** ** _refactor *)

Lemma get_removed_after_merge (es : list path) (ids : path) (d tail : Dict.t Node)
  (n : node_id) :
  In n ids ->
  Dict.member n tail = false ->
  Dict.get n (map (clear_items es) (filter (fun kv => negb (mem (fst kv) ids)) d)
              ++ tail) = None.
Proof.
  intros Hin Htail. apply mem_In in Hin.
  assert (Hgone : Dict.member n (map (clear_items es)
                    (filter (fun kv => negb (mem (fst kv) ids)) d)) = false).
  { rewrite member_clear_items. unfold Dict.member.
    now rewrite (get_filter_dropped (fun k => negb (mem k ids))) by (now rewrite Hin). }
  rewrite get_app_right by exact Hgone.
  unfold Dict.member in Htail. now destruct (Dict.get n tail).
Qed.

Lemma children_in_ok_shape (es : list path) (n : node_id) (cs : list node_id) :
  children_in es n = Ok cs -> Forall (fun e => e <> []) es.
Proof.
  revert cs. induction es as [|e es IH]; intros cs Hrun; [constructor|].
  destruct e as [|h t]; [discriminate|]. cbn [children_in] in Hrun.
  constructor; [discriminate|].
  destruct (String.eqb h n).
  - destruct t; [discriminate|].
    destruct (children_in es n) as [cs'|] eqn:Hes; [|discriminate]. now apply (IH cs').
  - now apply (IH cs).
Qed.

Lemma no_children_after_merge (g : Hypergraph) (n : node_id) (ids : path)
  (cs : list node_id) :
  get_children g n = Ok cs -> In n ids ->
  children_in (filter (fun e => negb (touches ids e)) (edges g)) n = Ok [].
Proof.
  intros Hrun Hin. apply children_in_other_heads.
  apply children_in_ok_shape in Hrun. rewrite Forall_forall in Hrun.
  apply Forall_forall. intros e He. apply filter_In in He. destruct He as [He Hfree].
  destruct e as [|h t]; [now elim (Hrun [] He)|].
  exists h, t. split; [reflexivity|]. intros ->.
  apply negb_true_iff in Hfree.
  assert (Ht : touches ids (n :: t) = true).
  { unfold touches. apply existsb_exists. exists n. split; [exact Hin|].
    simpl. now rewrite String.eqb_refl. }
  congruence.
Qed.

(** X14. [_refactor] on a stored node [n] whose only child is the stored node
    [c], the next identifier being unused: [n] and [c] are merged once, and
    no other node is visited, since the merged node has no children.  If the
    two contents differ the call returns normally.  If they are equal the
    merge is done by the equal-content loop and then attempted again on the
    children list read beforehand: the call raises [KeyError] and leaves the
    graph as the first merge made it. *)
Theorem refactor_only_child (d : nat) (uuid : nat -> node_id) (k : nat)
  (g : Hypergraph) (n c : node_id) (nd cnd : Node) :
  Dict.get n (nodes g) = Some nd ->
  Dict.get c (nodes g) = Some cnd ->
  get_children g n = Ok [c] ->
  Dict.member (uuid k) (nodes g) = false ->
  exists g',
    merge (uuid k) [n; c] g = (Ok (uuid k), g') /\
    Dict.get (uuid k) (nodes g') =
      Some (new_node (content nd ++ content cnd)%string) /\
    _refactor (S d) uuid k n g =
      if String.eqb (content cnd) (content nd)
      then (Raise KeyError, g') else (Ok (S k), g').
Proof.
  intros Hn Hc Hch Hfresh.
  assert (Hids : Forall (stored g) [n; c]).
  { repeat constructor; unfold stored, Dict.member; [now rewrite Hn|now rewrite Hc]. }
  assert (Hcs : get_node_contents g [n; c] = Ok [content nd; content cnd]).
  { cbn [get_node_contents]. now rewrite Hn, Hc. }
  pose proof (merge_run g (uuid k) [n; c] _ Hfresh Hids Hcs) as Hmerge.
  set (g' := mkGraph (map (clear_items (filter (touches [n; c]) (edges g)))
                          (filter (fun kv => negb (mem (fst kv) [n; c])) (nodes g))
                      ++ [(uuid k, new_node (join [content nd; content cnd]))])
                     (filter (fun e => negb (touches [n; c] e)) (edges g))) in *.
  assert (Hjoin : join [content nd; content cnd] = (content nd ++ content cnd)%string).
  { unfold join. cbn [String.concat]. reflexivity. }
  assert (Hgone : Dict.get n (nodes g') = None).
  { apply get_removed_after_merge; [now left|].
    unfold Dict.member. simpl. destruct (String.eqb n (uuid k)) eqn:He; [|reflexivity].
    apply String.eqb_eq in He. subst n. unfold Dict.member in Hfresh.
    now rewrite Hn in Hfresh. }
  assert (Hnone : get_children g' n = Ok []).
  { apply (no_children_after_merge g n [n; c] [c] Hch). now left. }
  exists g'. split; [exact Hmerge|]. split.
  - cbn [nodes g']. rewrite get_app_right.
    + simpl. now rewrite String.eqb_refl, Hjoin.
    + rewrite member_clear_items. unfold Dict.member.
      rewrite (get_filter_kept (fun k => negb (mem k [n; c]))); [exact Hfresh|].
      destruct (mem (uuid k) [n; c]) eqn:Hm; [|reflexivity].
      apply mem_In in Hm. rewrite Forall_forall in Hids.
      specialize (Hids _ Hm). unfold stored in Hids. congruence.
  - cbn [_refactor]. unfold bind at 1. unfold lookup at 1. rewrite Hn.
    unfold bind at 1. unfold lift at 1. rewrite Hch.
    unfold bind at 1. cbn [merge_equal_children].
    unfold bind at 1. unfold lookup at 1. rewrite Hc.
    destruct (String.eqb (content cnd) (content nd)).
    + unfold bind at 1. rewrite Hmerge. unfold ret at 1.
      unfold bind at 1. unfold bind at 1.
      assert (Hagain : merge (uuid (S k)) [n; c] g' = (Raise KeyError, g')).
      { unfold merge. unfold bind at 1. unfold lift.
        cbn [get_node_contents]. now rewrite Hgone. }
      now rewrite Hagain.
    + unfold ret at 1. unfold bind at 1. unfold bind at 1. rewrite Hmerge.
      unfold ret at 1. unfold bind at 1. unfold lift. rewrite Hnone.
      reflexivity.
Qed.

Lemma refactor_only_child_witness :
  (exists g',
     merge "u" ["r"; "c"] equal_pair = (Ok "u", g') /\
     _refactor 1 test_uuid 0 "r" equal_pair = (Raise KeyError, g')) /\
  (exists g',
     merge "u" ["p"; "x"] chain3 = (Ok "u", g') /\
     Dict.get "u" (nodes g') = Some (new_node "PHello World!") /\
     _refactor 1 test_uuid 0 "p" chain3 = (Ok 1, g')).
Proof.
  split.
  - destruct (refactor_only_child 0 test_uuid 0 equal_pair "r" "c"
                (new_node "a") (mkNode "a" [] [["r"]]) eq_refl eq_refl eq_refl eq_refl)
      as (g' & Hmerge & _ & Hrun).
    exists g'. split; [exact Hmerge|exact Hrun].
  - destruct (refactor_only_child 0 test_uuid 0 chain3 "p" "x"
                (new_node "P") (mkNode "Hello World!" [] [["p"]])
                eq_refl eq_refl eq_refl eq_refl)
      as (g' & Hmerge & Hnew & Hrun).
    exists g'. split; [exact Hmerge|]. split; [exact Hnew|exact Hrun].
Defined.

(** ** check_for_cycles *)

(** The walk only ever appends to [visited]. *)
Lemma check_for_cycles_extends (depth : nat) (g : Hypergraph) :
  forall n visited r visited',
    _check_for_cycles depth g n visited = (r, visited') ->
    exists ext, visited' = visited ++ ext /\
                (r = Ok false -> In n visited').
Proof.
  induction depth as [|d IH]; intros n visited r visited' Hrun.
  - simpl in Hrun. injection Hrun as <- <-. exists []. rewrite app_nil_r.
    split; [reflexivity|discriminate].
  - cbn [_check_for_cycles] in Hrun.
    destruct (mem n visited) eqn:Hseen.
    { injection Hrun as <- <-. exists []. rewrite app_nil_r.
      split; [reflexivity|discriminate]. }
    destruct (get_children g n) as [cs|e].
    2:{ injection Hrun as <- <-. exists [n]. split; [reflexivity|discriminate]. }
    assert (Heach : forall cs v r v',
               (fix each (cs : list node_id) (visited : path) : result bool * path :=
                  match cs with
                  | [] => (Ok false, visited)
                  | c :: r =>
                      match _check_for_cycles d g c visited with
                      | (Ok false, visited') => each r visited'
                      | other => other
                      end
                  end) cs v = (r, v') ->
               exists ext, v' = v ++ ext).
    { clear Hrun cs. intros cs. induction cs as [|c cs IHcs]; intros v r0 v' Hrun.
      - cbn in Hrun. injection Hrun as <- <-. exists []. now rewrite app_nil_r.
      - cbn beta iota fix in Hrun.
        destruct (_check_for_cycles d g c v) as [rc vc] eqn:Hc.
        destruct (IH c v rc vc Hc) as (ext1 & -> & _).
        destruct rc as [[|]|e].
        + injection Hrun as <- <-. now exists ext1.
        + destruct (IHcs _ _ _ Hrun) as (ext2 & ->).
          exists (ext1 ++ ext2). now rewrite app_assoc.
        + injection Hrun as <- <-. now exists ext1. }
    destruct (Heach cs (visited ++ [n]) r visited' Hrun) as (ext & ->).
    exists ([n] ++ ext). rewrite app_assoc. split; [reflexivity|].
    intros _. apply in_or_app. left. apply in_or_app. right. now left.
Qed.

(** X15. [_check_for_cycles] never removes an identifier from [visited]: the
    list it leaves behind, whatever the outcome, is the list it was given
    followed by the identifiers it appended.  A walk that answered [False]
    at [n] has recorded [n], so that any later walk reaching [n] with that
    list answers [True] at once, by whichever path [n] is reached. *)
Theorem check_for_cycles_never_forgets (depth : nat) (g : Hypergraph) (n : node_id)
  (visited visited' : path) (r : result bool) :
  _check_for_cycles depth g n visited = (r, visited') ->
  (exists ext, visited' = visited ++ ext) /\
  (r = Ok false ->
   forall d later, _check_for_cycles (S d) g n (visited' ++ later) =
                   (Ok true, visited' ++ later)).
Proof.
  intros Hrun.
  destruct (check_for_cycles_extends depth g n visited r visited' Hrun)
    as (ext & Hext & Hin).
  split; [now exists ext|].
  intros Hr d later. cbn [_check_for_cycles].
  assert (Hmem : mem n (visited' ++ later) = true).
  { apply mem_In, in_or_app. left. now apply Hin. }
  now rewrite Hmem.
Qed.

Lemma check_for_cycles_never_forgets_witness :
  _check_for_cycles 3 diamond "B" ["A"] = (Ok false, ["A"; "B"; "D"]) /\
  _check_for_cycles 1 diamond "D" ["A"; "B"; "D"] = (Ok true, ["A"; "B"; "D"]).
Proof.
  assert (Hrun : _check_for_cycles 3 diamond "B" ["A"] = (Ok false, ["A"; "B"; "D"]))
    by reflexivity.
  split; [exact Hrun|].
  destruct (check_for_cycles_never_forgets 3 diamond "D" ["A"; "B"] ["A"; "B"; "D"]
              (Ok false) eq_refl) as [_ Hlater].
  rewrite <- (app_nil_r ["A"; "B"; "D"]). exact (Hlater eq_refl 0 []).
Defined.

Lemma check_roots_childless (d : nat) (g : Hypergraph) (roots : list node_id) :
  Forall (fun r => get_children g r = Ok []) roots ->
  check_roots (S d) g roots = Ok (Nat.eqb (List.length (get_roots g)) 0).
Proof.
  induction roots as [|r roots IH]; intros Hall; [reflexivity|].
  apply Forall_cons_iff in Hall. destruct Hall as [Hr Hrest].
  cbn [check_roots _check_for_cycles mem existsb]. rewrite Hr. cbn [fst].
  now apply IH.
Qed.

(** X16. [check_for_cycles] walks from the roots only.  When the graph has a
    root and no root has a child, it answers [False] whatever the edges
    between the other nodes are, cycles included.  When the graph has no
    root at all it answers [True] without walking; the empty graph is such
    a graph. *)
Theorem check_for_cycles_only_walks_from_roots (g : Hypergraph) :
  (get_roots g <> [] ->
   Forall (fun r => get_children g r = Ok []) (get_roots g) ->
   forall d, check_for_cycles (S d) g = Ok false) /\
  (get_roots g = [] -> forall depth, check_for_cycles depth g = Ok true).
Proof.
  split.
  - intros Hne Hall d. unfold check_for_cycles.
    rewrite check_roots_childless by exact Hall.
    destruct (get_roots g); [contradiction|reflexivity].
  - intros Hnone depth. unfold check_for_cycles. rewrite Hnone.
    cbn [check_roots]. now rewrite Hnone.
Qed.

Lemma check_for_cycles_only_walks_from_roots_witness :
  check_for_cycles 1
    (run (add_node "R" (new_node "r")) cycle3) = Ok false /\
  check_for_cycles 0 empty_graph = Ok true.
Proof.
  split.
  - apply (proj1 (check_for_cycles_only_walks_from_roots
                    (run (add_node "R" (new_node "r")) cycle3))).
    + vm_compute. discriminate.
    + vm_compute. repeat constructor.
  - now apply (proj2 (check_for_cycles_only_walks_from_roots empty_graph)).
Defined.

(** ** get_ancestry on arbitrary graphs *)

Lemma flat_map_result_In {A B : Type} (f : A -> result (list B)) (l : list A)
  (r : list B) :
  flat_map_result f l = Ok r ->
  forall y, In y r <-> exists x ys, In x l /\ f x = Ok ys /\ In y ys.
Proof.
  revert r. induction l as [|x l IH]; intros r Hrun y.
  - injection Hrun as <-. split; [intros []|]. now intros (x & ys & [] & _).
  - cbn [flat_map_result] in Hrun.
    destruct (f x) as [ys|] eqn:Hx; [|discriminate].
    destruct (flat_map_result f l) as [zs|] eqn:Hl; [|discriminate].
    injection Hrun as <-. rewrite in_app_iff, (IH zs eq_refl y). split.
    + intros [Hy|(x' & ys' & Hin & Hf & Hy)].
      * exists x, ys. repeat split; auto. now left.
      * exists x', ys'. repeat split; auto. now right.
    + intros (x' & ys' & [->|Hin] & Hf & Hy).
      * left. rewrite Hx in Hf. now injection Hf as ->.
      * right. now exists x', ys'.
Qed.

(** Whenever [_get_ancestries] returns, it has enumerated the full lineages
    of the node, each without its first element. *)
Lemma get_ancestries_exact (g : Hypergraph) (depth : nat) :
  forall n r,
    _get_ancestries depth g n = Ok r ->
    forall q, In q r <-> lineage g n (n :: q).
Proof.
  induction depth as [|d IH]; intros n r Hrun q; [discriminate|].
  destruct (Dict.get n (nodes g)) as [nd|] eqn:Hget.
  2:{ cbn [_get_ancestries] in Hrun. now rewrite Hget in Hrun. }
  rewrite (get_ancestries_unfold g d n nd Hget) in Hrun.
  destruct (is_root nd) eqn:Hroot.
  - injection Hrun as <-. apply is_root_true in Hroot. split.
    + intros [<-|[]]. now apply (lineage_root g n nd).
    + intros Hl. inversion Hl as [n0 nd0 Hg0 Ha0|n0 nd0 p a q0 Hg0 Hp]; subst.
      * now left.
      * rewrite Hget in Hg0. injection Hg0 as <-. rewrite Hroot in Hp. contradiction.
  - apply is_root_false in Hroot.
    rewrite (flat_map_result_In _ _ _ Hrun q). split.
    + intros (p & ys & Hp & Hf & Hq).
      destruct (last_error p) as [a|] eqn:Hlast; [|discriminate].
      destruct (_get_ancestries d g a) as [r'|] eqn:Ha; [|discriminate].
      cbn [result_map] in Hf. injection Hf as <-.
      apply in_map_iff in Hq. destruct Hq as (q' & <- & Hq').
      apply (lineage_step g n nd p a q' Hget Hp Hlast).
      now apply (IH a r' Ha).
    + intros Hl. inversion Hl as [n0 nd0 Hg0 Ha0|n0 nd0 p a q0 Hg0 Hp Hlast Hrest]; subst.
      * rewrite Hget in Hg0. injection Hg0 as <-. contradiction.
      * rewrite Hget in Hg0. injection Hg0 as <-.
        assert (Hf : exists ys,
                   match last_error p with
                   | None => Raise IndexError
                   | Some a =>
                       result_map (map (fun q => p ++ q)) (_get_ancestries d g a)
                   end = Ok ys).
        { clear - Hrun Hp. revert r Hrun.
          induction (ancestry nd) as [|x l IHl]; intros r Hrun; [contradiction|].
          cbn [flat_map_result] in Hrun.
          match type of Hrun with
          | match ?fx with _ => _ end = _ => destruct fx as [ys|] eqn:Hx; [|discriminate]
          end.
          destruct Hp as [->|Hp]; [now exists ys|].
          match type of Hrun with
          | match ?fl with _ => _ end = _ => destruct fl as [zs|] eqn:Hl; [|discriminate]
          end.
          now apply (IHl Hp zs). }
        destruct Hf as [ys Hf]. exists p, ys. split; [exact Hp|]. split; [exact Hf|].
        rewrite Hlast in Hf.
        destruct (_get_ancestries d g a) as [r'|] eqn:Ha; [|discriminate].
        cbn [result_map] in Hf. injection Hf as <-.
        apply in_map. now apply (IH a r' Ha).
Qed.

(** X17. Whenever [get_ancestry n] returns, on any graph, cyclic ones
    included, the paths it returns are exactly the full lineages of [n]:
    each starts with [n], follows ancestry entries from last element to last
    element, and ends in a root; none is missing.  For an identifier that is
    not stored it raises [KeyError]. *)
Theorem get_ancestry_exact_when_it_returns (g : Hypergraph) (n : node_id) :
  (forall depth ls,
      NoDup (Dict.keys (nodes g)) ->
      get_ancestry depth g n = Ok ls ->
      forall l, In l ls <-> lineage g n l) /\
  (Dict.member n (nodes g) = false ->
   forall d, get_ancestry (S d) g n = Raise KeyError).
Proof.
  split.
  - intros depth ls Hnd Hrun l. unfold get_ancestry in Hrun.
    destruct (mem n (get_roots g)) eqn:Hroot.
    + injection Hrun as <-.
      assert (Hkey : Dict.member n (nodes g) = true).
      { apply member_In_keys, roots_are_keys. now apply mem_In. }
      destruct (member_get n (nodes g) Hkey) as [nd Hget].
      rewrite (mem_get_roots g n nd Hnd Hget) in Hroot. apply is_root_true in Hroot.
      split.
      * intros [<-|[]]. now apply (lineage_root g n nd).
      * intros Hl. inversion Hl as [n0 nd0 Hg0 Ha0|n0 nd0 p a q0 Hg0 Hp]; subst.
        -- now left.
        -- rewrite Hget in Hg0. injection Hg0 as <-. rewrite Hroot in Hp. contradiction.
    + destruct (_get_ancestries depth g n) as [r|] eqn:Hr; [|discriminate].
      cbn [result_map] in Hrun. injection Hrun as <-. split.
      * intros Hl. apply in_map_iff in Hl. destruct Hl as (q & <- & Hq).
        now apply (get_ancestries_exact g depth n r Hr).
      * intros Hl. destruct (lineage_head g n l Hl) as [q ->].
        apply in_map. now apply (get_ancestries_exact g depth n r Hr).
  - intros Hout d. unfold get_ancestry.
    assert (Hroot : mem n (get_roots g) = false).
    { destruct (mem n (get_roots g)) eqn:Hm; [|reflexivity].
      apply mem_In, roots_are_keys, member_In_keys in Hm. congruence. }
    rewrite Hroot. cbn [_get_ancestries].
    unfold Dict.member in Hout. now destruct (Dict.get n (nodes g)).
Qed.

Lemma get_ancestry_exact_when_it_returns_witness :
  (forall l, In l [["D"; "B"; "A"]; ["D"; "C"; "A"]] <-> lineage diamond "D" l) /\
  get_ancestry 1 diamond "Z" = Raise KeyError.
Proof.
  destruct (get_ancestry_exact_when_it_returns diamond "D") as [Hexact _].
  destruct (get_ancestry_exact_when_it_returns diamond "Z") as [_ Hmissing].
  split.
  - apply (Hexact 3); [|reflexivity].
    vm_compute. repeat constructor; simpl; intuition discriminate.
  - now apply Hmissing.
Defined.

(** ** common_ancestor: the outcomes that are not a node *)

(** X18. [common_ancestor] on the empty list raises [TypeError].  On a
    non-empty list on which [get_ancestry] returns, when some identifier lies
    on every lineage but every such identifier is itself one of the queried
    ones, it raises [IndexError]; the missing-result value is not returned in
    that case.  So the common ancestor of a root alone, or of a node and one
    of its own ancestors up to the root, is an error. *)
Theorem common_ancestor_raises_without_outside_ancestor :
  (forall (ord : SetOrder) (depth : nat) (g : Hypergraph),
      common_ancestor ord depth g [] = Raise TypeError) /\
  (forall (ord : SetOrder) (depth : nat) (g : Hypergraph) (ids : path)
          (lss : list (list path)) (x : node_id),
      ids <> [] ->
      Forall2 (fun n ls => get_ancestry depth g n = Ok ls) ids lss ->
      (forall l y, In l (List.concat lss) -> In y l ->
                   Dict.member y (nodes g) = true) ->
      on_every_lineage lss x ->
      (forall y, on_every_lineage lss y -> In y ids) ->
      common_ancestor ord depth g ids = Raise IndexError).
Proof.
  split; [reflexivity|].
  intros ord depth g ids lss x Hne Hlss Hstored Hx Hall.
  destruct (common_ancestor_sorted ord depth g ids lss Hne Hlss Hstored)
    as (m & Hin & Hrun).
  rewrite Hrun. clear Hrun.
  set (sorted := map snd (stable_sort (map (fun x => (ancestry_count g x, x)) m))).
  assert (Hsorted : forall y, In y sorted -> In y m).
  { intros y Hy. apply in_map_iff in Hy. destruct Hy as ([k y'] & Heq & Hy).
    simpl in Heq. subst y'.
    apply (Permutation_in _ (stable_sort_perm _)) in Hy.
    apply in_map_iff in Hy. destruct Hy as (z & Hz & Hzin).
    now injection Hz as _ <-. }
  assert (Hnonempty : sorted <> []).
  { intros Hnil.
    assert (Hxs : In x sorted).
    { apply in_map_iff. exists (ancestry_count g x, x). split; [reflexivity|].
      apply (Permutation_in _ (Permutation_sym (stable_sort_perm _))).
      apply in_map_iff. exists x. split; [reflexivity|]. now apply Hin. }
    rewrite Hnil in Hxs. contradiction. }
  assert (Hnone : filter (fun y => negb (mem y ids)) sorted = []).
  { apply filter_none. apply Forall_forall. intros y Hy.
    apply negb_false_iff, mem_In, Hall, Hin, Hsorted, Hy. }
  destruct sorted as [|s rest]; [contradiction|]. now rewrite Hnone.
Qed.

Lemma common_ancestor_raises_without_outside_ancestor_witness :
  common_ancestor first_seen 2 diamond ["A"; "B"] = Raise IndexError.
Proof.
  destruct common_ancestor_raises_without_outside_ancestor as [_ Hraise].
  apply (Hraise first_seen 2 diamond ["A"; "B"] [[["A"]]; [["B"; "A"]]] "A").
  - discriminate.
  - repeat constructor.
  - intros l y Hl Hy. simpl in Hl.
    destruct Hl as [<-|[<-|[]]]; simpl in Hy;
      repeat (destruct Hy as [<-|Hy]; [reflexivity|]); contradiction.
  - intros l Hl. simpl in Hl. destruct Hl as [<-|[<-|[]]]; simpl; auto.
  - intros y Hy. specialize (Hy ["A"]). simpl in Hy.
    destruct Hy as [<-|[]]; [now left|now left].
Defined.

(** ** to_dict after from_dict *)

Lemma from_dict_run (st : StateDict) (receiver : Hypergraph) :
  NoDup (Dict.keys (d_nodes st)) ->
  from_dict st receiver =
  (Ok tt,
   mkGraph (map (fun kv => (fst kv, mkNode (d_content (snd kv)) (d_metadata (snd kv))
                                          (d_ancestry (snd kv)))) (d_nodes st))
           (d_edges st)).
Proof.
  intros Hnd. unfold from_dict, bind, modify at 1 2. rewrite from_dict_loop.
  unfold set_nodes, set_edges; simpl nodes; simpl edges.
  now rewrite (fill_fresh (fun d => mkNode (d_content d) (d_metadata d) (d_ancestry d))).
Qed.

(** X19. Loading a dictionary and dumping the graph again gives the
    dictionary back: same identifiers in the same order, same three fields
    under each, same edges.  What the receiving graph held before is
    discarded, and nothing is checked: the ancestry fields and the edges are
    stored as given, whether or not they agree. *)
Theorem to_dict_from_dict_roundtrip (st : StateDict) (receiver : Hypergraph) :
  NoDup (Dict.keys (d_nodes st)) ->
  fst (from_dict st receiver) = Ok tt /\
  to_dict (run (from_dict st) receiver) = st /\
  run (from_dict st) receiver = run (from_dict st) empty_graph /\
  edges (run (from_dict st) receiver) = d_edges st /\
  (forall n, ancestry_of (run (from_dict st) receiver) n =
             option_map d_ancestry (Dict.get n (d_nodes st))).
Proof.
  intros Hnd. unfold run.
  rewrite (from_dict_run st receiver Hnd), (from_dict_run st empty_graph Hnd).
  cbn [fst snd]. split; [reflexivity|]. split; [|split; [reflexivity|split; [reflexivity|]]].
  - unfold to_dict. cbn [nodes edges].
    rewrite (fill_fresh (fun nd => mkNodeDict (content nd) (metadata nd) (ancestry nd))).
    + cbn [app]. rewrite map_map. cbn [fst snd content metadata ancestry].
      destruct st as [ds es]. cbn [d_nodes d_edges]. f_equal.
      rewrite <- (map_id ds) at 2. apply map_ext. now intros [k [c m a]].
    + cbn [Dict.keys map app]. unfold Dict.keys. rewrite map_map. exact Hnd.
  - intros n. unfold ancestry_of. cbn [nodes].
    rewrite (get_map_values
               (fun d => mkNode (d_content d) (d_metadata d) (d_ancestry d))).
    now destruct (Dict.get n (d_nodes st)).
Qed.

Lemma to_dict_from_dict_roundtrip_witness :
  to_dict (run (from_dict
                  (mkStateDict [("node1", mkNodeDict "Hello " [] []);
                                ("node2", mkNodeDict "World!" [] [["ghost"]])]
                               [["node1"; "node2"]])) diamond) =
  mkStateDict [("node1", mkNodeDict "Hello " [] []);
               ("node2", mkNodeDict "World!" [] [["ghost"]])]
              [["node1"; "node2"]].
Proof.
  apply to_dict_from_dict_roundtrip.
  vm_compute. repeat constructor; simpl; intuition discriminate.
Defined.

(** ** split: the order of the offsets *)

Lemma insert_Z_comm (x y : Z) (l : list Z) :
  insert_Z x (insert_Z y l) = insert_Z y (insert_Z x l).
Proof.
  induction l as [|z l IH]; cbn [insert_Z].
  - destruct (Z.leb_spec x y), (Z.leb_spec y x); try reflexivity; try lia.
    assert (x = y) by lia. now subst.
  - destruct (Z.leb_spec y z), (Z.leb_spec x z); cbn [insert_Z].
    + destruct (Z.leb_spec x y), (Z.leb_spec y x), (Z.leb_spec x z), (Z.leb_spec y z);
        try reflexivity; try lia.
      assert (x = y) by lia. now subst.
    + destruct (Z.leb_spec x y), (Z.leb_spec y z), (Z.leb_spec x z);
        try reflexivity; lia.
    + destruct (Z.leb_spec y x), (Z.leb_spec y z), (Z.leb_spec x z);
        try reflexivity; lia.
    + destruct (Z.leb_spec x z), (Z.leb_spec y z); try lia. now rewrite IH.
Qed.

Lemma sort_Z_perm (l l' : list Z) : Permutation l l' -> sort_Z l = sort_Z l'.
Proof.
  unfold sort_Z. induction 1 as [|x l l' _ IH|x y l|l l' l'' _ IH1 _ IH2]; cbn [fold_right].
  - reflexivity.
  - now rewrite IH.
  - apply insert_Z_comm.
  - now rewrite IH1.
Qed.

(** X20. [split] sorts the offsets before it cuts: two lists holding the
    same offsets in different orders give the same pieces, the same
    identifiers and the same graph, and a single offset behaves as the
    one-element list.  The offsets used are in ascending order. *)
Theorem split_ignores_offset_order (uuid : nat -> node_id) (g : Hypergraph)
  (n : node_id) (bs bs' : list Z) :
  Permutation bs bs' ->
  split uuid n (Offsets bs) g = split uuid n (Offsets bs') g /\
  Sorted Z.le (offsets (Offsets bs)) /\
  forall b, split uuid n (Offset b) g = split uuid n (Offsets [b]) g.
Proof.
  intros Hperm. split; [|split].
  - unfold split. cbn [offsets]. now rewrite (sort_Z_perm bs bs' Hperm).
  - apply sort_Z_sorted.
  - reflexivity.
Qed.

Lemma split_ignores_offset_order_witness :
  split test_uuid "h" (Offsets [6%Z; 2%Z]) hello =
  split test_uuid "h" (Offsets [2%Z; 6%Z]) hello /\
  fst (split test_uuid "h" (Offsets [6%Z; 2%Z]) hello) = Ok ["u"; "u'"; "u''"] /\
  get_node_contents (run (split test_uuid "h" (Offsets [6%Z; 2%Z])) hello)
                    ["u"; "u'"; "u''"] = Ok ["He"; "llo "; "World!"].
Proof.
  split; [|split; reflexivity].
  exact (proj1 (split_ignores_offset_order test_uuid hello "h" [6%Z; 2%Z] [2%Z; 6%Z]
                  (perm_swap 2%Z 6%Z []))).
Defined.

(** ** merge after split *)

Lemma get_node_contents_nth (g : Hypergraph) :
  forall (ids : path) (cs : list string),
    List.length ids = List.length cs ->
    (forall i k c, nth_error ids i = Some k -> nth_error cs i = Some c ->
                   exists nd, Dict.get k (nodes g) = Some nd /\ content nd = c) ->
    get_node_contents g ids = Ok cs.
Proof.
  induction ids as [|k ids IH]; intros [|c cs] Hlen Hnth; try discriminate.
  - reflexivity.
  - cbn [get_node_contents].
    destruct (Hnth 0 k c eq_refl eq_refl) as (nd & -> & <-).
    rewrite (IH cs); [reflexivity|simpl in Hlen; lia|].
    intros i k' c' Hk Hc. exact (Hnth (S i) k' c' Hk Hc).
Qed.

Lemma get_combine_nth {V W : Type} (f : V -> W) :
  forall (ids : path) (vs : list V) (i : nat) (k : node_id) (v : V),
    NoDup ids ->
    nth_error ids i = Some k -> nth_error vs i = Some v ->
    Dict.get k (map (fun kv => (fst kv, f (snd kv))) (combine ids vs)) = Some (f v).
Proof.
  induction ids as [|k0 ids IH]; intros [|v0 vs] i k v Hnd Hk Hv;
    try (destruct i; discriminate).
  apply NoDup_cons_iff in Hnd. destruct Hnd as [Hout Hnd].
  destruct i as [|i]; cbn [nth_error] in Hk, Hv; cbn [combine map Dict.get fst snd].
  - injection Hk as ->. injection Hv as ->. now rewrite String.eqb_refl.
  - assert (Hne : String.eqb k k0 = false).
    { apply String.eqb_neq. intros ->. apply Hout. eapply nth_error_In; eauto. }
    rewrite Hne. now apply (IH vs i).
Qed.

Lemma member_remove_absent {V : Type} (k n : node_id) (d : Dict.t V) :
  Dict.member k d = false -> Dict.member k (Dict.remove n d) = false.
Proof.
  intros Hk. destruct (string_dec k n) as [->|Hne].
  - apply member_remove_same.
  - now rewrite member_remove_other.
Qed.

Lemma member_filter_absent {V : Type} (P : node_id * V -> bool) (k : node_id)
  (d : Dict.t V) :
  Dict.member k d = false -> Dict.member k (filter P d) = false.
Proof.
  intros Hk. apply member_false_keys. apply member_false_keys in Hk.
  intros Hin. apply Hk. unfold Dict.keys in *. apply in_map_iff in Hin.
  destruct Hin as (kv & <- & Hkv). apply filter_In in Hkv. now apply in_map.
Qed.

Lemma touches_In (ids e : path) (k : node_id) :
  In k ids -> In k e -> touches ids e = true.
Proof.
  intros Hk He. unfold touches. apply existsb_exists. exists k.
  split; [exact Hk|now apply mem_In].
Qed.

(** X21. [merge] after [split] restores the content and nothing else.  Under
    the conditions in which [split n b] rewires the graph (see C6), with
    non-negative offsets, merging the returned pieces under an unused
    identifier succeeds and yields a node holding the content of [n] again,
    but with empty metadata and ancestry; [n] and the pieces are stored no
    more, and of the former edges only those survive that mention neither
    [n] nor a piece: every link of the original node is lost. *)
Theorem merge_after_split_restores_content_only (uuid : nat -> node_id)
  (g : Hypergraph) (n m : node_id) (nd : Node) (boundary : boundary_t)
  (children : list node_id) :
  Dict.get n (nodes g) = Some nd ->
  NoDup (piece_ids uuid nd boundary) ->
  (forall x, In x (piece_ids uuid nd boundary) -> Dict.member x (nodes g) = false) ->
  (forall p, In p (ancestry nd) ->
             p <> [] /\
             forall x, In x p -> x <> n /\ Dict.member x (nodes g) = true) ->
  get_children g n = Ok children ->
  (forall c, In c children -> c <> n /\ Dict.member c (nodes g) = true) ->
  Forall (fun b => (0 <= b)%Z) (offsets boundary) ->
  Dict.member m (nodes g) = false ->
  ~ In m (piece_ids uuid nd boundary) ->
  exists g1 g2,
    split uuid n boundary g = (Ok (piece_ids uuid nd boundary), g1) /\
    merge m (piece_ids uuid nd boundary) g1 = (Ok m, g2) /\
    Dict.get m (nodes g2) = Some (new_node (content nd)) /\
    Dict.get n (nodes g2) = None /\
    (forall k, In k (piece_ids uuid nd boundary) -> Dict.get k (nodes g2) = None) /\
    edges g2 =
      filter (fun e => negb (touches (piece_ids uuid nd boundary) e))
             (filter (fun e => negb (mem n e)) (edges g)).
Proof.
  intros Hget Hnd Hfresh Hanc Hch Hchild Hpos Hm Hm_ids.
  destruct (split_final_state uuid g n nd boundary children
              Hget Hnd Hfresh Hanc Hch Hchild)
    as (first & last_piece & g1 & Hhd & Hlast & Hsplit & Hskel & Hedges & _).
  set (ids := piece_ids uuid nd boundary) in *.
  set (cs := piece_contents nd boundary) in *.
  assert (Hlen : List.length ids = List.length cs).
  { unfold ids, cs, piece_ids. now rewrite length_map, length_seq. }
  assert (Hn_ids : ~ In n ids).
  { intros Hin. apply Hfresh in Hin. unfold Dict.member in Hin. now rewrite Hget in Hin. }
  assert (Hold : forall k, Dict.member k (nodes g) = false ->
                           Dict.member k (Dict.remove n (skeleton g)) = false).
  { intros k Hk. apply member_remove_absent. now rewrite member_skeleton. }
  assert (Hpiece : forall i k c, nth_error ids i = Some k -> nth_error cs i = Some c ->
                                 Dict.get k (skeleton g1) = Some (c, [])).
  { intros i k c Hk Hc. rewrite Hskel.
    rewrite get_app_right by (apply Hold, Hfresh; eapply nth_error_In; eauto).
    exact (get_combine_nth (fun c => (c, @nil (string * string))) ids cs i k c
             Hnd Hk Hc). }
  assert (Hget1 : forall k, Dict.get k (skeleton g1) =
                            option_map (fun nd => (content nd, metadata nd))
                                       (Dict.get k (nodes g1))).
  { intros k. unfold skeleton.
    exact (get_map_values (fun nd => (content nd, metadata nd)) k (nodes g1)). }
  assert (Hcs : get_node_contents g1 ids = Ok cs).
  { apply get_node_contents_nth; [exact Hlen|].
    intros i k c Hk Hc. pose proof (Hpiece i k c Hk Hc) as Hp.
    rewrite Hget1 in Hp. destruct (Dict.get k (nodes g1)) as [nd'|]; [|discriminate].
    exists nd'. split; [reflexivity|]. simpl in Hp. now injection Hp as -> _. }
  assert (Hstored : Forall (stored g1) ids).
  { apply Forall_forall. intros k Hk. apply In_nth_error in Hk. destruct Hk as [i Hi].
    destruct (nth_error cs i) as [c|] eqn:Hc.
    - unfold stored. rewrite <- member_skeleton. unfold Dict.member.
      now rewrite (Hpiece i k c Hi Hc).
    - apply nth_error_None in Hc.
      assert (i < List.length ids) by (apply nth_error_Some; congruence). lia. }
  assert (Hnew_keys : forall k, ~ In k ids ->
             Dict.member k (map (fun kc : node_id * string =>
                                   (fst kc, (snd kc, @nil (string * string))))
                                (combine ids cs)) = false).
  { intros k Hk. apply member_false_keys. unfold Dict.keys.
    now rewrite keys_combine_contents. }
  assert (Hm1 : Dict.member m (nodes g1) = false).
  { rewrite <- member_skeleton, Hskel, member_app, (Hold m Hm).
    now rewrite Hnew_keys. }
  assert (Hn1 : Dict.member n (nodes g1) = false).
  { rewrite <- member_skeleton, Hskel, member_app, member_remove_same.
    now rewrite Hnew_keys. }
  exists g1. eexists.
  split; [exact Hsplit|].
  split; [exact (merge_run g1 m ids cs Hm1 Hstored Hcs)|].
  cbn [nodes edges]. split; [|split; [|split]].
  - rewrite get_app_right.
    + simpl. rewrite String.eqb_refl. unfold cs.
      now rewrite (piece_contents_join nd boundary Hpos).
    + rewrite member_clear_items. now apply member_filter_absent.
  - rewrite get_app_right.
    + simpl. destruct (String.eqb n m) eqn:He; [|reflexivity].
      apply String.eqb_eq in He. subst m. unfold Dict.member in Hm.
      now rewrite Hget in Hm.
    + rewrite member_clear_items. now apply member_filter_absent.
  - intros k Hk. apply get_removed_after_merge; [exact Hk|].
    unfold Dict.member. simpl. destruct (String.eqb k m) eqn:He; [|reflexivity].
    apply String.eqb_eq in He. subst k. contradiction.
  - rewrite Hedges, filter_app.
    rewrite (filter_none _ (split_edges nd ids children first last_piece)).
    + apply app_nil_r.
    + assert (Hfirst : In first ids) by (destruct ids; [discriminate|]; simpl in Hhd;
                                          injection Hhd as ->; now left).
      assert (Hlast_in : In last_piece ids) by now apply last_error_In.
      apply Forall_forall. intros e He. apply negb_false_iff.
      unfold split_edges in He. apply in_app_or in He.
      destruct He as [He|He]; [|apply in_app_or in He; destruct He as [He|He]].
      * apply in_map_iff in He. destruct He as (p & <- & _).
        apply (touches_In ids _ first Hfirst). apply in_or_app. right. now left.
      * apply consecutive_In in He. destruct He as (a & b & -> & Ha & _).
        apply (touches_In ids _ a Ha). now left.
      * apply in_map_iff in He. destruct He as (c & <- & _).
        apply (touches_In ids _ last_piece Hlast_in). now left.
Qed.

Lemma merge_after_split_restores_content_only_witness :
  exists g1 g2,
    split test_uuid "x" (Offset 6%Z) chain3 = (Ok ["u"; "u'"], g1) /\
    merge "m" ["u"; "u'"] g1 = (Ok "m", g2) /\
    Dict.get "m" (nodes g2) = Some (new_node "Hello World!") /\
    edges chain3 = [["p"; "x"]; ["x"; "c"]] /\
    edges g2 = [].
Proof.
  destruct chain3_split_ready as (Hnd & Hfresh & Hanc & Hchild).
  destruct (merge_after_split_restores_content_only test_uuid chain3 "x" "m"
              (mkNode "Hello World!" [] [["p"]]) (Offset 6%Z) ["c"]
              eq_refl Hnd Hfresh Hanc eq_refl Hchild)
    as (g1 & g2 & Hsplit & Hmerge & Hnew & _ & _ & Hedges).
  - repeat constructor. discriminate.
  - reflexivity.
  - intros [H|[H|[]]]; discriminate.
  - exists g1, g2. split; [exact Hsplit|]. split; [exact Hmerge|].
    split; [exact Hnew|]. split; [reflexivity|]. rewrite Hedges. reflexivity.
Defined.

(** ** add_edge and get_children *)

Lemma children_in_app_raise (es1 es2 : list path) (n : node_id) (x : exn) :
  children_in es1 n = Raise x -> children_in (es1 ++ es2) n = Raise x.
Proof.
  induction es1 as [|e es1 IH]; intros Hrun; [discriminate|].
  destruct e as [|h t]; [exact Hrun|]. cbn [app children_in] in *.
  destruct (String.eqb h n).
  - destruct t; [exact Hrun|].
    destruct (children_in es1 n) as [cs|y] eqn:Hes; [discriminate|].
    now rewrite (IH Hrun).
  - now apply IH.
Qed.

(** X22. A successful [add_edge] of [h :: c :: rest] gives [h] one more
    child, [c], listed last, and changes the children of no other node; the
    identifiers of [rest] become children of nobody.  Where [get_children]
    raised before, it still raises. *)
Theorem add_edge_adds_one_child (g : Hypergraph) (h c : node_id) (rest : path) :
  Forall (fun n => Dict.member n (nodes g) = true) (c :: rest) ->
  exists g',
    add_edge (h :: c :: rest) g = (Ok tt, g') /\
    forall n,
      get_children g' n =
      match get_children g n with
      | Ok cs => Ok (if String.eqb h n then cs ++ [c] else cs)
      | Raise x => Raise x
      end.
Proof.
  intros Hall. eexists. split.
  - apply add_edge_unchecked_head; [simpl; lia|exact Hall].
  - intros n. unfold get_children. cbn [edges].
    destruct (children_in (edges g) n) as [cs|x] eqn:Hrun.
    + rewrite (children_in_app _ _ n cs Hrun). cbn [children_in].
      destruct (String.eqb h n); [reflexivity|now rewrite app_nil_r].
    + now apply children_in_app_raise.
Qed.

Lemma add_edge_adds_one_child_witness :
  exists g',
    add_edge ["D"; "A"; "B"] diamond = (Ok tt, g') /\
    get_children g' "D" = Ok ["A"] /\
    get_children g' "A" = Ok ["B"; "C"].
Proof.
  destruct (add_edge_adds_one_child diamond "D" "A" ["B"]) as (g' & Hrun & Hch).
  - repeat constructor.
  - exists g'. split; [exact Hrun|]. split; rewrite Hch; reflexivity.
Defined.

(** ** The agreement of edges and ancestry caches *)




(** ** refactor without children *)

Lemma refactor_roots_childless (d : nat) (uuid : nat -> node_id) (g : Hypergraph) :
  forall (roots : list node_id) (k : nat),
    Forall (fun r => Dict.member r (nodes g) = true /\ get_children g r = Ok []) roots ->
    refactor_roots (S d) uuid k roots g = (Ok k, g).
Proof.
  induction roots as [|r roots IH]; intros k Hall; [reflexivity|].
  apply Forall_cons_iff in Hall. destruct Hall as [[Hst Hch] Hrest].
  destruct (member_get r (nodes g) Hst) as [nd Hget].
  cbn [refactor_roots]. unfold bind at 1.
  assert (Hone : _refactor (S d) uuid k r g = (Ok k, g)).
  { cbn [_refactor]. unfold bind at 1. unfold lookup at 1. rewrite Hget.
    unfold bind at 1. unfold lift at 1. rewrite Hch.
    cbn [merge_equal_children]. unfold bind at 1. unfold ret at 1.
    unfold bind at 1. unfold ret at 1.
    unfold bind at 1. unfold lift. rewrite Hch. reflexivity. }
  rewrite Hone. now apply IH.
Qed.

(** X24. [refactor] changes nothing and draws no identifier when no root has
    a child: in particular nodes with identical contents that are not linked
    as parent and child are never merged, and the nodes that are not
    reachable from a root are never visited. *)
Theorem refactor_leaves_childless_roots (d : nat) (uuid : nat -> node_id)
  (g : Hypergraph) :
  Forall (fun r => get_children g r = Ok []) (get_roots g) ->
  refactor (S d) uuid g = (Ok tt, g).
Proof.
  intros Hall. unfold refactor. unfold bind at 1. unfold read.
  unfold bind at 1. rewrite refactor_roots_childless; [reflexivity|].
  apply Forall_forall. intros r Hr. split.
  - now apply member_In_keys, roots_are_keys.
  - rewrite Forall_forall in Hall. now apply Hall.
Qed.

Lemma refactor_leaves_childless_roots_witness :
  refactor 1 test_uuid (with_nodes [("1", "same"); ("2", "same")]) =
  (Ok tt, with_nodes [("1", "same"); ("2", "same")]).
Proof.
  apply refactor_leaves_childless_roots. vm_compute. repeat constructor.
Defined.

(** ** content_lineage and empty contents *)

Lemma content_lineage_in_skip (depth : nat) (g : Hypergraph) (target : string)
  (before rest : Dict.t Node) :
  Forall (fun kv => ends_with target (content (snd kv)) = false) before ->
  content_lineage_in depth g target (before ++ rest) =
  content_lineage_in depth g target rest.
Proof.
  induction before as [|[k nd] before IH]; intros Hall; [reflexivity|].
  apply Forall_cons_iff in Hall. destruct Hall as [Hk Hrest].
  cbn [app content_lineage_in]. cbn [snd] in Hk. rewrite Hk. now apply IH.
Qed.

(** X25. A root whose content is the empty string matches every target:
    when it is the first stored node whose content ends the target,
    [content_lineage] answers that root alone, for every target and without
    any recursion, however the rest of the graph looks. *)
Theorem content_lineage_answers_empty_root (depth : nat) (g : Hypergraph)
  (target : string) (before after : Dict.t Node) (k : node_id) (nd : Node) :
  nodes g = before ++ (k, nd) :: after ->
  Dict.member k before = false ->
  content nd = EmptyString ->
  ancestry nd = [] ->
  Forall (fun kv => ends_with target (content (snd kv)) = false) before ->
  content_lineage depth g target = Ok [k].
Proof.
  intros Hnodes Hfirst Hempty Hroot Hbefore.
  unfold content_lineage. rewrite Hnodes.
  rewrite (content_lineage_in_skip depth g target before _ Hbefore).
  cbn [content_lineage_in]. rewrite Hempty.
  assert (Hends : ends_with target EmptyString = true).
  { apply ends_with_spec. exists target. symmetry.
    clear. induction target as [|a t IH]; simpl; [reflexivity|]. now rewrite IH. }
  rewrite Hends.
  assert (Hmem : mem k (get_roots g) = true).
  { apply mem_In. unfold get_roots. rewrite Hnodes.
    apply in_map_iff. exists (k, nd). split; [reflexivity|].
    apply filter_In. split; [apply in_or_app; right; now left|].
    now apply is_root_true. }
  unfold get_ancestry. rewrite Hmem.
  cbn [first_matching rev app get_node_contents].
  rewrite Hnodes, (get_app_right k before _ Hfirst).
  cbn [Dict.get]. rewrite String.eqb_refl, Hempty.
  assert (Hin : contains target (join [EmptyString]) = true).
  { apply contains_spec. exists EmptyString, target. reflexivity. }
  now rewrite Hin.
Qed.

Lemma content_lineage_answers_empty_root_witness :
  content_lineage 0
    (mkGraph (("0", new_node EmptyString) :: nodes six_graph) (edges six_graph))
    "The quick brown fox jumps over the lazy dog." = Ok ["0"].
Proof.
  apply (content_lineage_answers_empty_root 0 _ _ [] (nodes six_graph) "0"
           (new_node EmptyString)); try reflexivity.
  constructor.
Defined.
